(** * Minipass: a shallow embedding of the stream state machine

    This development models the [Minipass] class of [src/index.ts]: the
    write side, the internal buffer, the flowing / paused / discarded
    consumption modes, the end-of-stream lifecycle, error latching, pipes
    and destruction.

    Modelling conventions.
    - The instance fields of the class are the fields of the record
      [state], under the names of the symbols that key them in the source.
    - Methods are computations in a state-and-exception monad [M]: a
      JavaScript [throw] is the outcome [Throw], which keeps the state
      reached at the point of the throw.
    - The host event emitter is the table [registry] of listeners in
      registration order.  User handlers are opaque: calling one appends a
      [Called] entry to [trace] and does not call back into the stream.
    - Pipe destinations are external writables: what the stream does to
      them is logged in [trace]; the value their [write] returns is given
      by the destination itself ([wwrite]).
    - [defer] enqueues a task in [microtasks]; [run_microtasks] is the
      host draining that queue.
    - The incremental string decoder and [Buffer.from(string, encoding)]
      are the interface [Codec].
    - The base emitter is modelled as a dispatcher only: [super.emit]
      calls the listeners of the event and says whether there was one.
      The exception Node raises for an 'error' event without listeners is
      outside the model. *)

From Stdlib Require Import ZArith List String Ascii Bool Lia Arith.
From Stdlib.Strings Require Import Byte.
Import ListNotations.
Open Scope string_scope.
Open Scope list_scope.

(** ** JavaScript values *)

Inductive value : Type :=
| VUndefined
| VNull
| VBool (b : bool)
| VNum (n : Z)
| VStr (s : string)
| VBuffer (b : list byte)
| VArrayBuffer (b : list byte)
| VView (backing : list byte) (byteOffset byteLength : nat)
| VError (message : string) (code : option string)
| VObject (id : nat).

(** Truthiness, as the operators [!], [&&], [||] and [if] see it. *)
Definition truthy (v : value) : bool :=
  match v with
  | VUndefined | VNull => false
  | VBool b => b
  | VNum n => negb (n =? 0)%Z
  | VStr s => negb (Nat.eqb (String.length s) 0)
  | _ => true
  end.

(** [Buffer.isBuffer], [isArrayBufferView], [isArrayBufferLike],
    [typeof c === 'string']. *)
Definition isBuffer (v : value) : bool :=
  match v with VBuffer _ => true | _ => false end.

Definition isArrayBufferView (v : value) : bool :=
  match v with VView _ _ _ => true | _ => false end.

Definition isArrayBufferLike (v : value) : bool :=
  match v with VArrayBuffer _ => true | _ => false end.

Definition isString (v : value) : bool :=
  match v with VStr _ => true | _ => false end.

(** The [length] property of a string or a Buffer.  Other values have
    none; the buffer of a stream that is not in object mode never holds
    one (lemma [typed_buffer_preserved]), and 0 stands in for them. *)
Definition js_length (v : value) : Z :=
  match v with
  | VStr s => Z.of_nat (String.length s)
  | VBuffer b => Z.of_nat (List.length b)
  | _ => 0%Z
  end.

(** Relative index of [slice] and [subarray]: negative indices count from
    the end, and the result is clamped to [0, len]. *)
Definition rel_index (len i : Z) : Z :=
  if (i <? 0)%Z then Z.max (len + i) 0 else Z.min i len.

Definition str_slice (s : string) (from to : Z) : string :=
  let len := Z.of_nat (String.length s) in
  let a := rel_index len from in
  let b := rel_index len to in
  if (a <? b)%Z then substring (Z.to_nat a) (Z.to_nat (b - a)) s else "".

Definition buf_subarray (l : list byte) (from to : Z) : list byte :=
  let len := Z.of_nat (List.length l) in
  let a := rel_index len from in
  let b := rel_index len to in
  if (a <? b)%Z then firstn (Z.to_nat (b - a)) (skipn (Z.to_nat a) l) else [].

(** [c.slice(n)], [c.slice(0, n)] on a string, [c.subarray(n)] and
    [c.subarray(0, n)] on a Buffer. *)
Definition slice_from (c : value) (n : Z) : value :=
  match c with
  | VStr s => VStr (str_slice s n (Z.of_nat (String.length s)))
  | VBuffer b => VBuffer (buf_subarray b n (Z.of_nat (List.length b)))
  | _ => c
  end.

Definition slice_to (c : value) (n : Z) : value :=
  match c with
  | VStr s => VStr (str_slice s 0 n)
  | VBuffer b => VBuffer (buf_subarray b 0 n)
  | _ => c
  end.

(** [this[BUFFER].join('')] on a buffer of strings. *)
Fixpoint join (l : list value) : string :=
  match l with
  | [] => ""
  | VStr s :: r => (s ++ join r)%string
  | _ :: r => join r
  end.

(** The bytes of a list of Buffers, one after the other. *)
Fixpoint concat_bytes (l : list value) : list byte :=
  match l with
  | [] => []
  | VBuffer b :: r => b ++ concat_bytes r
  | _ :: r => concat_bytes r
  end.

(** [Buffer.concat(list, totalLength)]: the result has exactly
    [totalLength] bytes, truncated or zero-filled. *)
Definition Buffer_concat (l : list value) (totalLength : nat) : list byte :=
  let all := concat_bytes l in
  firstn totalLength all ++ repeat x00 (totalLength - List.length all).

(** ** Events, listeners, destinations *)

(** An event name is a string or one of the two private symbols. *)
Inductive event : Type :=
| Ev (name : string)
| Sym_DESTROYED
| Sym_ERROR.

Definition event_eqb (a b : event) : bool :=
  match a, b with
  | Ev x, Ev y => String.eqb x y
  | Sym_DESTROYED, Sym_DESTROYED => true
  | Sym_ERROR, Sym_ERROR => true
  | _, _ => false
  end.

Definition is_ev (e : event) (name : string) : bool := event_eqb e (Ev name).

Definition isEndish (ev : event) : bool :=
  is_ev ev "end" || is_ev ev "finish" || is_ev ev "prefinish".

(** A destination is identified by [wid]; [Stdout] and [Stderr] are
    [proc.stdout] and [proc.stderr]. *)
Inductive dest_id : Type :=
| Stdout
| Stderr
| Sink (n : nat).

Definition dest_id_eqb (a b : dest_id) : bool :=
  match a, b with
  | Stdout, Stdout => true
  | Stderr, Stderr => true
  | Sink x, Sink y => Nat.eqb x y
  | _, _ => false
  end.

(** An external writable: [wwrite v] is [false] when [dest.write(v)]
    returns [false]. *)
Record Writable : Type := mkWritable {
  wid : dest_id;
  wwrite : value -> bool
}.

(** [PipeOptions] after [pipe] has normalised them, and the [Pipe] /
    [PipeProxyErrors] record ([proxyErrors] tells which). *)
Record Pipe : Type := mkPipe {
  dest : Writable;
  opts_end : bool;
  opts_proxyErrors : bool
}.

(** A listener function: a user handler, or the [proxyErrors] closure of
    a [PipeProxyErrors] towards a destination. *)
Inductive callback : Type :=
| Handler (id : nat)
| ProxyErrors (d : dest_id).

Definition callback_eqb (a b : callback) : bool :=
  match a, b with
  | Handler x, Handler y => Nat.eqb x y
  | ProxyErrors x, ProxyErrors y => dest_id_eqb x y
  | _, _ => false
  end.

(** A registered listener; [l_once] marks the wrapper [once] installs. *)
Record listener : Type := mkListener {
  l_fn : callback;
  l_once : bool
}.

Definition listener_eqb (a b : listener) : bool :=
  callback_eqb (l_fn a) (l_fn b) && Bool.eqb (l_once a) (l_once b).

Record AbortSignal : Type := mkSignal {
  aborted : bool;
  reason : value
}.

(** Deferred work, [defer(fn)] in the source. *)
Inductive task : Type :=
| TEmitData (data : value)
| TEmitEnd2
| TResume
| TCall (cb : nat)
| TLateError (h : listener).

(** What the stream does, in order.  [Emit] records a call of
    [this.emit] that passes the destroyed gate, [Dispatch] a call of the
    base emitter's [emit], [Called] the invocation of a user handler; the
    other entries are calls on a pipe destination, of a [write] callback,
    and of the [close()] hook of a subclass. *)
Inductive effect : Type :=
| Emit (ev : event) (args : list value)
| Dispatch (ev : event) (args : list value)
| Called (h : nat) (ev : event) (args : list value)
| CbCalled (cb : nat)
| DestWrite (d : dest_id) (data : value)
| DestEnd (d : dest_id)
| DestOnDrain (d : dest_id)
| DestOffDrain (d : dest_id)
| DestEmitError (d : dest_id) (er : value)
| CloseHook.

(** ** The instance *)

Record state : Type := mkState {
  FLOWING : bool;
  PAUSED : bool;
  PIPES : list Pipe;
  BUFFER : list value;
  OBJECTMODE : bool;
  ENCODING : option string;
  ASYNC : bool;
  DECODER : option (list byte);
  EOF : bool;
  EMITTED_END : bool;
  EMITTING_END : bool;
  CLOSED : bool;
  EMITTED_ERROR : value;
  BUFFERLENGTH : Z;
  DESTROYED : bool;
  SIGNAL : option AbortSignal;
  ABORTED : bool;
  DATALISTENERS : nat;
  DISCARDED : bool;
  writable : bool;
  readable : bool;
  registry : list (event * listener);
  has_close : bool;
  microtasks : list task;
  trace : list effect
}.

Definition set_FLOWING (x : bool) (s : state) : state :=
  mkState x (PAUSED s) (PIPES s) (BUFFER s) (OBJECTMODE s) (ENCODING s)
    (ASYNC s) (DECODER s) (EOF s) (EMITTED_END s) (EMITTING_END s)
    (CLOSED s) (EMITTED_ERROR s) (BUFFERLENGTH s) (DESTROYED s) (SIGNAL s)
    (ABORTED s) (DATALISTENERS s) (DISCARDED s) (writable s) (readable s)
    (registry s) (has_close s) (microtasks s) (trace s).

Definition set_PAUSED (x : bool) (s : state) : state :=
  mkState (FLOWING s) x (PIPES s) (BUFFER s) (OBJECTMODE s) (ENCODING s)
    (ASYNC s) (DECODER s) (EOF s) (EMITTED_END s) (EMITTING_END s)
    (CLOSED s) (EMITTED_ERROR s) (BUFFERLENGTH s) (DESTROYED s) (SIGNAL s)
    (ABORTED s) (DATALISTENERS s) (DISCARDED s) (writable s) (readable s)
    (registry s) (has_close s) (microtasks s) (trace s).

Definition set_PIPES (x : list Pipe) (s : state) : state :=
  mkState (FLOWING s) (PAUSED s) x (BUFFER s) (OBJECTMODE s) (ENCODING s)
    (ASYNC s) (DECODER s) (EOF s) (EMITTED_END s) (EMITTING_END s)
    (CLOSED s) (EMITTED_ERROR s) (BUFFERLENGTH s) (DESTROYED s) (SIGNAL s)
    (ABORTED s) (DATALISTENERS s) (DISCARDED s) (writable s) (readable s)
    (registry s) (has_close s) (microtasks s) (trace s).

Definition set_BUFFER (x : list value) (s : state) : state :=
  mkState (FLOWING s) (PAUSED s) (PIPES s) x (OBJECTMODE s) (ENCODING s)
    (ASYNC s) (DECODER s) (EOF s) (EMITTED_END s) (EMITTING_END s)
    (CLOSED s) (EMITTED_ERROR s) (BUFFERLENGTH s) (DESTROYED s) (SIGNAL s)
    (ABORTED s) (DATALISTENERS s) (DISCARDED s) (writable s) (readable s)
    (registry s) (has_close s) (microtasks s) (trace s).

Definition set_OBJECTMODE (x : bool) (s : state) : state :=
  mkState (FLOWING s) (PAUSED s) (PIPES s) (BUFFER s) x (ENCODING s)
    (ASYNC s) (DECODER s) (EOF s) (EMITTED_END s) (EMITTING_END s)
    (CLOSED s) (EMITTED_ERROR s) (BUFFERLENGTH s) (DESTROYED s) (SIGNAL s)
    (ABORTED s) (DATALISTENERS s) (DISCARDED s) (writable s) (readable s)
    (registry s) (has_close s) (microtasks s) (trace s).

Definition set_ENCODING (x : option string) (s : state) : state :=
  mkState (FLOWING s) (PAUSED s) (PIPES s) (BUFFER s) (OBJECTMODE s) x
    (ASYNC s) (DECODER s) (EOF s) (EMITTED_END s) (EMITTING_END s)
    (CLOSED s) (EMITTED_ERROR s) (BUFFERLENGTH s) (DESTROYED s) (SIGNAL s)
    (ABORTED s) (DATALISTENERS s) (DISCARDED s) (writable s) (readable s)
    (registry s) (has_close s) (microtasks s) (trace s).

Definition set_ASYNC (x : bool) (s : state) : state :=
  mkState (FLOWING s) (PAUSED s) (PIPES s) (BUFFER s) (OBJECTMODE s)
    (ENCODING s) x (DECODER s) (EOF s) (EMITTED_END s) (EMITTING_END s)
    (CLOSED s) (EMITTED_ERROR s) (BUFFERLENGTH s) (DESTROYED s) (SIGNAL s)
    (ABORTED s) (DATALISTENERS s) (DISCARDED s) (writable s) (readable s)
    (registry s) (has_close s) (microtasks s) (trace s).

Definition set_DECODER (x : option (list byte)) (s : state) : state :=
  mkState (FLOWING s) (PAUSED s) (PIPES s) (BUFFER s) (OBJECTMODE s)
    (ENCODING s) (ASYNC s) x (EOF s) (EMITTED_END s) (EMITTING_END s)
    (CLOSED s) (EMITTED_ERROR s) (BUFFERLENGTH s) (DESTROYED s) (SIGNAL s)
    (ABORTED s) (DATALISTENERS s) (DISCARDED s) (writable s) (readable s)
    (registry s) (has_close s) (microtasks s) (trace s).

Definition set_EOF (x : bool) (s : state) : state :=
  mkState (FLOWING s) (PAUSED s) (PIPES s) (BUFFER s) (OBJECTMODE s)
    (ENCODING s) (ASYNC s) (DECODER s) x (EMITTED_END s) (EMITTING_END s)
    (CLOSED s) (EMITTED_ERROR s) (BUFFERLENGTH s) (DESTROYED s) (SIGNAL s)
    (ABORTED s) (DATALISTENERS s) (DISCARDED s) (writable s) (readable s)
    (registry s) (has_close s) (microtasks s) (trace s).

Definition set_EMITTED_END (x : bool) (s : state) : state :=
  mkState (FLOWING s) (PAUSED s) (PIPES s) (BUFFER s) (OBJECTMODE s)
    (ENCODING s) (ASYNC s) (DECODER s) (EOF s) x (EMITTING_END s)
    (CLOSED s) (EMITTED_ERROR s) (BUFFERLENGTH s) (DESTROYED s) (SIGNAL s)
    (ABORTED s) (DATALISTENERS s) (DISCARDED s) (writable s) (readable s)
    (registry s) (has_close s) (microtasks s) (trace s).

Definition set_EMITTING_END (x : bool) (s : state) : state :=
  mkState (FLOWING s) (PAUSED s) (PIPES s) (BUFFER s) (OBJECTMODE s)
    (ENCODING s) (ASYNC s) (DECODER s) (EOF s) (EMITTED_END s) x (CLOSED s)
    (EMITTED_ERROR s) (BUFFERLENGTH s) (DESTROYED s) (SIGNAL s) (ABORTED s)
    (DATALISTENERS s) (DISCARDED s) (writable s) (readable s) (registry s)
    (has_close s) (microtasks s) (trace s).

Definition set_CLOSED (x : bool) (s : state) : state :=
  mkState (FLOWING s) (PAUSED s) (PIPES s) (BUFFER s) (OBJECTMODE s)
    (ENCODING s) (ASYNC s) (DECODER s) (EOF s) (EMITTED_END s)
    (EMITTING_END s) x (EMITTED_ERROR s) (BUFFERLENGTH s) (DESTROYED s)
    (SIGNAL s) (ABORTED s) (DATALISTENERS s) (DISCARDED s) (writable s)
    (readable s) (registry s) (has_close s) (microtasks s) (trace s).

Definition set_EMITTED_ERROR (x : value) (s : state) : state :=
  mkState (FLOWING s) (PAUSED s) (PIPES s) (BUFFER s) (OBJECTMODE s)
    (ENCODING s) (ASYNC s) (DECODER s) (EOF s) (EMITTED_END s)
    (EMITTING_END s) (CLOSED s) x (BUFFERLENGTH s) (DESTROYED s) (SIGNAL s)
    (ABORTED s) (DATALISTENERS s) (DISCARDED s) (writable s) (readable s)
    (registry s) (has_close s) (microtasks s) (trace s).

Definition set_BUFFERLENGTH (x : Z) (s : state) : state :=
  mkState (FLOWING s) (PAUSED s) (PIPES s) (BUFFER s) (OBJECTMODE s)
    (ENCODING s) (ASYNC s) (DECODER s) (EOF s) (EMITTED_END s)
    (EMITTING_END s) (CLOSED s) (EMITTED_ERROR s) x (DESTROYED s)
    (SIGNAL s) (ABORTED s) (DATALISTENERS s) (DISCARDED s) (writable s)
    (readable s) (registry s) (has_close s) (microtasks s) (trace s).

Definition set_DESTROYED (x : bool) (s : state) : state :=
  mkState (FLOWING s) (PAUSED s) (PIPES s) (BUFFER s) (OBJECTMODE s)
    (ENCODING s) (ASYNC s) (DECODER s) (EOF s) (EMITTED_END s)
    (EMITTING_END s) (CLOSED s) (EMITTED_ERROR s) (BUFFERLENGTH s) x
    (SIGNAL s) (ABORTED s) (DATALISTENERS s) (DISCARDED s) (writable s)
    (readable s) (registry s) (has_close s) (microtasks s) (trace s).

Definition set_SIGNAL (x : option AbortSignal) (s : state) : state :=
  mkState (FLOWING s) (PAUSED s) (PIPES s) (BUFFER s) (OBJECTMODE s)
    (ENCODING s) (ASYNC s) (DECODER s) (EOF s) (EMITTED_END s)
    (EMITTING_END s) (CLOSED s) (EMITTED_ERROR s) (BUFFERLENGTH s)
    (DESTROYED s) x (ABORTED s) (DATALISTENERS s) (DISCARDED s)
    (writable s) (readable s) (registry s) (has_close s) (microtasks s)
    (trace s).

Definition set_ABORTED (x : bool) (s : state) : state :=
  mkState (FLOWING s) (PAUSED s) (PIPES s) (BUFFER s) (OBJECTMODE s)
    (ENCODING s) (ASYNC s) (DECODER s) (EOF s) (EMITTED_END s)
    (EMITTING_END s) (CLOSED s) (EMITTED_ERROR s) (BUFFERLENGTH s)
    (DESTROYED s) (SIGNAL s) x (DATALISTENERS s) (DISCARDED s) (writable s)
    (readable s) (registry s) (has_close s) (microtasks s) (trace s).

Definition set_DATALISTENERS (x : nat) (s : state) : state :=
  mkState (FLOWING s) (PAUSED s) (PIPES s) (BUFFER s) (OBJECTMODE s)
    (ENCODING s) (ASYNC s) (DECODER s) (EOF s) (EMITTED_END s)
    (EMITTING_END s) (CLOSED s) (EMITTED_ERROR s) (BUFFERLENGTH s)
    (DESTROYED s) (SIGNAL s) (ABORTED s) x (DISCARDED s) (writable s)
    (readable s) (registry s) (has_close s) (microtasks s) (trace s).

Definition set_DISCARDED (x : bool) (s : state) : state :=
  mkState (FLOWING s) (PAUSED s) (PIPES s) (BUFFER s) (OBJECTMODE s)
    (ENCODING s) (ASYNC s) (DECODER s) (EOF s) (EMITTED_END s)
    (EMITTING_END s) (CLOSED s) (EMITTED_ERROR s) (BUFFERLENGTH s)
    (DESTROYED s) (SIGNAL s) (ABORTED s) (DATALISTENERS s) x (writable s)
    (readable s) (registry s) (has_close s) (microtasks s) (trace s).

Definition set_writable (x : bool) (s : state) : state :=
  mkState (FLOWING s) (PAUSED s) (PIPES s) (BUFFER s) (OBJECTMODE s)
    (ENCODING s) (ASYNC s) (DECODER s) (EOF s) (EMITTED_END s)
    (EMITTING_END s) (CLOSED s) (EMITTED_ERROR s) (BUFFERLENGTH s)
    (DESTROYED s) (SIGNAL s) (ABORTED s) (DATALISTENERS s) (DISCARDED s) x
    (readable s) (registry s) (has_close s) (microtasks s) (trace s).

Definition set_readable (x : bool) (s : state) : state :=
  mkState (FLOWING s) (PAUSED s) (PIPES s) (BUFFER s) (OBJECTMODE s)
    (ENCODING s) (ASYNC s) (DECODER s) (EOF s) (EMITTED_END s)
    (EMITTING_END s) (CLOSED s) (EMITTED_ERROR s) (BUFFERLENGTH s)
    (DESTROYED s) (SIGNAL s) (ABORTED s) (DATALISTENERS s) (DISCARDED s)
    (writable s) x (registry s) (has_close s) (microtasks s) (trace s).

Definition set_registry (x : list (event * listener)) (s : state) : state :=
  mkState (FLOWING s) (PAUSED s) (PIPES s) (BUFFER s) (OBJECTMODE s)
    (ENCODING s) (ASYNC s) (DECODER s) (EOF s) (EMITTED_END s)
    (EMITTING_END s) (CLOSED s) (EMITTED_ERROR s) (BUFFERLENGTH s)
    (DESTROYED s) (SIGNAL s) (ABORTED s) (DATALISTENERS s) (DISCARDED s)
    (writable s) (readable s) x (has_close s) (microtasks s) (trace s).

Definition set_has_close (x : bool) (s : state) : state :=
  mkState (FLOWING s) (PAUSED s) (PIPES s) (BUFFER s) (OBJECTMODE s)
    (ENCODING s) (ASYNC s) (DECODER s) (EOF s) (EMITTED_END s)
    (EMITTING_END s) (CLOSED s) (EMITTED_ERROR s) (BUFFERLENGTH s)
    (DESTROYED s) (SIGNAL s) (ABORTED s) (DATALISTENERS s) (DISCARDED s)
    (writable s) (readable s) (registry s) x (microtasks s) (trace s).

Definition set_microtasks (x : list task) (s : state) : state :=
  mkState (FLOWING s) (PAUSED s) (PIPES s) (BUFFER s) (OBJECTMODE s)
    (ENCODING s) (ASYNC s) (DECODER s) (EOF s) (EMITTED_END s)
    (EMITTING_END s) (CLOSED s) (EMITTED_ERROR s) (BUFFERLENGTH s)
    (DESTROYED s) (SIGNAL s) (ABORTED s) (DATALISTENERS s) (DISCARDED s)
    (writable s) (readable s) (registry s) (has_close s) x (trace s).

Definition set_trace (x : list effect) (s : state) : state :=
  mkState (FLOWING s) (PAUSED s) (PIPES s) (BUFFER s) (OBJECTMODE s)
    (ENCODING s) (ASYNC s) (DECODER s) (EOF s) (EMITTED_END s)
    (EMITTING_END s) (CLOSED s) (EMITTED_ERROR s) (BUFFERLENGTH s)
    (DESTROYED s) (SIGNAL s) (ABORTED s) (DATALISTENERS s) (DISCARDED s)
    (writable s) (readable s) (registry s) (has_close s) (microtasks s) x.

(** ** The monad of methods *)

Inductive outcome (A : Type) : Type :=
| Ret (a : A) (s : state)
| Throw (e : value) (s : state).

Arguments Ret {A} a s.
Arguments Throw {A} e s.

Definition M (A : Type) : Type := state -> outcome A.

Definition ret {A : Type} (a : A) : M A := fun s => Ret a s.

Definition throw {A : Type} (e : value) : M A := fun s => Throw e s.

Definition bind {A B : Type} (m : M A) (k : A -> M B) : M B :=
  fun s => match m s with
           | Ret a s' => k a s'
           | Throw e s' => Throw e s'
           end.

Definition gets {A : Type} (f : state -> A) : M A := fun s => Ret (f s) s.

Definition modify (f : state -> state) : M unit := fun s => Ret tt (f s).

Declare Scope stream_scope.
Delimit Scope stream_scope with stream.
Notation "x <- m ;; k" := (bind m (fun x => k))
  (at level 61, m at next level, right associativity) : stream_scope.
Notation "m ;; k" := (bind m (fun _ => k))
  (at level 61, right associativity) : stream_scope.
Open Scope stream_scope.

Definition when (b : bool) (m : M unit) : M unit :=
  if b then m else ret tt.

(** [for (const x of l) body(x)] *)
Fixpoint for_each {A : Type} (l : list A) (body : A -> M unit) : M unit :=
  match l with
  | [] => ret tt
  | x :: r => body x ;; for_each r body
  end.

(** The state an outcome ends in, and its result when it returns. *)
Definition final {A : Type} (o : outcome A) : state :=
  match o with Ret _ s => s | Throw _ s => s end.

Definition result {A : Type} (o : outcome A) : option A :=
  match o with Ret a _ => Some a | Throw _ _ => None end.

Definition log (e : effect) : M unit :=
  modify (fun s => set_trace (trace s ++ [e]) s).

Definition defer (t : task) : M unit :=
  modify (fun s => set_microtasks (microtasks s ++ [t]) s).

(** ** The codec interface

    [Buffer_from s enc] is [Buffer.from(s, enc)].  A [StringDecoder] for
    the encoding [enc] is the list of bytes it retains; [decoder_write]
    returns the text of the complete characters and the bytes retained
    afterwards, [decoder_end] flushes, and [decoder_lastNeed] is the
    truthiness of the [lastNeed] field. *)
Class Codec : Type := mkCodec {
  Buffer_from : string -> string -> list byte;
  decoder_write : string -> list byte -> list byte -> string * list byte;
  decoder_end : string -> list byte -> string;
  decoder_lastNeed : string -> list byte -> bool
}.

(** A codec for witnesses: one byte per character, nothing retained. *)
Definition latin1 : Codec :=
  mkCodec (fun s _ => list_byte_of_string s)
          (fun _ _ chunk => (string_of_list_byte chunk, []))
          (fun _ _ => "")
          (fun _ _ => false).

Section Minipass.

Context {codec : Codec}.

(** ** The event emitter the class extends *)

(** The listeners of [ev] in a listener table, and [this.listeners(ev)]. *)
Definition listeners_in (ev : event) (reg : list (event * listener))
  : list listener :=
  map snd (filter (fun p => event_eqb (fst p) ev) reg).

Definition listeners (ev : event) (s : state) : list listener :=
  listeners_in ev (registry s).

(** [super.on(ev, handler)] *)
Definition super_on (ev : event) (l : listener) : M unit :=
  modify (fun s => set_registry (registry s ++ [(ev, l)]) s).

Fixpoint remove_first {A : Type} (p : A -> bool) (l : list A) : list A :=
  match l with
  | [] => []
  | x :: r => if p x then r else x :: remove_first p r
  end.

Definition remove_last {A : Type} (p : A -> bool) (l : list A) : list A :=
  rev (remove_first p (rev l)).

(** [super.off(ev, handler)]: the most recently added listener of [ev]
    that is [handler] or wraps it. *)
Definition super_off (ev : event) (fn : callback) : M unit :=
  modify (fun s =>
    set_registry
      (remove_last
         (fun p => event_eqb (fst p) ev && callback_eqb (l_fn (snd p)) fn)
         (registry s)) s).

(** [super.off(ev, wrapper)] for the wrapper of a [once] listener that is
    being invoked: the earliest wrapper of that function still there. *)
Definition super_off_wrapper (ev : event) (l : listener) : M unit :=
  modify (fun s =>
    set_registry
      (remove_first
         (fun p => event_eqb (fst p) ev && listener_eqb (snd p) l)
         (registry s)) s).

(** The tail of the override [off]: recount the data listeners and stop
    the flow when the last consumer went away. *)
Definition off_with (remove : M unit) (ev : event) : M unit :=
  remove ;;
  when (is_ev ev "data")
    (modify (fun s => set_DATALISTENERS (List.length (listeners (Ev "data") s)) s) ;;
     n <- gets DATALISTENERS ;;
     disc <- gets DISCARDED ;;
     pipes <- gets PIPES ;;
     when (Nat.eqb n 0 && negb disc && Nat.eqb (List.length pipes) 0)
       (modify (set_FLOWING false))).

(** [off(ev, handler)] and its alias [removeListener] *)
Definition off (ev : event) (fn : callback) : M unit :=
  off_with (super_off ev fn) ev.

Definition removeListener (ev : event) (fn : callback) : M unit := off ev fn.

(** Calling a listener function. *)
Definition call (fn : callback) (ev : event) (args : list value) : M unit :=
  match fn with
  | Handler h => log (Called h ev args)
  | ProxyErrors d => log (DestEmitError d (hd VUndefined args))
  end.

Definition registered (ev : event) (l : listener) (s : state) : bool :=
  existsb (fun p => event_eqb (fst p) ev && listener_eqb (snd p) l)
    (registry s).

(** Invoking a registered listener: a [once] wrapper removes itself
    through [removeListener] before it calls its function, and does
    nothing once it has fired. *)
Definition invoke (ev : event) (l : listener) (args : list value) : M unit :=
  if l_once l then
    there <- gets (registered ev l) ;;
    when there
      (off_with (super_off_wrapper ev l) ev ;; call (l_fn l) ev args)
  else call (l_fn l) ev args.

(** [super.emit(ev, ...args)]: every listener of [ev], in registration
    order; [true] when there was one. *)
Definition super_emit (ev : event) (args : list value) : M bool :=
  log (Dispatch ev args) ;;
  ls <- gets (listeners ev) ;;
  for_each ls (fun l => invoke ev l args) ;;
  ret (negb (Nat.eqb (List.length ls) 0)).

(** [removeAllListeners(ev)], [ev] absent for [undefined]. *)
Definition removeAllListeners (ev : option event) : M unit :=
  modify (fun s =>
    set_registry
      (match ev with
       | None => []
       | Some e => filter (fun p => negb (event_eqb (fst p) e)) (registry s)
       end) s) ;;
  when (match ev with None => true | Some e => is_ev e "data" end)
    (modify (set_DATALISTENERS 0) ;;
     disc <- gets DISCARDED ;;
     pipes <- gets PIPES ;;
     when (negb disc && Nat.eqb (List.length pipes) 0)
       (modify (set_FLOWING false))).

(** ** Pipe records *)

(** [Pipe.unpipe] / [PipeProxyErrors.unpipe] *)
Definition Pipe_unpipe (p : Pipe) : M unit :=
  when (opts_proxyErrors p)
    (removeListener (Ev "error") (ProxyErrors (wid (dest p)))) ;;
  log (DestOffDrain (wid (dest p))).

(** [Pipe.end] *)
Definition Pipe_end (p : Pipe) : M unit :=
  Pipe_unpipe p ;;
  when (opts_end p) (log (DestEnd (wid (dest p)))).

(** ** Emission *)

Definition pause : M unit :=
  modify (set_FLOWING false) ;;
  modify (set_PAUSED true) ;;
  modify (set_DISCARDED false).

Definition encoding_name (s : state) : string :=
  match ENCODING s with Some e => e | None => "" end.

(** [[EMITEND2]] *)
Definition EMITEND2 : M bool :=
  dec <- gets DECODER ;;
  match dec with
  | Some retained =>
      enc <- gets encoding_name ;;
      let data := decoder_end enc retained in
      modify (set_DECODER (Some [])) ;;
      when (truthy (VStr data))
        (pipes <- gets PIPES ;;
         for_each pipes (fun p => log (DestWrite (wid (dest p)) (VStr data))) ;;
         disc <- gets DISCARDED ;;
         when (negb disc) (super_emit (Ev "data") [VStr data] ;; ret tt))
  | None => ret tt
  end ;;
  pipes <- gets PIPES ;;
  for_each pipes Pipe_end ;;
  r <- super_emit (Ev "end") [] ;;
  removeAllListeners (Some (Ev "end")) ;;
  ret r.

(** [[EMITEND]] *)
Definition EMITEND : M bool :=
  emitted <- gets EMITTED_END ;;
  if emitted then ret false
  else
    modify (set_EMITTED_END true) ;;
    modify (set_readable false) ;;
    async <- gets ASYNC ;;
    if async then defer TEmitEnd2 ;; ret true
    else EMITEND2.

(** [[EMITDATA]], with [maybe_emit_end] standing for the call
    [this[MAYBE_EMIT_END]()] at its end. *)
Definition EMITDATA_with (maybe_emit_end : M unit) (data : value) : M bool :=
  pipes <- gets PIPES ;;
  for_each pipes
    (fun p => log (DestWrite (wid (dest p)) data) ;;
              when (negb (wwrite (dest p) data)) pause) ;;
  disc <- gets DISCARDED ;;
  r <- (if disc then ret false else super_emit (Ev "data") [data]) ;;
  maybe_emit_end ;;
  ret r.

(** [emit(ev, ...args)], with [maybe_emit_end] standing for the calls
    [this[MAYBE_EMIT_END]()] in its branches. *)
Definition emit_with (maybe_emit_end : M unit) (ev : event)
    (args : list value) : M bool :=
  let data := hd VUndefined args in
  destroyed <- gets DESTROYED ;;
  if negb (is_ev ev "error") && negb (is_ev ev "close")
     && negb (event_eqb ev Sym_DESTROYED) && destroyed
  then ret false
  else
    log (Emit ev args) ;;
    if is_ev ev "data" then
      om <- gets OBJECTMODE ;;
      if negb om && negb (truthy data) then ret false
      else
        async <- gets ASYNC ;;
        if async then defer (TEmitData data) ;; ret true
        else EMITDATA_with maybe_emit_end data
    else if is_ev ev "end" then EMITEND
    else if is_ev ev "close" then
      modify (set_CLOSED true) ;;
      emitted <- gets EMITTED_END ;;
      destroyed <- gets DESTROYED ;;
      if negb emitted && negb destroyed then ret false
      else
        r <- super_emit (Ev "close") [] ;;
        removeAllListeners (Some (Ev "close")) ;;
        ret r
    else if is_ev ev "error" then
      modify (set_EMITTED_ERROR data) ;;
      super_emit Sym_ERROR [data] ;;
      sig <- gets SIGNAL ;;
      ls <- gets (listeners (Ev "error")) ;;
      r <- (if match sig with None => true | Some _ => false end
               || negb (Nat.eqb (List.length ls) 0)
            then super_emit (Ev "error") [data]
            else ret false) ;;
      maybe_emit_end ;;
      ret r
    else if is_ev ev "resume" then
      r <- super_emit (Ev "resume") [] ;;
      maybe_emit_end ;;
      ret r
    else if is_ev ev "finish" || is_ev ev "prefinish" then
      r <- super_emit ev [] ;;
      removeAllListeners (Some ev) ;;
      ret r
    else
      r <- super_emit ev args ;;
      maybe_emit_end ;;
      ret r.

Definition end_guard (s : state) : bool :=
  negb (EMITTING_END s) && negb (EMITTED_END s) && negb (DESTROYED s)
  && Nat.eqb (List.length (BUFFER s)) 0 && EOF s.

(** [[MAYBE_EMIT_END]].  The four events it emits never reach a nested
    [this[MAYBE_EMIT_END]()] (lemma [emit_with_endish]), and a nested call
    would return at once while [EMITTING_END] is set (lemma
    [MAYBE_EMIT_END_reentrant]). *)
Definition MAYBE_EMIT_END : M unit :=
  fire <- gets end_guard ;;
  when fire
    (modify (set_EMITTING_END true) ;;
     emit_with (ret tt) (Ev "end") [] ;;
     emit_with (ret tt) (Ev "prefinish") [] ;;
     emit_with (ret tt) (Ev "finish") [] ;;
     closed <- gets CLOSED ;;
     when closed (emit_with (ret tt) (Ev "close") [] ;; ret tt) ;;
     modify (set_EMITTING_END false)).

Definition emit : event -> list value -> M bool := emit_with MAYBE_EMIT_END.

Definition EMITDATA : value -> M bool := EMITDATA_with MAYBE_EMIT_END.


(** ** The buffer *)

Definition TypeError (msg : string) : value := VError msg None.

(** [[BUFFERPUSH]] *)
Definition BUFFERPUSH (chunk : value) : M unit :=
  om <- gets OBJECTMODE ;;
  (if om then modify (fun s => set_BUFFERLENGTH (BUFFERLENGTH s + 1) s)
   else modify (fun s => set_BUFFERLENGTH (BUFFERLENGTH s + js_length chunk) s)) ;;
  modify (fun s => set_BUFFER (BUFFER s ++ [chunk]) s).

(** [[BUFFERSHIFT]].  Outside object mode [this[BUFFER][0].length] throws
    on an empty buffer; in object mode [shift()] returns [undefined]. *)
Definition BUFFERSHIFT : M value :=
  om <- gets OBJECTMODE ;;
  buf <- gets BUFFER ;;
  (if om then modify (fun s => set_BUFFERLENGTH (BUFFERLENGTH s - 1) s)
   else match buf with
        | [] => throw (TypeError "Cannot read properties of undefined")
        | c :: _ =>
            modify (fun s => set_BUFFERLENGTH (BUFFERLENGTH s - js_length c) s)
        end) ;;
  modify (set_BUFFER (tl buf)) ;;
  ret (hd VUndefined buf).

(** [[FLUSHCHUNK]] *)
Definition FLUSHCHUNK (chunk : value) : M bool :=
  emit (Ev "data") [chunk] ;;
  gets FLOWING.

(** The [do {} while (...)] loop of [[FLUSH]].  Every round shifts one
    item, so the length of the buffer on entry bounds the rounds
    ([FLUSH] starts it with that much fuel). *)
Fixpoint FLUSH_loop (fuel : nat) : M unit :=
  chunk <- BUFFERSHIFT ;;
  flowing <- FLUSHCHUNK chunk ;;
  len <- gets (fun s => List.length (BUFFER s)) ;;
  if flowing && negb (Nat.eqb len 0) then
    match fuel with
    | O => ret tt
    | S fuel' => FLUSH_loop fuel'
    end
  else ret tt.

(** [[FLUSH]] *)
Definition FLUSH (noDrain : bool) : M unit :=
  len <- gets (fun s => List.length (BUFFER s)) ;;
  FLUSH_loop len ;;
  len <- gets (fun s => List.length (BUFFER s)) ;;
  eof <- gets EOF ;;
  when (negb noDrain && Nat.eqb len 0 && negb eof)
    (emit (Ev "drain") [] ;; ret tt).

(** ** Flow control *)

(** [[RESUME]] and the public [resume] *)
Definition RESUME : M unit :=
  destroyed <- gets DESTROYED ;;
  if destroyed then ret tt
  else
    n <- gets DATALISTENERS ;;
    pipes <- gets PIPES ;;
    when (Nat.eqb n 0 && Nat.eqb (List.length pipes) 0)
      (modify (set_DISCARDED true)) ;;
    modify (set_PAUSED false) ;;
    modify (set_FLOWING true) ;;
    emit (Ev "resume") [] ;;
    len <- gets (fun s => List.length (BUFFER s)) ;;
    if negb (Nat.eqb len 0) then FLUSH false
    else
      eof <- gets EOF ;;
      if eof then MAYBE_EMIT_END
      else emit (Ev "drain") [] ;; ret tt.

Definition resume : M unit := RESUME.

(** ** Writing *)

(** The second argument of [write] and [end]: absent (or [null]), an
    encoding name, or a callback. *)
Inductive enc_arg : Type :=
| EncAbsent
| EncName (e : string)
| EncFn (cb : nat).

(** [fn(cb)] with [fn = this[ASYNC] ? defer : nodefer] *)
Definition run_cb (async : bool) (cb : option nat) : M unit :=
  match cb with
  | None => ret tt
  | Some f => if async then defer (TCall f) else log (CbCalled f)
  end.

Definition Buffer_of (chunk : value) : value :=
  match chunk with
  | VView b off len => VBuffer (firstn len (skipn off b))
  | VArrayBuffer b => VBuffer b
  | _ => chunk
  end.

(** [write(chunk, encoding, cb)] *)
Definition write (chunk : value) (encoding : enc_arg) (cb : option nat)
  : M bool :=
  ab <- gets ABORTED ;;
  if ab then ret false
  else
  eof <- gets EOF ;;
  if eof then throw (VError "write after end" None)
  else
  destroyed <- gets DESTROYED ;;
  if destroyed then
    emit (Ev "error")
      [VError "Cannot call write after a stream was destroyed"
              (Some "ERR_STREAM_DESTROYED")] ;;
    ret true
  else
  let cb := match encoding with EncFn f => Some f | _ => cb end in
  let encoding :=
    match encoding with
    | EncName e => if truthy (VStr e) then e else "utf8"
    | _ => "utf8"
    end in
  async <- gets ASYNC ;;
  om <- gets OBJECTMODE ;;
  chunk <- (if negb om && negb (isBuffer chunk) then
              if isArrayBufferView chunk then ret (Buffer_of chunk)
              else if isArrayBufferLike chunk then ret (Buffer_of chunk)
              else if negb (isString chunk) then
                throw
                  (VError "Non-contiguous data written to non-objectMode stream"
                          None)
              else ret chunk
            else ret chunk) ;;
  if om then
    flowing <- gets FLOWING ;;
    len <- gets BUFFERLENGTH ;;
    when (flowing && negb (len =? 0)%Z) (FLUSH true) ;;
    flowing <- gets FLOWING ;;
    (if flowing then emit (Ev "data") [chunk] ;; ret tt
     else BUFFERPUSH chunk) ;;
    len <- gets BUFFERLENGTH ;;
    when (negb (len =? 0)%Z) (emit (Ev "readable") [] ;; ret tt) ;;
    run_cb async cb ;;
    gets FLOWING
  else if (js_length chunk =? 0)%Z then
    len <- gets BUFFERLENGTH ;;
    when (negb (len =? 0)%Z) (emit (Ev "readable") [] ;; ret tt) ;;
    run_cb async cb ;;
    gets FLOWING
  else
    enc <- gets ENCODING ;;
    dec <- gets DECODER ;;
    let same :=
      match enc with Some e => String.eqb encoding e | None => false end in
    let lastNeed :=
      match dec with
      | Some retained => decoder_lastNeed (match enc with Some e => e | None => "" end) retained
      | None => false
      end in
    let chunk :=
      match chunk with
      | VStr str =>
          if negb (same && negb lastNeed)
          then VBuffer (Buffer_from str encoding)
          else chunk
      | _ => chunk
      end in
    chunk <- (match chunk, enc, dec with
              | VBuffer b, Some e, Some retained =>
                  let (text, retained') := decoder_write e retained b in
                  modify (set_DECODER (Some retained')) ;;
                  ret (VStr text)
              | VBuffer _, Some _, None =>
                  throw (TypeError "Cannot read properties of null")
              | _, _, _ => ret chunk
              end) ;;
    flowing <- gets FLOWING ;;
    len <- gets BUFFERLENGTH ;;
    when (flowing && negb (len =? 0)%Z) (FLUSH true) ;;
    flowing <- gets FLOWING ;;
    (if flowing then emit (Ev "data") [chunk] ;; ret tt
     else BUFFERPUSH chunk) ;;
    len <- gets BUFFERLENGTH ;;
    when (negb (len =? 0)%Z) (emit (Ev "readable") [] ;; ret tt) ;;
    run_cb async cb ;;
    gets FLOWING.

(** ** Reading *)

(** [[READ]]; [n] is [None] for [null]. *)
Definition READ (n : option Z) (chunk : value) : M value :=
  om <- gets OBJECTMODE ;;
  chunk <- (if om then BUFFERSHIFT ;; ret chunk
            else
              match chunk with
              | VStr _ | VBuffer _ =>
                  match n with
                  | None => BUFFERSHIFT ;; ret chunk
                  | Some k =>
                      if (k =? js_length chunk)%Z then BUFFERSHIFT ;; ret chunk
                      else
                        modify (fun s =>
                          set_BUFFER (slice_from chunk k :: tl (BUFFER s)) s) ;;
                        modify (fun s =>
                          set_BUFFERLENGTH (BUFFERLENGTH s - k) s) ;;
                        ret (slice_to chunk k)
                  end
              | _ => throw (TypeError "Cannot read properties of undefined")
              end) ;;
  emit (Ev "data") [chunk] ;;
  len <- gets (fun s => List.length (BUFFER s)) ;;
  eof <- gets EOF ;;
  when (Nat.eqb len 0 && negb eof) (emit (Ev "drain") [] ;; ret tt) ;;
  ret chunk.

(** [read(n)]; [n] is [None] when absent or [null]. *)
Definition read (n : option Z) : M value :=
  destroyed <- gets DESTROYED ;;
  if destroyed then ret VNull
  else
    modify (set_DISCARDED false) ;;
    len <- gets BUFFERLENGTH ;;
    if (len =? 0)%Z
       || match n with
          | Some k => (k =? 0)%Z || (len <? k)%Z
          | None => false
          end
    then MAYBE_EMIT_END ;; ret VNull
    else
      om <- gets OBJECTMODE ;;
      let n := if om then None else n in
      buf <- gets BUFFER ;;
      enc <- gets ENCODING ;;
      (if Nat.ltb 1 (List.length buf) && negb om then
         match enc with
         | Some _ => modify (set_BUFFER [VStr (join buf)])
         | None =>
             if (len <? 0)%Z
             then throw (VError "The value of length is out of range" None)
             else modify (set_BUFFER [VBuffer (Buffer_concat buf (Z.to_nat len))])
         end
       else ret tt) ;;
      head <- gets (fun s => hd VUndefined (BUFFER s)) ;;
      r <- READ n head ;;
      MAYBE_EMIT_END ;;
      ret r.

(** ** Listener registration *)

(** The override [on], for a plain listener or a [once] wrapper. *)
Definition on_listener (ev : event) (l : listener) : M unit :=
  super_on ev l ;;
  len <- gets BUFFERLENGTH ;;
  emitted <- gets EMITTED_END ;;
  er <- gets EMITTED_ERROR ;;
  if is_ev ev "data" then
    modify (set_DISCARDED false) ;;
    modify (fun s => set_DATALISTENERS (S (DATALISTENERS s)) s) ;;
    pipes <- gets PIPES ;;
    flowing <- gets FLOWING ;;
    when (Nat.eqb (List.length pipes) 0 && negb flowing) RESUME
  else if is_ev ev "readable" && negb (len =? 0)%Z then
    super_emit (Ev "readable") [] ;; ret tt
  else if isEndish ev && emitted then
    super_emit ev [] ;;
    removeAllListeners (Some ev)
  else if is_ev ev "error" && truthy er then
    async <- gets ASYNC ;;
    if async then defer (TLateError l)
    else invoke (Ev "error") l [er]
  else ret tt.

Definition on (ev : event) (handler : callback) : M unit :=
  on_listener ev (mkListener handler false).

Definition addListener (ev : event) (handler : callback) : M unit :=
  on ev handler.

(** [once] is the emitter's: it registers a wrapper through [this.on]. *)
Definition once (ev : event) (handler : callback) : M unit :=
  on_listener ev (mkListener handler true).

(** ** Ending *)

(** The first argument of [end]. *)
Inductive chunk_arg : Type :=
| ChunkAbsent
| ChunkFn (cb : nat)
| Chunk (v : value).

(** [end(chunk, encoding, cb)] *)
Definition end_ (chunk : chunk_arg) (encoding : enc_arg) (cb : option nat)
  : M unit :=
  let cb := match chunk with ChunkFn f => Some f | _ => cb end in
  let cb := match encoding with EncFn f => Some f | _ => cb end in
  let encoding :=
    match encoding with EncFn _ => EncName "utf8" | e => e end in
  match chunk with
  | Chunk VUndefined | ChunkAbsent | ChunkFn _ => ret tt
  | Chunk v => write v encoding None ;; ret tt
  end ;;
  match cb with
  | Some f => once (Ev "end") (Handler f)
  | None => ret tt
  end ;;
  modify (set_EOF true) ;;
  modify (set_writable false) ;;
  flowing <- gets FLOWING ;;
  paused <- gets PAUSED ;;
  when (flowing || negb paused) MAYBE_EMIT_END.

(** ** Pipes *)

(** The options object of [pipe]; a field is [VUndefined] when absent. *)
Record PipeOptions : Type := mkPipeOptions {
  opt_end : value;
  opt_proxyErrors : value
}.

Definition no_options : PipeOptions := mkPipeOptions VUndefined VUndefined.

Definition is_false (v : value) : bool :=
  match v with VBool false => true | _ => false end.

Definition is_std (d : dest_id) : bool :=
  dest_id_eqb d Stdout || dest_id_eqb d Stderr.

(** The value [pipe] stores in [opts.end]. *)
Definition effective_end (d : Writable) (opts : PipeOptions) : bool :=
  if is_std (wid d) then false else negb (is_false (opt_end opts)).

(** [pipe(dest, opts)] *)
Definition pipe (d : Writable) (opts : option PipeOptions) : M Writable :=
  destroyed <- gets DESTROYED ;;
  if destroyed then ret d
  else
    modify (set_DISCARDED false) ;;
    ended <- gets EMITTED_END ;;
    let opts := match opts with Some o => o | None => no_options end in
    let e := effective_end d opts in
    let pe := truthy (opt_proxyErrors opts) in
    (if ended then when e (log (DestEnd (wid d)))
     else
       log (DestOnDrain (wid d)) ;;
       when pe (on (Ev "error") (ProxyErrors (wid d))) ;;
       modify (fun s => set_PIPES (PIPES s ++ [mkPipe d e pe]) s) ;;
       async <- gets ASYNC ;;
       if async then defer TResume else RESUME) ;;
    ret d.

(** [unpipe(dest)] *)
Definition unpipe (d : Writable) : M unit :=
  pipes <- gets PIPES ;;
  match find (fun p => dest_id_eqb (wid (dest p)) (wid d)) pipes with
  | Some p =>
      (if Nat.eqb (List.length pipes) 1 then
         flowing <- gets FLOWING ;;
         n <- gets DATALISTENERS ;;
         when (flowing && Nat.eqb n 0) (modify (set_FLOWING false)) ;;
         modify (set_PIPES [])
       else
         modify (set_PIPES
           (remove_first (fun q => dest_id_eqb (wid (dest q)) (wid d)) pipes))) ;;
      Pipe_unpipe p
  | None => ret tt
  end.

(** ** Destruction *)

(** [destroy(er)] *)
Definition destroy (er : value) : M unit :=
  destroyed <- gets DESTROYED ;;
  if destroyed then
    (if truthy er then emit (Ev "error") [er] else emit Sym_DESTROYED []) ;;
    ret tt
  else
    modify (set_DESTROYED true) ;;
    modify (set_DISCARDED true) ;;
    modify (set_BUFFER []) ;;
    modify (set_BUFFERLENGTH 0%Z) ;;
    hook <- gets has_close ;;
    closed <- gets CLOSED ;;
    when (hook && negb closed) (log CloseHook) ;;
    (if truthy er then emit (Ev "error") [er] else emit Sym_DESTROYED []) ;;
    ret tt.

(** [[ABORT]] *)
Definition ABORT : M unit :=
  modify (set_ABORTED true) ;;
  sig <- gets SIGNAL ;;
  let r := match sig with Some sg => reason sg | None => VUndefined end in
  emit (Ev "abort") [r] ;;
  destroy r.

(** The signal given at construction fires with reason [r]. *)
Definition signal_abort (r : value) : M unit :=
  sig <- gets SIGNAL ;;
  match sig with
  | Some _ => modify (set_SIGNAL (Some (mkSignal true r))) ;; ABORT
  | None => ret tt
  end.

(** ** Construction *)

Record Options : Type := mkOptions {
  o_async : value;
  o_signal : option AbortSignal;
  o_encoding : option string;
  o_objectMode : bool
}.

(** The field initialisers of the class. *)
Definition blank : state :=
  mkState false false [] [] false None false None false false false false
    VNull 0%Z false None false 0 false true true [] false [] [].

(** [isEncodingOptions] *)
Definition isEncodingOptions (o : Options) : bool :=
  negb (o_objectMode o)
  && match o_encoding o with
     | Some e => truthy (VStr e) && negb (String.eqb e "buffer")
     | None => false
     end.

Definition constructor (o : Options) : M unit :=
  if o_objectMode o && match o_encoding o with Some _ => true | None => false end
  then throw (TypeError "Encoding and objectMode may not be used together")
  else
    (if o_objectMode o then
       modify (set_OBJECTMODE true) ;; modify (set_ENCODING None)
     else if isEncodingOptions o then
       modify (set_ENCODING (o_encoding o)) ;; modify (set_OBJECTMODE false)
     else
       modify (set_OBJECTMODE false) ;; modify (set_ENCODING None)) ;;
    modify (set_ASYNC (truthy (o_async o))) ;;
    enc <- gets ENCODING ;;
    modify (set_DECODER (match enc with Some _ => Some [] | None => None end)) ;;
    match o_signal o with
    | Some sg =>
        modify (set_SIGNAL (Some sg)) ;;
        if aborted sg then ABORT else ret tt
    | None => ret tt
    end.

(** [new Minipass(o)] *)
Definition new (o : Options) : outcome unit := constructor o blank.

(** The [async] setter. *)
Definition set_async (a : value) : M unit :=
  modify (fun s => set_ASYNC (ASYNC s || truthy a) s).

(** ** The microtask queue *)

Definition run_task (t : task) : M unit :=
  match t with
  | TEmitData data => EMITDATA data ;; ret tt
  | TEmitEnd2 => EMITEND2 ;; ret tt
  | TResume => RESUME
  | TCall cb => log (CbCalled cb)
  | TLateError l =>
      er <- gets EMITTED_ERROR ;;
      invoke (Ev "error") l [er]
  end.

(** The host runs at most [fuel] deferred tasks, oldest first. *)
Fixpoint run_microtasks (fuel : nat) (s : state) : state :=
  match fuel with
  | O => s
  | S fuel' =>
      match microtasks s with
      | [] => s
      | t :: rest =>
          run_microtasks fuel' (final (run_task t (set_microtasks rest s)))
      end
  end.

End Minipass.

(** * Reasoning about methods *)

(** ** Methods that return, within a frame

    [safe R m]: from every state [m] returns (it does not throw), and the
    state it returns in is related to the initial one by [R]. *)

Definition safe {A : Type} (R : state -> state -> Prop) (m : M A) : Prop :=
  forall s, exists a s', m s = Ret a s' /\ R s s'.

(** The frames used below are preorders. *)
Class Frame (R : state -> state -> Prop) : Prop := {
  frame_refl : forall s, R s s;
  frame_trans : forall a b c, R a b -> R b c -> R a c
}.

Section Safe.

Context {R : state -> state -> Prop} {FR : Frame R}.

Lemma safe_ret {A : Type} (a : A) : safe R (ret a).
Proof. intro s. exists a, s. split; [reflexivity | apply frame_refl]. Qed.

Lemma safe_gets {A : Type} (f : state -> A) : safe R (gets f).
Proof. intro s. exists (f s), s. split; [reflexivity | apply frame_refl]. Qed.

Lemma safe_modify (f : state -> state) :
  (forall s, R s (f s)) -> safe R (modify f).
Proof. intros H s. exists tt, (f s). split; [reflexivity | apply H]. Qed.

Lemma safe_bind {A B : Type} (m : M A) (k : A -> M B) :
  safe R m -> (forall a, safe R (k a)) -> safe R (bind m k).
Proof.
  intros Hm Hk s. destruct (Hm s) as (a & s1 & E1 & R1).
  destruct (Hk a s1) as (b & s2 & E2 & R2).
  exists b, s2. unfold bind. rewrite E1. split; [exact E2|].
  eapply frame_trans; eassumption.
Qed.

Lemma safe_when (b : bool) (m : M unit) : safe R m -> safe R (when b m).
Proof. intro H. destruct b; simpl; [exact H | apply safe_ret]. Qed.

Lemma safe_for_each {A : Type} (l : list A) (body : A -> M unit) :
  (forall x, safe R (body x)) -> safe R (for_each l body).
Proof.
  intro H. induction l as [|x r IH]; simpl.
  - apply safe_ret.
  - apply safe_bind; [apply H | intros _; exact IH].
Qed.

End Safe.

Lemma safe_weaken {A : Type} (R R' : state -> state -> Prop) (m : M A) :
  (forall s s', R s s' -> R' s s') -> safe R m -> safe R' m.
Proof.
  intros H Hm s. destruct (Hm s) as (a & s' & E & HR).
  exists a, s'. split; [exact E | apply H, HR].
Qed.

(** The trace only grows; [ext ok s s'] says the entries added between
    [s] and [s'] all satisfy [ok]. *)
Definition ext (ok : effect -> Prop) (s s' : state) : Prop :=
  exists l, trace s' = trace s ++ l /\ Forall ok l.

Lemma ext_refl (ok : effect -> Prop) (s : state) : ext ok s s.
Proof. exists []. split; [symmetry; apply app_nil_r | constructor]. Qed.

Lemma ext_trans (ok : effect -> Prop) (a b c : state) :
  ext ok a b -> ext ok b c -> ext ok a c.
Proof.
  intros (l1 & E1 & F1) (l2 & E2 & F2). exists (l1 ++ l2). split.
  - rewrite E2, E1. symmetry. apply app_assoc.
  - apply Forall_app. split; assumption.
Qed.

Lemma ext_same (ok : effect -> Prop) (s s' : state) :
  trace s' = trace s -> ext ok s s'.
Proof. intro E. exists []. rewrite E. split; [symmetry; apply app_nil_r | constructor]. Qed.

Lemma ext_one (ok : effect -> Prop) (s s' : state) (e : effect) :
  trace s' = trace s ++ [e] -> ok e -> ext ok s s'.
Proof. intros E H. exists [e]. split; [exact E | repeat constructor; exact H]. Qed.

Lemma ext_weaken (ok ok' : effect -> Prop) (s s' : state) :
  (forall e, ok e -> ok' e) -> ext ok s s' -> ext ok' s s'.
Proof.
  intros H (l & E & F). exists l. split; [exact E|].
  eapply Forall_impl; [exact H | exact F].
Qed.

(** What dispatching to listeners leaves alone: everything but the
    listener table, the data-listener count and the flowing flag (a
    [once] wrapper unregisters itself). *)
Definition dispatch_core (s : state) :=
  (PAUSED s, PIPES s, BUFFER s, OBJECTMODE s, ENCODING s, ASYNC s,
   DECODER s, EOF s, EMITTED_END s, EMITTING_END s, CLOSED s,
   EMITTED_ERROR s, BUFFERLENGTH s, DESTROYED s, SIGNAL s, ABORTED s,
   DISCARDED s, writable s, readable s, has_close s, microtasks s).

Definition dispatch_frame (ok : effect -> Prop) (s s' : state) : Prop :=
  dispatch_core s' = dispatch_core s /\ ext ok s s'.

(** What an emission leaves alone: the buffer and its length, the
    configuration, the end-of-input, destroyed and aborted flags, the
    pipes. *)
Definition emit_core (s : state) :=
  (PIPES s, BUFFER s, OBJECTMODE s, ENCODING s, ASYNC s, EOF s,
   BUFFERLENGTH s, DESTROYED s, SIGNAL s, ABORTED s, writable s,
   has_close s).

Definition emit_frame (ok : effect -> Prop) (s s' : state) : Prop :=
  emit_core s' = emit_core s /\ ext ok s s'.

(** What the tail of an [end] emission leaves alone: as dispatching, but
    the decoder is flushed. *)
Definition end_core (s : state) :=
  (PAUSED s, PIPES s, BUFFER s, OBJECTMODE s, ENCODING s, ASYNC s,
   EOF s, EMITTED_END s, EMITTING_END s, CLOSED s,
   EMITTED_ERROR s, BUFFERLENGTH s, DESTROYED s, SIGNAL s, ABORTED s,
   DISCARDED s, writable s, readable s, has_close s, microtasks s).

Definition end_frame (ok : effect -> Prop) (s s' : state) : Prop :=
  end_core s' = end_core s /\ ext ok s s'.

#[export] Instance end_frame_Frame ok : Frame (end_frame ok).
Proof.
  split.
  - intro s. split; [reflexivity | apply ext_refl].
  - intros a b c [E1 X1] [E2 X2].
    split; [congruence | eapply ext_trans; eassumption].
Qed.

#[export] Instance dispatch_frame_Frame ok : Frame (dispatch_frame ok).
Proof.
  split.
  - intro s. split; [reflexivity | apply ext_refl].
  - intros a b c [E1 X1] [E2 X2].
    split; [congruence | eapply ext_trans; eassumption].
Qed.

#[export] Instance emit_frame_Frame ok : Frame (emit_frame ok).
Proof.
  split.
  - intro s. split; [reflexivity | apply ext_refl].
  - intros a b c [E1 X1] [E2 X2].
    split; [congruence | eapply ext_trans; eassumption].
Qed.

Lemma dispatch_end_frame ok ok' s s' :
  (forall e, ok e -> ok' e) ->
  dispatch_frame ok s s' -> end_frame ok' s s'.
Proof.
  intros H [E X]. split; [|eapply ext_weaken; eassumption].
  unfold dispatch_core in E. unfold end_core. congruence.
Qed.

Lemma end_emit_frame ok ok' s s' :
  (forall e, ok e -> ok' e) ->
  end_frame ok s s' -> emit_frame ok' s s'.
Proof.
  intros H [E X]. split; [|eapply ext_weaken; eassumption].
  unfold end_core in E. unfold emit_core. congruence.
Qed.

Lemma dispatch_frame_weaken ok ok' s s' :
  (forall e, ok e -> ok' e) ->
  dispatch_frame ok s s' -> dispatch_frame ok' s s'.
Proof. intros H [E X]. split; [exact E | eapply ext_weaken; eassumption]. Qed.

(** Breaking a method into its steps. *)
Ltac safe_step :=
  match goal with
  | |- safe _ (bind _ _) => apply safe_bind; [| intros]
  | |- safe _ (ret _) => apply safe_ret
  | |- safe _ (gets _) => apply safe_gets
  | |- safe _ (when _ _) => apply safe_when
  | |- safe _ (for_each _ _) => apply safe_for_each; intros
  | |- safe _ (if ?b then _ else _) => destruct b
  | |- safe _ (match ?x with _ => _ end) => destruct x
  | |- safe _ (let (_, _) := ?x in _) => destruct x
  end.

Ltac frame_step :=
  intros; simpl;
  first [ reflexivity
        | apply ext_refl
        | apply ext_same; reflexivity
        | eapply ext_one; [reflexivity | solve [exact I | reflexivity | auto]] ].

Ltac safe_modify :=
  match goal with
  | |- safe _ (modify _) =>
      apply safe_modify; intros; split; frame_step
  | |- safe _ (log _) =>
      apply safe_modify; intros; split; frame_step
  | |- safe _ (defer _) =>
      apply safe_modify; intros; split; frame_step
  end.

Ltac safe_auto := repeat first [safe_step | safe_modify].

(** The field equations of a frame hypothesis. *)
Ltac fields F :=
  unfold dispatch_core, end_core, emit_core in F; simpl in F;
  injection F; clear F; intros.

(** The entries a dispatch of [ev] with [args] adds to the trace. *)
Definition dispatched (ev : event) (args : list value) (e : effect) : Prop :=
  e = Dispatch ev args
  \/ (exists h, e = Called h ev args)
  \/ (exists d, e = DestEmitError d (hd VUndefined args)).

Definition not_Emit (e : effect) : Prop :=
  match e with Emit _ _ => False | _ => True end.

Definition any_effect (e : effect) : Prop := True.

Lemma dispatched_not_Emit ev args e : dispatched ev args e -> not_Emit e.
Proof. intros [-> | [[h ->] | [d ->]]]; exact I. Qed.

Section Frames.

Context {codec : Codec}.

Lemma safe_off_with ok (remove : M unit) (ev : event) :
  safe (dispatch_frame ok) remove ->
  safe (dispatch_frame ok) (off_with remove ev).
Proof. intro H. unfold off_with. safe_auto. exact H. Qed.

Lemma safe_off ok ev fn : safe (dispatch_frame ok) (off ev fn).
Proof. apply safe_off_with. unfold super_off. safe_auto. Qed.

Lemma safe_call ev args fn :
  safe (dispatch_frame (dispatched ev args)) (call fn ev args).
Proof.
  unfold call. destruct fn; apply safe_modify; intros; split;
    try reflexivity; (eapply ext_one; [reflexivity|]).
  - right. left. eexists. reflexivity.
  - right. right. eexists. reflexivity.
Qed.

Lemma safe_invoke ev l args :
  safe (dispatch_frame (dispatched ev args)) (invoke ev l args).
Proof.
  unfold invoke. safe_auto; try apply safe_call.
  apply safe_off_with. unfold super_off_wrapper. safe_auto.
Qed.

Lemma safe_super_emit ev args :
  safe (dispatch_frame (dispatched ev args)) (super_emit ev args).
Proof.
  unfold super_emit. safe_auto; try apply safe_invoke.
  apply safe_modify. intros. split; [reflexivity|].
  eapply ext_one; [reflexivity | left; reflexivity].
Qed.

Lemma safe_removeAllListeners ok ev :
  safe (dispatch_frame ok) (removeAllListeners ev).
Proof. unfold removeAllListeners. safe_auto. Qed.

Lemma safe_Pipe_end p :
  safe (dispatch_frame not_Emit) (Pipe_end p).
Proof.
  unfold Pipe_end, Pipe_unpipe, removeListener.
  safe_auto; apply safe_off.
Qed.

Lemma safe_super_emit_quiet ev args :
  safe (dispatch_frame not_Emit) (super_emit ev args).
Proof.
  eapply safe_weaken; [|apply safe_super_emit].
  intros s s'. apply dispatch_frame_weaken, dispatched_not_Emit.
Qed.

Lemma safe_EMITEND2 : safe (end_frame not_Emit) EMITEND2.
Proof.
  assert (D : forall A (m : M A), safe (dispatch_frame not_Emit) m ->
                                  safe (end_frame not_Emit) m).
  { intros A m. apply safe_weaken. intros s s'.
    apply dispatch_end_frame. auto. }
  unfold EMITEND2. safe_auto;
    try (apply D; first [apply safe_super_emit_quiet
                        | apply safe_removeAllListeners
                        | apply safe_Pipe_end]).
Qed.

End Frames.

(** ** The history of emissions *)

(** The events of the [this.emit] calls recorded in a trace, in order. *)
Fixpoint emissions (tr : list effect) : list event :=
  match tr with
  | [] => []
  | Emit ev _ :: r => ev :: emissions r
  | _ :: r => emissions r
  end.

Lemma emissions_app a b : emissions (a ++ b) = emissions a ++ emissions b.
Proof.
  induction a as [|e a IH]; simpl; [reflexivity|].
  destruct e; simpl; rewrite ?IH; reflexivity.
Qed.

Lemma emissions_not_Emit l : Forall not_Emit l -> emissions l = [].
Proof.
  induction 1 as [|e l He _ IH]; simpl; [reflexivity|].
  destruct e; simpl in *; try exact IH. contradiction.
Qed.

Lemma ext_emissions s s' :
  ext not_Emit s s' -> emissions (trace s') = emissions (trace s).
Proof.
  intros (l & E & F). rewrite E, emissions_app, (emissions_not_Emit l F).
  apply app_nil_r.
Qed.

Section Endish.

Context {codec : Codec}.

(** The four events of the closing sequence never reach the nested
    [this[MAYBE_EMIT_END]()] of [emit]. *)
Lemma emit_with_endish (m1 m2 : M unit) (ev : event) (args : list value) :
  is_ev ev "end" || is_ev ev "prefinish" || is_ev ev "finish"
  || is_ev ev "close" = true ->
  emit_with m1 ev args = emit_with m2 ev args.
Proof.
  intro H. unfold emit_with.
  destruct ev as [name| |]; try discriminate H.
  unfold is_ev, event_eqb in *.
  destruct (String.eqb name "data") eqn:Ed.
  { apply String.eqb_eq in Ed. subst name. discriminate H. }
  destruct (String.eqb name "end") eqn:Eend; [reflexivity|].
  destruct (String.eqb name "close") eqn:Eclose; [reflexivity|].
  destruct (String.eqb name "error") eqn:Eerr.
  { apply String.eqb_eq in Eerr. subst name. discriminate H. }
  destruct (String.eqb name "resume") eqn:Eres.
  { apply String.eqb_eq in Eres. subst name. discriminate H. }
  destruct (String.eqb name "finish") eqn:Efin; [reflexivity|].
  destruct (String.eqb name "prefinish") eqn:Epre; [reflexivity|].
  simpl in H. discriminate H.
Qed.

(** While [EMITTING_END] is set, or whenever its guard fails, the check
    does nothing. *)
Lemma MAYBE_EMIT_END_idle (s : state) :
  end_guard s = false -> MAYBE_EMIT_END s = Ret tt s.
Proof. intro H. unfold MAYBE_EMIT_END, bind, gets. rewrite H. reflexivity. Qed.

Lemma MAYBE_EMIT_END_reentrant (s : state) :
  EMITTING_END s = true -> MAYBE_EMIT_END s = Ret tt s.
Proof.
  intro H. apply MAYBE_EMIT_END_idle. unfold end_guard. rewrite H. reflexivity.
Qed.

Lemma emit_end_fresh (m : M unit) (args : list value) (s : state) :
  DESTROYED s = false -> EMITTED_END s = false ->
  exists r s',
    emit_with m (Ev "end") args s = Ret r s'
    /\ DESTROYED s' = false
    /\ EMITTING_END s' = EMITTING_END s
    /\ CLOSED s' = CLOSED s
    /\ EMITTED_END s' = true
    /\ emissions (trace s') = emissions (trace s) ++ [Ev "end"].
Proof.
  intros Hd He. unfold emit_with, bind, gets. rewrite Hd. simpl.
  unfold EMITEND, bind, gets. simpl. rewrite He. simpl.
  destruct (ASYNC s) eqn:Ha.
  - eexists _, _. split; [reflexivity|]. simpl.
    rewrite emissions_app. auto.
  - match goal with |- context [EMITEND2 ?s0] =>
      destruct (safe_EMITEND2 s0) as (r & s' & E & F & X) end.
    rewrite E. exists r, s'. split; [reflexivity|].
    fields F.
    apply ext_emissions in X. simpl in X. rewrite emissions_app in X.
    repeat split; first [congruence | exact X].
Qed.

Lemma emit_finish_spec (m : M unit) (ev : event) (args : list value)
    (s : state) :
  ev = Ev "prefinish" \/ ev = Ev "finish" ->
  DESTROYED s = false ->
  exists r s',
    emit_with m ev args s = Ret r s'
    /\ DESTROYED s' = false
    /\ EMITTING_END s' = EMITTING_END s
    /\ CLOSED s' = CLOSED s
    /\ EMITTED_END s' = EMITTED_END s
    /\ emissions (trace s') = emissions (trace s) ++ [ev].
Proof.
  intros Hev Hd.
  assert (S : safe (dispatch_frame not_Emit)
                (r <- super_emit ev [] ;;
                 removeAllListeners (Some ev) ;; ret r)).
  { safe_auto; [apply safe_super_emit_quiet | apply safe_removeAllListeners]. }
  unfold emit_with, bind at 1, gets. rewrite Hd.
  destruct Hev; subst ev; simpl;
    unfold bind at 1; simpl;
    match goal with |- context [bind _ _ ?s0] =>
      destruct (S s0) as (r & s' & E & F & X) end;
    rewrite E; exists r, s'; (split; [reflexivity|]);
    fields F;
    apply ext_emissions in X; simpl in X; rewrite emissions_app in X;
    repeat split; first [congruence | exact X].
Qed.

Lemma emit_close_spec (m : M unit) (args : list value) (s : state) :
  DESTROYED s = false ->
  exists r s',
    emit_with m (Ev "close") args s = Ret r s'
    /\ DESTROYED s' = false
    /\ EMITTING_END s' = EMITTING_END s
    /\ EMITTED_END s' = EMITTED_END s
    /\ emissions (trace s') = emissions (trace s) ++ [Ev "close"].
Proof.
  intro Hd.
  assert (S : safe (dispatch_frame not_Emit)
                (r <- super_emit (Ev "close") [] ;;
                 removeAllListeners (Some (Ev "close")) ;; ret r)).
  { safe_auto; [apply safe_super_emit_quiet | apply safe_removeAllListeners]. }
  unfold emit_with, bind at 1, gets. rewrite Hd. simpl.
  unfold bind at 1. simpl. unfold bind at 1. simpl.
  unfold bind at 1. simpl. unfold bind at 1. simpl. rewrite Hd.
  destruct (EMITTED_END s) eqn:He; simpl.
  - match goal with |- context [bind _ _ ?s0] =>
      destruct (S s0) as (r & s' & E & F & X) end.
    rewrite E. exists r, s'. split; [reflexivity|].
    fields F.
    apply ext_emissions in X. simpl in X. rewrite emissions_app in X.
    repeat split; first [congruence | exact X].
  - eexists _, _. split; [reflexivity|]. simpl.
    rewrite emissions_app. auto.
Qed.

End Endish.

(** * The closing sequence *)

(** The endish check fires when it emits something. *)
Definition fires {codec : Codec} (s : state) : Prop :=
  emissions (trace (final (MAYBE_EMIT_END s))) <> emissions (trace s).

Section ClosingSequence.

Context {codec : Codec}.

Lemma end_guard_true (s : state) :
  end_guard s = true <->
  EMITTING_END s = false /\ EMITTED_END s = false /\ DESTROYED s = false
  /\ BUFFER s = [] /\ EOF s = true.
Proof.
  unfold end_guard. rewrite !andb_true_iff, !negb_true_iff, Nat.eqb_eq.
  rewrite length_zero_iff_nil. tauto.
Qed.

Lemma MAYBE_EMIT_END_fired (s : state) :
  end_guard s = true ->
  exists s',
    MAYBE_EMIT_END s = Ret tt s'
    /\ EMITTED_END s' = true
    /\ emissions (trace s') =
       emissions (trace s) ++ [Ev "end"; Ev "prefinish"; Ev "finish"]
       ++ (if CLOSED s then [Ev "close"] else []).
Proof.
  intro G. pose proof G as G'. apply end_guard_true in G'.
  destruct G' as (Hing & Hed & Hd & Hb & Heof).
  unfold MAYBE_EMIT_END, bind at 1, gets. rewrite G. simpl.
  unfold bind at 1. simpl.
  destruct (emit_end_fresh (ret tt) [] (set_EMITTING_END true s))
    as (r1 & s1 & E1 & D1 & I1 & C1 & Z1 & T1); [exact Hd | exact Hed |].
  unfold bind at 1. rewrite E1.
  destruct (emit_finish_spec (ret tt) (Ev "prefinish") [] s1)
    as (r2 & s2 & E2 & D2 & I2 & C2 & Z2 & T2); [auto | exact D1 |].
  unfold bind at 1. rewrite E2.
  destruct (emit_finish_spec (ret tt) (Ev "finish") [] s2)
    as (r3 & s3 & E3 & D3 & I3 & C3 & Z3 & T3); [auto | exact D2 |].
  unfold bind at 1. rewrite E3.
  unfold bind at 1, gets.
  assert (HC : CLOSED s3 = CLOSED s) by (simpl in C1; congruence).
  assert (HT : emissions (trace s3) =
               emissions (trace s) ++ [Ev "end"; Ev "prefinish"; Ev "finish"]).
  { rewrite T3, T2, T1. simpl. rewrite <- !app_assoc. reflexivity. }
  rewrite HC. destruct (CLOSED s) eqn:Hc; simpl.
  - destruct (emit_close_spec (ret tt) [] s3)
      as (r4 & s4 & E4 & D4 & I4 & Z4 & T4); [exact D3 |].
    unfold bind at 1. unfold bind at 1. rewrite E4. simpl.
    eexists. split; [reflexivity|]. simpl. split; [congruence|].
    rewrite T4, HT, <- !app_assoc. reflexivity.
  - unfold bind at 1. simpl.
    eexists. split; [reflexivity|]. simpl. split; [congruence|].
    rewrite HT. reflexivity.
Qed.


End ClosingSequence.

(** * What emission leaves alone *)

Section EmitFrame.

Context {codec : Codec}.

Lemma safe_dispatch_emit {A : Type} ok (m : M A) :
  safe (dispatch_frame ok) m -> safe (emit_frame any_effect) m.
Proof.
  apply safe_weaken. intros s s' H.
  eapply (end_emit_frame ok); [intros; exact I|].
  eapply dispatch_end_frame; [|exact H]. auto.
Qed.

Lemma safe_end_emit {A : Type} ok (m : M A) :
  safe (end_frame ok) m -> safe (emit_frame any_effect) m.
Proof.
  apply safe_weaken. intros s s' H.
  eapply (end_emit_frame ok); [intros; exact I | exact H].
Qed.

Lemma safe_pause : safe (emit_frame any_effect) pause.
Proof. unfold pause. safe_auto. Qed.

Lemma safe_EMITEND : safe (emit_frame any_effect) EMITEND.
Proof.
  unfold EMITEND. safe_auto. eapply safe_end_emit, safe_EMITEND2.
Qed.

Lemma safe_EMITDATA_with (m : M unit) (data : value) :
  safe (emit_frame any_effect) m ->
  safe (emit_frame any_effect) (EMITDATA_with m data).
Proof.
  intro H. unfold EMITDATA_with. safe_auto;
    first [exact H | apply safe_pause
          | eapply safe_dispatch_emit, safe_super_emit].
Qed.

Lemma safe_emit_with (m : M unit) (ev : event) (args : list value) :
  safe (emit_frame any_effect) m ->
  safe (emit_frame any_effect) (emit_with m ev args).
Proof.
  intro H. unfold emit_with. safe_auto;
    first [ exact H
          | apply safe_EMITEND
          | apply safe_EMITDATA_with; exact H
          | eapply safe_dispatch_emit, safe_super_emit
          | eapply safe_dispatch_emit, (safe_removeAllListeners any_effect) ].
Qed.

Lemma safe_MAYBE_EMIT_END : safe (emit_frame any_effect) MAYBE_EMIT_END.
Proof.
  unfold MAYBE_EMIT_END. safe_auto; apply safe_emit_with, safe_ret.
Qed.

Lemma safe_emit (ev : event) (args : list value) :
  safe (emit_frame any_effect) (emit ev args).
Proof. apply safe_emit_with, safe_MAYBE_EMIT_END. Qed.

Lemma safe_EMITDATA (data : value) :
  safe (emit_frame any_effect) (EMITDATA data).
Proof. apply safe_EMITDATA_with, safe_MAYBE_EMIT_END. Qed.

End EmitFrame.

(** * Methods that may throw

    [keeps R m]: the state [m] ends in, whether it returns or throws, is
    related to the initial one by [R].  [preserves I m]: [m] maintains the
    invariant [I], whether it returns or throws. *)

Definition keeps {A : Type} (R : state -> state -> Prop) (m : M A) : Prop :=
  forall s, R s (final (m s)).

Definition preserves {A : Type} (I : state -> Prop) (m : M A) : Prop :=
  forall s, I s -> I (final (m s)).

(** A projection of the state that a method leaves as it was. *)
Definition same {B : Type} (f : state -> B) (s s' : state) : Prop :=
  f s' = f s.

#[export] Instance same_Frame {B : Type} (f : state -> B) : Frame (same f).
Proof. split; unfold same; intros; congruence. Qed.

Section Keeps.

Context {R : state -> state -> Prop} {FR : Frame R}.

Lemma keeps_safe {A : Type} (m : M A) : safe R m -> keeps R m.
Proof. intros H s. destruct (H s) as (a & s' & E & HR). rewrite E. exact HR. Qed.

Lemma keeps_ret {A : Type} (a : A) : keeps R (ret a).
Proof. intro s. apply frame_refl. Qed.

Lemma keeps_throw {A : Type} (e : value) : keeps R (@throw A e).
Proof. intro s. apply frame_refl. Qed.

Lemma keeps_gets {A : Type} (f : state -> A) : keeps R (gets f).
Proof. intro s. apply frame_refl. Qed.

Lemma keeps_modify (f : state -> state) :
  (forall s, R s (f s)) -> keeps R (modify f).
Proof. intros H s. apply H. Qed.

Lemma keeps_bind {A B : Type} (m : M A) (k : A -> M B) :
  keeps R m -> (forall a, keeps R (k a)) -> keeps R (bind m k).
Proof.
  intros Hm Hk s. unfold bind. specialize (Hm s).
  destruct (m s) as [a s1 | e s1]; simpl in *; [|exact Hm].
  eapply frame_trans; [exact Hm | apply Hk].
Qed.

Lemma keeps_when (b : bool) (m : M unit) : keeps R m -> keeps R (when b m).
Proof. intro H. destruct b; simpl; [exact H | apply keeps_ret]. Qed.

Lemma keeps_for_each {A : Type} (l : list A) (body : A -> M unit) :
  (forall x, keeps R (body x)) -> keeps R (for_each l body).
Proof.
  intro H. induction l as [|x r IH]; simpl.
  - apply keeps_ret.
  - apply keeps_bind; [apply H | intros _; exact IH].
Qed.

End Keeps.

Lemma keeps_weaken {A : Type} (R R' : state -> state -> Prop) (m : M A) :
  (forall s s', R s s' -> R' s s') -> keeps R m -> keeps R' m.
Proof. intros H Hm s. apply H, Hm. Qed.

Section Preserves.

Variable I : state -> Prop.

Lemma preserves_keeps {A : Type} (R : state -> state -> Prop) (m : M A) :
  (forall s s', R s s' -> I s -> I s') -> keeps R m -> preserves I m.
Proof. intros H Hm s Hs. exact (H _ _ (Hm s) Hs). Qed.

Lemma preserves_ret {A : Type} (a : A) : preserves I (ret a).
Proof. intros s H. exact H. Qed.

Lemma preserves_throw {A : Type} (e : value) : preserves I (@throw A e).
Proof. intros s H. exact H. Qed.

Lemma preserves_gets {A : Type} (f : state -> A) : preserves I (gets f).
Proof. intros s H. exact H. Qed.

Lemma preserves_modify (f : state -> state) :
  (forall s, I s -> I (f s)) -> preserves I (modify f).
Proof. intros H s. apply H. Qed.

Lemma preserves_bind {A B : Type} (m : M A) (k : A -> M B) :
  preserves I m -> (forall a, preserves I (k a)) -> preserves I (bind m k).
Proof.
  intros Hm Hk s Hs. unfold bind. specialize (Hm s Hs).
  destruct (m s) as [a s1 | e s1]; simpl in *; [|exact Hm].
  apply Hk, Hm.
Qed.

Lemma preserves_when (b : bool) (m : M unit) :
  preserves I m -> preserves I (when b m).
Proof. intro H. destruct b; simpl; [exact H | apply preserves_ret]. Qed.

Lemma preserves_for_each {A : Type} (l : list A) (body : A -> M unit) :
  (forall x, preserves I (body x)) -> preserves I (for_each l body).
Proof.
  intro H. induction l as [|x r IH]; simpl.
  - apply preserves_ret.
  - apply preserves_bind; [apply H | intros _; exact IH].
Qed.

End Preserves.

Ltac keeps_step :=
  match goal with
  | |- keeps _ (bind _ _) => apply keeps_bind; [| intros]
  | |- keeps _ (ret _) => apply keeps_ret
  | |- keeps _ (throw _) => apply keeps_throw
  | |- keeps _ (gets _) => apply keeps_gets
  | |- keeps _ (when _ _) => apply keeps_when
  | |- keeps _ (for_each _ _) => apply keeps_for_each; intros
  | |- keeps _ (modify _) => apply keeps_modify; intros; reflexivity
  | |- keeps _ (log _) => apply keeps_modify; intros; reflexivity
  | |- keeps _ (defer _) => apply keeps_modify; intros; reflexivity
  | |- keeps _ (if ?b then _ else _) => destruct b
  | |- keeps _ (match ?x with _ => _ end) => destruct x
  | |- keeps _ (let (_, _) := ?x in _) => destruct x
  end.

Ltac keeps_auto := repeat keeps_step.

Ltac preserves_step :=
  match goal with
  | |- preserves _ (bind _ _) => apply preserves_bind; [| intros]
  | |- preserves _ (ret _) => apply preserves_ret
  | |- preserves _ (throw _) => apply preserves_throw
  | |- preserves _ (gets _) => apply preserves_gets
  | |- preserves _ (when _ _) => apply preserves_when
  | |- preserves _ (for_each _ _) => apply preserves_for_each; intros
  | |- preserves _ (modify _) =>
      apply preserves_modify; let H := fresh in intros ? H; exact H
  | |- preserves _ (log _) =>
      apply preserves_modify; let H := fresh in intros ? H; exact H
  | |- preserves _ (defer _) =>
      apply preserves_modify; let H := fresh in intros ? H; exact H
  | |- preserves _ (if ?b then _ else _) => destruct b
  | |- preserves _ (match ?x with _ => _ end) => destruct x
  | |- preserves _ (let (_, _) := ?x in _) => destruct x
  end.

Ltac preserves_auto := repeat preserves_step.

(** * What no method but the setters changes *)

(** The configuration and the pipe list. *)
Definition static_part (s : state) :=
  (OBJECTMODE s, ENCODING s, ASYNC s, has_close s, PIPES s).

Section Static.

Context {codec : Codec}.

Lemma emit_frame_static ok s s' :
  emit_frame ok s s' -> same static_part s s'.
Proof.
  intros [F _]. fields F. unfold same, static_part. congruence.
Qed.

Lemma keeps_static_safe {A : Type} (m : M A) :
  safe (emit_frame any_effect) m -> keeps (same static_part) m.
Proof.
  intro H. eapply keeps_weaken; [|apply keeps_safe; exact H].
  intros s s'. apply emit_frame_static.
Qed.

Lemma keeps_static_emit ev args : keeps (same static_part) (emit ev args).
Proof. apply keeps_static_safe, safe_emit. Qed.

Lemma keeps_static_MAYBE_EMIT_END : keeps (same static_part) MAYBE_EMIT_END.
Proof. apply keeps_static_safe, safe_MAYBE_EMIT_END. Qed.

Lemma keeps_static_BUFFERPUSH chunk : keeps (same static_part) (BUFFERPUSH chunk).
Proof. unfold BUFFERPUSH. keeps_auto. Qed.

Lemma keeps_static_BUFFERSHIFT : keeps (same static_part) BUFFERSHIFT.
Proof. unfold BUFFERSHIFT. keeps_auto. Qed.

Lemma keeps_static_FLUSH_loop fuel : keeps (same static_part) (FLUSH_loop fuel).
Proof.
  induction fuel as [|fuel IH]; simpl; unfold FLUSHCHUNK; keeps_auto;
    first [apply keeps_static_BUFFERSHIFT | apply keeps_static_emit | exact IH].
Qed.

Lemma keeps_static_FLUSH noDrain : keeps (same static_part) (FLUSH noDrain).
Proof.
  unfold FLUSH. keeps_auto;
    first [apply keeps_static_FLUSH_loop | apply keeps_static_emit].
Qed.

Lemma keeps_static_RESUME : keeps (same static_part) RESUME.
Proof.
  unfold RESUME. keeps_auto;
    first [apply keeps_static_FLUSH | apply keeps_static_emit
          | apply keeps_static_MAYBE_EMIT_END].
Qed.

Lemma keeps_static_run_cb async cb : keeps (same static_part) (run_cb async cb).
Proof. unfold run_cb. keeps_auto. Qed.

Lemma keeps_static_write chunk encoding cb :
  keeps (same static_part) (write chunk encoding cb).
Proof.
  unfold write. keeps_auto;
    first [apply keeps_static_FLUSH | apply keeps_static_emit
          | apply keeps_static_BUFFERPUSH | apply keeps_static_run_cb].
Qed.

Lemma keeps_static_READ n chunk : keeps (same static_part) (READ n chunk).
Proof.
  unfold READ. keeps_auto;
    first [apply keeps_static_BUFFERSHIFT | apply keeps_static_emit].
Qed.

Lemma keeps_static_read n : keeps (same static_part) (read n).
Proof.
  unfold read. keeps_auto;
    first [apply keeps_static_READ | apply keeps_static_MAYBE_EMIT_END].
Qed.

Lemma keeps_static_dispatch {A : Type} ok (m : M A) :
  safe (dispatch_frame ok) m -> keeps (same static_part) m.
Proof. intro H. eapply keeps_static_safe, safe_dispatch_emit, H. Qed.

Lemma keeps_static_on_listener ev l : keeps (same static_part) (on_listener ev l).
Proof.
  unfold on_listener, super_on. keeps_auto;
    first [ apply keeps_static_RESUME
          | eapply keeps_static_dispatch, safe_super_emit
          | eapply keeps_static_dispatch, (safe_removeAllListeners any_effect)
          | eapply keeps_static_dispatch, safe_invoke ].
Qed.

Lemma keeps_static_end chunk encoding cb :
  keeps (same static_part) (end_ chunk encoding cb).
Proof.
  unfold end_, once. keeps_auto;
    first [ apply keeps_static_write | apply keeps_static_on_listener
          | apply keeps_static_MAYBE_EMIT_END ].
Qed.

Lemma keeps_static_pause : keeps (same static_part) pause.
Proof. apply keeps_static_safe, safe_pause. Qed.

Lemma keeps_static_destroy er : keeps (same static_part) (destroy er).
Proof. unfold destroy. keeps_auto; apply keeps_static_emit. Qed.

Lemma keeps_static_ABORT : keeps (same static_part) ABORT.
Proof.
  unfold ABORT. keeps_auto;
    first [apply keeps_static_emit | apply keeps_static_destroy].
Qed.

End Static.

(** Running the first steps of a method on a state. *)
Lemma bind_assoc {A B C : Type} (m : M A) (k : A -> M B) (k' : B -> M C)
    (s : state) :
  bind (bind m k) k' s = bind m (fun a => bind (k a) k') s.
Proof. unfold bind. destruct (m s); reflexivity. Qed.

Lemma bind_modify {B : Type} (f : state -> state) (k : unit -> M B)
    (s : state) :
  bind (modify f) k s = k tt (f s).
Proof. reflexivity. Qed.

Lemma bind_gets {A B : Type} (f : state -> A) (k : A -> M B) (s : state) :
  bind (gets f) k s = k (f s) s.
Proof. reflexivity. Qed.

Lemma bind_ret {A B : Type} (a : A) (k : A -> M B) (s : state) :
  bind (ret a) k s = k a s.
Proof. reflexivity. Qed.

Lemma bind_throw {A B : Type} (e : value) (k : A -> M B) (s : state) :
  bind (throw e) k s = Throw e s.
Proof. reflexivity. Qed.

Lemma bind_Ret {A B : Type} (m : M A) (k : A -> M B) (s s1 : state) (a : A) :
  m s = Ret a s1 -> bind m k s = k a s1.
Proof. intro H. unfold bind. rewrite H. reflexivity. Qed.

Ltac run_fields :=
  cbn [ret gets modify throw when final result
       set_FLOWING set_PAUSED set_PIPES set_BUFFER set_OBJECTMODE
       set_ENCODING set_ASYNC set_DECODER set_EOF set_EMITTED_END
       set_EMITTING_END set_CLOSED set_EMITTED_ERROR set_BUFFERLENGTH
       set_DESTROYED set_SIGNAL set_ABORTED set_DATALISTENERS set_DISCARDED
       set_writable set_readable set_registry set_has_close set_microtasks
       set_trace
       FLOWING PAUSED PIPES BUFFER OBJECTMODE ENCODING ASYNC DECODER EOF
       EMITTED_END EMITTING_END CLOSED EMITTED_ERROR BUFFERLENGTH DESTROYED
       SIGNAL ABORTED DATALISTENERS DISCARDED writable readable registry
       has_close microtasks trace].

Ltac run_binds :=
  repeat (first [ rewrite bind_assoc | rewrite bind_modify
                | rewrite bind_gets | rewrite bind_ret
                | rewrite bind_throw ];
          cbv beta).

Ltac run :=
  unfold log, defer;
  repeat (progress (run_binds; run_fields)).

Lemma final_bind {A B : Type} (m : M A) (k : A -> M B) (s : state) :
  final (bind m k s)
  = match m s with Ret a s1 => final (k a s1) | Throw _ s1 => s1 end.
Proof. unfold bind. destruct (m s); reflexivity. Qed.

(** * The async setter *)

Section Async.

Context {codec : Codec}.

Lemma constructor_ASYNC (o : Options) (s : state) :
  new o = Ret tt s -> ASYNC s = truthy (o_async o).
Proof.
  unfold new, constructor. intro H.
  destruct (o_objectMode o && _) eqn:Hc; [discriminate H|].
  assert (E : s = final (constructor o blank)).
  { unfold constructor. rewrite Hc, H. reflexivity. }
  clear H. subst s. unfold constructor. rewrite Hc.
  destruct (o_objectMode o); [|destruct (isEncodingOptions o)];
    run; (destruct (o_signal o) as [sg|]; run; [|reflexivity]);
    (destruct (aborted sg); run; [|reflexivity]);
    match goal with |- context [ABORT ?s0] =>
      pose proof (keeps_static_ABORT s0) as K end;
    unfold same, static_part in K; simpl in K; congruence.
Qed.

Lemma set_async_fold (vs : list value) (s : state) :
  exists s',
    for_each vs set_async s = Ret tt s'
    /\ ASYNC s' = ASYNC s || existsb truthy vs.
Proof.
  revert s. induction vs as [|v vs IH]; intro s; simpl.
  - exists s. split; [reflexivity | symmetry; apply orb_false_r].
  - unfold set_async at 1. run.
    destruct (IH (set_ASYNC (ASYNC s || truthy v) s)) as (s' & E & H).
    exists s'. split; [exact E|]. rewrite H. simpl. symmetry. apply orb_assoc.
Qed.

(** C10. The async flag is monotone under assignment: after any sequence
    of assignments to the [async] setter it is true exactly when the
    stream was constructed with a truthy [async] option or some
    assignment was truthy; an assignment never clears a set flag. *)
Theorem async_setter_monotone (o : Options) (vs : list value) (s0 : state) :
  new o = Ret tt s0 ->
  exists s,
    for_each vs set_async s0 = Ret tt s
    /\ (ASYNC s = true <->
        truthy (o_async o) = true \/ exists v, In v vs /\ truthy v = true)
    /\ (forall (t : state) (a : value),
          ASYNC t = true -> ASYNC (final (set_async a t)) = true).
Proof.
  intro H0. destruct (set_async_fold vs s0) as (s & E & H).
  exists s. split; [exact E|]. split.
  - rewrite H, (constructor_ASYNC o s0 H0), orb_true_iff, existsb_exists.
    reflexivity.
  - intros t a Ht. unfold set_async. run. rewrite Ht. reflexivity.
Qed.

End Async.

Lemma async_setter_monotone_witness :
  exists s,
    for_each [VBool true; VBool false] set_async
      (final (new (codec := latin1) (mkOptions VUndefined None None false)))
    = Ret tt s
    /\ ASYNC s = true.
Proof.
  destruct (async_setter_monotone (codec := latin1)
              (mkOptions VUndefined None None false)
              [VBool true; VBool false] _ eq_refl)
    as (s & E & H & _).
  exists s. split; [exact E|].
  apply H. right. exists (VBool true). split; [left; reflexivity | reflexivity].
Defined.

(** * Pipes and the end option *)

Section PipeEnd.

Context {codec : Codec}.

Lemma safe_on_error (fn : callback) :
  safe (emit_frame any_effect) (on (Ev "error") fn).
Proof.
  unfold on, on_listener, super_on. simpl. safe_auto.
  eapply safe_dispatch_emit, safe_invoke.
Qed.

(** C7. On a stream that is not destroyed, [pipe(dest, opts)] forces the
    end option to false for the process stdout and stderr and otherwise
    makes it true unless [opts.end === false]; when 'end' has already been
    emitted it adds no pipe record and calls [dest.end()] at once exactly
    when the effective end option is true, and otherwise the record it
    adds carries that option. *)
Theorem pipe_end_option (d : Writable) (opts : option PipeOptions)
    (s : state) :
  DESTROYED s = false ->
  let o := match opts with Some o => o | None => no_options end in
  let e := effective_end d o in
  (is_std (wid d) = true -> e = false)
  /\ (is_std (wid d) = false -> (e = false <-> opt_end o = VBool false))
  /\ (EMITTED_END s = true ->
      exists s',
        pipe d opts s = Ret d s'
        /\ PIPES s' = PIPES s
        /\ trace s' = trace s ++ (if e then [DestEnd (wid d)] else []))
  /\ (EMITTED_END s = false ->
      PIPES (final (pipe d opts s))
      = PIPES s ++ [mkPipe d e (truthy (opt_proxyErrors o))]).
Proof.
  intros Hd o e. repeat split.
  - intro H. unfold e, effective_end. rewrite H. reflexivity.
  - unfold e, effective_end. rewrite H. unfold is_false.
    destruct (opt_end o) as [| |[|]| | | | | | |]; simpl; intro; congruence.
  - unfold e, effective_end. rewrite H. intros ->. reflexivity.
  - intro He. unfold pipe. run. rewrite Hd. run. rewrite He.
    fold o. fold e. destruct e; run.
    + eexists. split; [reflexivity|]. split; reflexivity.
    + eexists. split; [reflexivity|]. split; [reflexivity|].
      simpl. symmetry. apply app_nil_r.
  - intro He. unfold pipe. run. rewrite Hd. run. rewrite He.
    fold o. fold e. rewrite !final_bind. run.
    set (s1 := set_trace _ _).
    assert (P1 : PIPES s1 = PIPES s) by reflexivity.
    assert (A1 : forall s2 : state,
              PIPES s2 = PIPES s ->
              PIPES (final
                (bind (modify (fun s => set_PIPES
                         (PIPES s ++ [mkPipe d e (truthy (opt_proxyErrors o))]) s))
                   (fun _ => bind (gets ASYNC)
                      (fun async => if async then defer TResume else RESUME))
                   s2))
              = PIPES s ++ [mkPipe d e (truthy (opt_proxyErrors o))]).
    { intros s2 P2. run. rewrite P2. destruct (ASYNC s2); run; [reflexivity|].
      match goal with |- context [RESUME ?s0] =>
        pose proof (keeps_static_RESUME s0) as K end.
      unfold same, static_part in K. simpl in K. congruence. }
    destruct (truthy (opt_proxyErrors o)) eqn:Hpe; run.
    + destruct (safe_on_error (ProxyErrors (wid d)) s1) as ([] & s2 & E & F & _).
      unfold bind at 1. rewrite E. fields F. apply (A1 s2). congruence.
    + apply (A1 s1 P1).
Qed.

End PipeEnd.

(** * Dispatch, exactly *)

(** What calling a listener adds to the trace. *)
Definition delivery (ev : event) (args : list value) (l : listener) : effect :=
  match l_fn l with
  | Handler h => Called h ev args
  | ProxyErrors d => DestEmitError d (hd VUndefined args)
  end.

(** The entries of a listener table that survive a dispatch of [ev]: all
    but the [once] wrappers of [ev]. *)
Definition survives (ev : event) (p : event * listener) : bool :=
  negb (event_eqb (fst p) ev && l_once (snd p)).

Lemma string_eqb_refl (x : string) : String.eqb x x = true.
Proof. apply String.eqb_eq. reflexivity. Qed.

Lemma event_eqb_refl (e : event) : event_eqb e e = true.
Proof. destruct e; simpl; [apply string_eqb_refl | reflexivity | reflexivity]. Qed.

Lemma event_eqb_eq (a b : event) : event_eqb a b = true <-> a = b.
Proof.
  destruct a, b; simpl; split; intro H; try discriminate; try reflexivity.
  - apply String.eqb_eq in H. congruence.
  - injection H as ->. apply string_eqb_refl.
Qed.

Lemma event_eqb_neq (a b : event) : a <> b -> event_eqb a b = false.
Proof.
  intro H. destruct (event_eqb a b) eqn:E; [|reflexivity].
  apply event_eqb_eq in E. contradiction.
Qed.

Lemma dest_id_eqb_refl (d : dest_id) : dest_id_eqb d d = true.
Proof. destruct d; simpl; [reflexivity | reflexivity | apply Nat.eqb_refl]. Qed.

Lemma callback_eqb_refl (c : callback) : callback_eqb c c = true.
Proof. destruct c; simpl; [apply Nat.eqb_refl | apply dest_id_eqb_refl]. Qed.

Lemma listener_eqb_refl (l : listener) : listener_eqb l l = true.
Proof.
  unfold listener_eqb. rewrite callback_eqb_refl. simpl.
  destruct (l_once l); reflexivity.
Qed.

Lemma listener_eqb_once (a b : listener) :
  listener_eqb a b = true -> l_once a = l_once b.
Proof.
  unfold listener_eqb. rewrite andb_true_iff. intros [_ H].
  apply Bool.eqb_prop. exact H.
Qed.

Lemma remove_first_skip {A : Type} (p : A -> bool) (pre l : list A) :
  (forall x, In x pre -> p x = false) ->
  remove_first p (pre ++ l) = pre ++ remove_first p l.
Proof.
  intro H. induction pre as [|x pre IH]; simpl; [reflexivity|].
  rewrite (H x (or_introl eq_refl)). f_equal. apply IH.
  intros y Hy. apply H. right. exact Hy.
Qed.

Section Dispatch.

Context {codec : Codec}.

Lemma call_spec (l : listener) (ev : event) (args : list value) (s : state) :
  call (l_fn l) ev args s
  = Ret tt (set_trace (trace s ++ [delivery ev args l]) s).
Proof. unfold call, delivery. destruct (l_fn l); reflexivity. Qed.

Lemma listeners_in_cons (ev : event) (p : event * listener)
    (reg : list (event * listener)) :
  listeners_in ev (p :: reg)
  = if event_eqb (fst p) ev then snd p :: listeners_in ev reg
    else listeners_in ev reg.
Proof.
  unfold listeners_in. simpl. destruct (event_eqb (fst p) ev); reflexivity.
Qed.

Lemma invoke_plain (ev : event) (l : listener) (args : list value)
    (s : state) :
  l_once l = false ->
  invoke ev l args s = Ret tt (set_trace (trace s ++ [delivery ev args l]) s).
Proof. intro H. unfold invoke. rewrite H. apply call_spec. Qed.

(** A [once] wrapper unregisters itself, then calls its function. *)
Lemma invoke_once (ev : event) (p : event * listener) (args : list value)
    (pre reg : list (event * listener)) (s : state) :
  l_once (snd p) = true ->
  event_eqb (fst p) ev = true ->
  registry s = pre ++ p :: reg ->
  (forall q, In q pre -> survives ev q = true) ->
  exists s',
    invoke ev (snd p) args s = Ret tt s'
    /\ registry s' = pre ++ reg
    /\ trace s' = trace s ++ [delivery ev args (snd p)]
    /\ dispatch_core s' = dispatch_core s.
Proof.
  intros Honce Hev Hreg Hpre.
  assert (Hthere : registered ev (snd p) s = true).
  { unfold registered. rewrite Hreg, existsb_app. simpl.
    rewrite Hev, listener_eqb_refl. simpl. apply orb_true_r. }
  assert (Hrm :
    remove_first
      (fun q => event_eqb (fst q) ev && listener_eqb (snd q) (snd p))
      (registry s) = pre ++ reg).
  { rewrite Hreg, remove_first_skip.
    - simpl. rewrite Hev, listener_eqb_refl. reflexivity.
    - intros q Hq. specialize (Hpre q Hq). unfold survives in Hpre.
      destruct (event_eqb (fst q) ev); [|reflexivity]. simpl in *.
      destruct (listener_eqb (snd q) (snd p)) eqn:Hl; [|reflexivity].
      apply listener_eqb_once in Hl. rewrite Honce in Hl.
      rewrite Hl in Hpre. discriminate Hpre. }
  unfold invoke. rewrite Honce. run. rewrite Hthere. cbn [when].
  unfold off_with, super_off_wrapper. run. rewrite Hrm.
  destruct (is_ev ev "data"); run.
  - match goal with |- context [when ?c _] => destruct c end;
    run; rewrite call_spec;
    eexists; (split; [reflexivity|]); repeat split.
  - rewrite call_spec. eexists. split; [reflexivity|]. repeat split.
Qed.

Lemma for_each_invoke (ev : event) (args : list value)
    (reg pre : list (event * listener)) (s : state) :
  registry s = pre ++ reg ->
  (forall q, In q pre -> survives ev q = true) ->
  exists s',
    for_each (listeners_in ev reg) (fun l => invoke ev l args) s = Ret tt s'
    /\ registry s' = pre ++ filter (survives ev) reg
    /\ trace s' = trace s ++ map (delivery ev args) (listeners_in ev reg)
    /\ dispatch_core s' = dispatch_core s.
Proof.
  revert pre s. induction reg as [|p reg IH]; intros pre s Hreg Hpre.
  - simpl. exists s. repeat split; [exact Hreg | symmetry; apply app_nil_r].
  - assert (Hsnoc : forall q, survives ev p = true ->
                      In q (pre ++ [p]) -> survives ev q = true).
    { intros q Hp Hq. apply in_app_or in Hq.
      destruct Hq as [Hq | [<- | []]]; [apply Hpre, Hq | exact Hp]. }
    rewrite listeners_in_cons. cbn [filter].
    destruct (event_eqb (fst p) ev) eqn:Hev;
      [destruct (l_once (snd p)) eqn:Honce|].
    + (* a once wrapper of the event *)
      assert (Hs : survives ev p = false)
        by (unfold survives; rewrite Hev, Honce; reflexivity).
      rewrite Hs. cbn [for_each map].
      destruct (invoke_once ev p args pre reg s Honce Hev Hreg Hpre)
        as (s1 & E1 & R1 & T1 & C1).
      rewrite (bind_Ret _ _ _ _ _ E1).
      destruct (IH pre s1 R1 Hpre) as (s' & E & R' & T' & C').
      exists s'. split; [exact E|]. split; [exact R'|].
      split; [|congruence].
      rewrite T', T1, <- app_assoc. reflexivity.
    + (* a plain listener of the event *)
      assert (Hs : survives ev p = true)
        by (unfold survives; rewrite Hev, Honce; reflexivity).
      rewrite Hs. cbn [for_each map].
      rewrite (bind_Ret _ _ _ _ _ (invoke_plain ev (snd p) args s Honce)).
      match goal with |- context [for_each _ _ ?s0] =>
        destruct (IH (pre ++ [p]) s0) as (s' & E & R' & T' & C') end.
      { simpl. rewrite Hreg, <- app_assoc. reflexivity. }
      { intros q. apply Hsnoc, Hs. }
      exists s'. split; [exact E|].
      split; [rewrite R', <- app_assoc; reflexivity|]. split; [|exact C'].
      rewrite T'. simpl. rewrite <- app_assoc. reflexivity.
    + (* an entry of another event *)
      assert (Hs : survives ev p = true)
        by (unfold survives; rewrite Hev; reflexivity).
      rewrite Hs.
      destruct (IH (pre ++ [p]) s) as (s' & E & R' & T' & C').
      { rewrite Hreg, <- app_assoc. reflexivity. }
      { intros q. apply Hsnoc, Hs. }
      exists s'. split; [exact E|].
      split; [rewrite R', <- app_assoc; reflexivity|]. split; assumption.
Qed.

(** [super.emit] calls every listener of the event once, in registration
    order, and leaves the table without the [once] wrappers it called. *)
Lemma super_emit_spec (ev : event) (args : list value) (s : state) :
  exists s',
    super_emit ev args s
    = Ret (negb (Nat.eqb (List.length (listeners ev s)) 0)) s'
    /\ registry s' = filter (survives ev) (registry s)
    /\ trace s'
       = trace s ++ Dispatch ev args
                    :: map (delivery ev args) (listeners ev s)
    /\ dispatch_core s' = dispatch_core s.
Proof.
  unfold super_emit. run.
  change (listeners ev (set_trace (trace s ++ [Dispatch ev args]) s))
    with (listeners_in ev (registry s)).
  destruct (for_each_invoke ev args (registry s) []
              (set_trace (trace s ++ [Dispatch ev args]) s))
    as (s' & E & R' & T' & C'); [reflexivity | intros q [] |].
  rewrite (bind_Ret _ _ _ _ _ E). exists s'.
  split; [reflexivity|]. split; [exact R'|]. split; [|exact C'].
  rewrite T'. simpl. rewrite <- app_assoc. reflexivity.
Qed.

End Dispatch.

Lemma listeners_in_app (ev : event) (a b : list (event * listener)) :
  listeners_in ev (a ++ b) = listeners_in ev a ++ listeners_in ev b.
Proof. unfold listeners_in. rewrite filter_app, map_app. reflexivity. Qed.

Lemma listeners_in_survives (ev ev' : event) (reg : list (event * listener)) :
  event_eqb ev' ev = false ->
  listeners_in ev' (filter (survives ev) reg) = listeners_in ev' reg.
Proof.
  intro H. unfold listeners_in. induction reg as [|p reg IH]; simpl; [reflexivity|].
  unfold survives at 1.
  destruct (event_eqb (fst p) ev) eqn:E1; simpl.
  - assert (E2 : event_eqb (fst p) ev' = false).
    { destruct (event_eqb (fst p) ev') eqn:E2; [|reflexivity].
      apply event_eqb_eq in E1, E2. subst. rewrite event_eqb_refl in H.
      discriminate H. }
    rewrite E2. destruct (l_once (snd p)); simpl; rewrite ?E2; exact IH.
  - destruct (event_eqb (fst p) ev'); simpl; rewrite IH; reflexivity.
Qed.

(** * Subscribing to 'readable' *)

Section Readable.

Context {codec : Codec}.

(** C9, as the code has it. When a handler is subscribed to 'readable'
    with [on] while [bufferLength] is not zero, 'readable' is dispatched at
    once, exactly once, through the base emitter: every handler subscribed
    to 'readable' at that moment is called once, in registration order, the
    registering handler last; it is the only one called when no other is
    subscribed. *)
Theorem readable_replay (h : nat) (s : state) :
  BUFFERLENGTH s <> 0%Z ->
  exists s',
    on (Ev "readable") (Handler h) s = Ret tt s'
    /\ trace s'
       = trace s ++ Dispatch (Ev "readable") []
                    :: map (delivery (Ev "readable") [])
                         (listeners (Ev "readable") s
                          ++ [mkListener (Handler h) false])
    /\ (listeners (Ev "readable") s = [] ->
        trace s'
        = trace s ++ [Dispatch (Ev "readable") [];
                      Called h (Ev "readable") []]).
Proof.
  intro Hlen. unfold on, on_listener, super_on. run.
  change (is_ev (Ev "readable") "data") with false.
  change (is_ev (Ev "readable") "readable") with true.
  apply Z.eqb_neq in Hlen. rewrite Hlen. cbn [negb andb].
  match goal with |- context [bind (super_emit ?ev ?args) _ ?s0] =>
    destruct (super_emit_spec ev args s0) as (s' & E & R' & T' & C') end.
  rewrite (bind_Ret _ _ _ _ _ E). exists s'.
  split; [reflexivity|].
  unfold listeners in T'. run_fields. cbn [registry set_registry] in T'.
  rewrite listeners_in_app in T'. split.
  - exact T'.
  - intro Hnone. rewrite T'. unfold listeners in Hnone. rewrite Hnone.
    reflexivity.
Qed.

End Readable.

(** The claim as the specification words it fails: a handler subscribed
    earlier is called again when another one subscribes. *)
Lemma readable_replay_reaches_earlier_handlers :
  let s := final ((constructor (codec := latin1)
                     (mkOptions VUndefined None None true) ;;
                   write (codec := latin1) (VNum 7) EncAbsent None ;;
                   on (codec := latin1) (Ev "readable") (Handler 1)) blank) in
  BUFFERLENGTH s = 1%Z
  /\ result (on (codec := latin1) (Ev "readable") (Handler 2) s) = Some tt
  /\ trace (final (on (codec := latin1) (Ev "readable") (Handler 2) s))
     = trace s ++ [Dispatch (Ev "readable") [];
                   Called 1 (Ev "readable") [];
                   Called 2 (Ev "readable") []].
Proof. vm_compute. repeat split. Qed.

Lemma readable_replay_witness :
  exists s',
    on (codec := latin1) (Ev "readable") (Handler 2)
      (set_BUFFERLENGTH 1 (set_BUFFER [VNum 7] (set_OBJECTMODE true blank)))
    = Ret tt s'
    /\ trace s' = [Dispatch (Ev "readable") []; Called 2 (Ev "readable") []].
Proof.
  destruct (readable_replay (codec := latin1) 2
              (set_BUFFERLENGTH 1 (set_BUFFER [VNum 7] (set_OBJECTMODE true blank))))
    as (s' & E & _ & T); [discriminate|].
  exists s'. split; [exact E | apply T; reflexivity].
Defined.

(** * Emitting an error *)

(** The events of the closing sequence, and 'data' for the text the
    decoder flushes at the end. *)
Definition closing_event (ev : event) : bool :=
  is_ev ev "end" || is_ev ev "prefinish" || is_ev ev "finish"
  || is_ev ev "close" || is_ev ev "data".

(** What the endish check may add to the trace. *)
Definition closing_effect (x : effect) : Prop :=
  match x with
  | Emit ev _ | Dispatch ev _ | Called _ ev _ => closing_event ev = true
  | DestWrite _ _ | DestEnd _ | DestOffDrain _ | DestEmitError _ _ => True
  | CbCalled _ | DestOnDrain _ | CloseHook => False
  end.

(** What the endish check leaves alone: as an emission, and the latched
    error. *)
Definition closing_core (s : state) := (emit_core s, EMITTED_ERROR s).

Definition closing_frame (s s' : state) : Prop :=
  closing_core s' = closing_core s /\ ext closing_effect s s'.

#[export] Instance closing_frame_Frame : Frame closing_frame.
Proof.
  split.
  - intro s. split; [reflexivity | apply ext_refl].
  - intros a b c [E1 X1] [E2 X2].
    split; [congruence | eapply ext_trans; eassumption].
Qed.

Lemma dispatched_closing ev args x :
  closing_event ev = true -> dispatched ev args x -> closing_effect x.
Proof. intros H [-> | [[h ->] | [d ->]]]; simpl; auto. Qed.

Lemma end_closing_frame s s' :
  end_frame closing_effect s s' -> closing_frame s s'.
Proof.
  intros [E X]. split; [|exact X].
  unfold end_core in E. unfold closing_core, emit_core. congruence.
Qed.

Definition is_dispatch_of (ev : event) (x : effect) : bool :=
  match x with
  | Dispatch ev' _ => event_eqb ev' ev
  | _ => false
  end.

Lemma filter_dispatch_delivery ev ev' args (ls : list listener) :
  filter (is_dispatch_of ev) (map (delivery ev' args) ls) = [].
Proof.
  induction ls as [|l ls IH]; simpl; [reflexivity|].
  unfold delivery at 1. destruct (l_fn l); simpl; exact IH.
Qed.

Lemma filter_dispatch_closing ev (l : list effect) :
  closing_event ev = false ->
  Forall closing_effect l -> filter (is_dispatch_of ev) l = [].
Proof.
  intros Hev. induction 1 as [|x l Hx _ IH]; simpl; [reflexivity|].
  destruct x; simpl in *; try exact IH.
  destruct (event_eqb ev0 ev) eqn:E; [|exact IH].
  apply event_eqb_eq in E. subst. congruence.
Qed.

Section EmitError.

Context {codec : Codec}.

Lemma safe_closing_dispatch {A : Type} (m : M A) :
  safe (dispatch_frame closing_effect) m -> safe closing_frame m.
Proof.
  apply safe_weaken. intros s s' H. apply end_closing_frame.
  eapply dispatch_end_frame; [|exact H]. auto.
Qed.

Lemma safe_closing_super_emit ev args :
  closing_event ev = true ->
  safe (dispatch_frame closing_effect) (super_emit ev args).
Proof.
  intro H. eapply safe_weaken; [|apply safe_super_emit].
  intros s s'. apply dispatch_frame_weaken. intro x.
  apply dispatched_closing, H.
Qed.

Lemma safe_closing_Pipe_end p :
  safe (dispatch_frame closing_effect) (Pipe_end p).
Proof.
  unfold Pipe_end, Pipe_unpipe, removeListener.
  safe_auto; apply safe_off.
Qed.

Lemma safe_closing_EMITEND2 : safe closing_frame EMITEND2.
Proof.
  unfold EMITEND2. safe_auto;
    try (apply safe_closing_dispatch;
         first [ apply safe_closing_super_emit; reflexivity
               | apply safe_removeAllListeners
               | apply safe_closing_Pipe_end ]).
Qed.

Lemma safe_closing_EMITEND : safe closing_frame EMITEND.
Proof. unfold EMITEND. safe_auto. apply safe_closing_EMITEND2. Qed.

Lemma safe_closing_MAYBE_EMIT_END : safe closing_frame MAYBE_EMIT_END.
Proof.
  unfold MAYBE_EMIT_END. safe_auto;
    unfold emit_with; simpl; safe_auto;
    first [ apply safe_closing_EMITEND
          | apply safe_closing_dispatch;
            first [ apply safe_closing_super_emit; reflexivity
                  | apply safe_removeAllListeners ] ].
Qed.

(** Whether [emit('error', _)] dispatches the public event. *)
Definition error_is_public (s : state) : bool :=
  match SIGNAL s with None => true | Some _ => false end
  || negb (Nat.eqb (List.length (listeners (Ev "error") s)) 0).

(** The steps of [emit('error', e)]: latch, dispatch on the private
    channel, dispatch the public event unless it is absorbed, run the
    endish check. *)
Lemma emit_error_spec (e : value) (s : state) :
  exists r s2 s',
    emit (Ev "error") [e] s = Ret r s'
    /\ MAYBE_EMIT_END s2 = Ret tt s'
    /\ closing_frame s2 s'
    /\ emit_core s2 = emit_core s
    /\ EMITTED_ERROR s2 = e
    /\ trace s2
       = trace s
         ++ Emit (Ev "error") [e]
            :: Dispatch Sym_ERROR [e]
            :: map (delivery Sym_ERROR [e]) (listeners Sym_ERROR s)
            ++ (if error_is_public s
                then Dispatch (Ev "error") [e]
                     :: map (delivery (Ev "error") [e])
                          (listeners (Ev "error") s)
                else []).
Proof.
  unfold emit, emit_with. run.
  change (is_ev (Ev "error") "error") with true.
  change (is_ev (Ev "error") "data") with false.
  change (is_ev (Ev "error") "end") with false.
  change (is_ev (Ev "error") "close") with false.
  cbn [negb andb hd]. run.
  match goal with |- context [bind (super_emit ?ev ?args) _ ?s0] =>
    destruct (super_emit_spec ev args s0) as (s1 & E1 & R1 & T1 & C1) end.
  rewrite (bind_Ret _ _ _ _ _ E1). run.
  unfold listeners in T1.
  cbn [registry trace set_EMITTED_ERROR set_trace] in R1, T1.
  fold (listeners Sym_ERROR s) in T1.
  assert (L1 : listeners (Ev "error") s1 = listeners (Ev "error") s).
  { unfold listeners. rewrite R1. apply listeners_in_survives. reflexivity. }
  fields C1.
  replace (SIGNAL s1) with (SIGNAL s) by congruence.
  rewrite L1. fold (error_is_public s).
  destruct (error_is_public s) eqn:Hpub.
  - destruct (super_emit_spec (Ev "error") [e] s1) as (s2 & E2 & R2 & T2 & C2).
    rewrite (bind_Ret _ _ _ _ _ E2). run.
    destruct (safe_closing_MAYBE_EMIT_END s2) as ([] & s' & E3 & F3).
    rewrite (bind_Ret _ _ _ _ _ E3). run.
    eexists _, s2, s'. split; [reflexivity|]. split; [exact E3|].
    split; [exact F3|].
    fields C2.
    split; [unfold emit_core; congruence|]. split; [congruence|].
    rewrite T2, T1, L1. rewrite <- !app_assoc. reflexivity.
  - run.
    destruct (safe_closing_MAYBE_EMIT_END s1) as ([] & s' & E3 & F3).
    rewrite (bind_Ret _ _ _ _ _ E3). run.
    eexists _, s1, s'. split; [reflexivity|]. split; [exact E3|].
    split; [exact F3|].
    split; [unfold emit_core; congruence|]. split; [congruence|].
    rewrite T1. rewrite <- !app_assoc. simpl. rewrite app_nil_r. reflexivity.
Qed.

End EmitError.

(** * The latched error *)

Section LatchedError.

Context {codec : Codec}.

Lemma error_is_public_false (s : state) :
  error_is_public s = false <->
  SIGNAL s <> None /\ listeners (Ev "error") s = [].
Proof.
  unfold error_is_public. rewrite orb_false_iff, negb_false_iff, Nat.eqb_eq.
  rewrite length_zero_iff_nil. destruct (SIGNAL s); split; intros [A B];
    split; congruence.
Qed.

(** Subscribing to 'error' with [on] once a truthy error is latched. *)
Lemma on_error_replay (h : nat) (s : state) :
  truthy (EMITTED_ERROR s) = true ->
  exists s',
    on (Ev "error") (Handler h) s = Ret tt s'
    /\ EMITTED_ERROR s' = EMITTED_ERROR s
    /\ if ASYNC s
       then trace s' = trace s
            /\ microtasks s'
               = microtasks s ++ [TLateError (mkListener (Handler h) false)]
       else trace s' = trace s ++ [Called h (Ev "error") [EMITTED_ERROR s]]
            /\ microtasks s' = microtasks s.
Proof.
  intro Ht. unfold on, on_listener, super_on. run.
  change (is_ev (Ev "error") "data") with false.
  change (is_ev (Ev "error") "readable") with false.
  change (isEndish (Ev "error")) with false.
  change (is_ev (Ev "error") "error") with true.
  rewrite Ht. cbn [andb]. run.
  destruct (ASYNC s); run.
  - eexists. split; [reflexivity|]. run_fields. repeat split.
  - rewrite invoke_plain by reflexivity.
    eexists. split; [reflexivity|]. run_fields. repeat split.
Qed.

(** The deferred call of a late 'error' handler passes the error latched
    when it runs. *)
Lemma run_late_error (h : nat) (t : state) :
  run_task (TLateError (mkListener (Handler h) false)) t
  = Ret tt (set_trace (trace t ++ [Called h (Ev "error") [EMITTED_ERROR t]]) t).
Proof. unfold run_task. run. apply invoke_plain. reflexivity. Qed.


End LatchedError.


(** * After destruction *)

(** Trace entries that are not the delivery of 'data'. *)
Definition not_data (x : effect) : Prop :=
  match x with
  | Emit ev _ | Dispatch ev _ | Called _ ev _ => is_ev ev "data" = false
  | DestWrite _ _ => False
  | _ => True
  end.

Lemma not_data_delivery ev args (ls : list listener) :
  is_ev ev "data" = false ->
  Forall not_data (map (delivery ev args) ls).
Proof.
  intro H. induction ls as [|l ls IH]; simpl; constructor; [|exact IH].
  unfold delivery. destruct (l_fn l); simpl; auto.
Qed.

Section Destroyed.

Context {codec : Codec}.

(** The gate of [emit]. *)
Lemma emit_dropped (ev : event) (args : list value) (s : state) :
  DESTROYED s = true ->
  is_ev ev "error" = false ->
  is_ev ev "close" = false ->
  event_eqb ev Sym_DESTROYED = false ->
  emit ev args s = Ret false s.
Proof.
  intros Hd H1 H2 H3. unfold emit, emit_with. run.
  rewrite Hd, H1, H2, H3. reflexivity.
Qed.

(** On a destroyed stream the endish check is idle, so [emit('error', e)]
    stops after its dispatches. *)
Lemma emit_error_destroyed (e : value) (s : state) :
  DESTROYED s = true ->
  exists r s',
    emit (Ev "error") [e] s = Ret r s'
    /\ emit_core s' = emit_core s
    /\ EMITTED_ERROR s' = e
    /\ trace s'
       = trace s
         ++ Emit (Ev "error") [e]
            :: Dispatch Sym_ERROR [e]
            :: map (delivery Sym_ERROR [e]) (listeners Sym_ERROR s)
            ++ (if error_is_public s
                then Dispatch (Ev "error") [e]
                     :: map (delivery (Ev "error") [e])
                          (listeners (Ev "error") s)
                else []).
Proof.
  intro Hd.
  destruct (emit_error_spec e s) as (r & s2 & s' & E & E3 & _ & C2 & L2 & T2).
  assert (D2 : DESTROYED s2 = true).
  { unfold emit_core in C2. injection C2 as _ _ _ _ _ _ _ D _ _ _ _. congruence. }
  rewrite MAYBE_EMIT_END_idle in E3
    by (unfold end_guard; rewrite D2, !andb_false_r; reflexivity).
  injection E3 as <-.
  exists r, s2. repeat split; assumption.
Qed.

Lemma error_effects_not_data (e : value) (s : state) :
  Forall not_data
    (Dispatch Sym_ERROR [e]
     :: map (delivery Sym_ERROR [e]) (listeners Sym_ERROR s)
     ++ (if error_is_public s
         then Dispatch (Ev "error") [e]
              :: map (delivery (Ev "error") [e]) (listeners (Ev "error") s)
         else [])).
Proof.
  constructor; [reflexivity|]. apply Forall_app. split.
  - apply not_data_delivery. reflexivity.
  - destruct (error_is_public s); constructor; [reflexivity|].
    apply not_data_delivery. reflexivity.
Qed.

(** The error a late write raises. *)
Definition ERR_STREAM_DESTROYED : value :=
  VError "Cannot call write after a stream was destroyed"
         (Some "ERR_STREAM_DESTROYED").

Lemma late_write_spec (chunk : value) (encoding : enc_arg)
    (cb : option nat) (s : state) :
  DESTROYED s = true -> ABORTED s = false -> EOF s = false ->
  exists s' l,
    write chunk encoding cb s = Ret true s'
    /\ trace s' = trace s ++ Emit (Ev "error") [ERR_STREAM_DESTROYED] :: l
    /\ In (Dispatch Sym_ERROR [ERR_STREAM_DESTROYED]) l
    /\ EMITTED_ERROR s' = ERR_STREAM_DESTROYED
    /\ Forall not_data l
    /\ emit_core s' = emit_core s.
Proof.
  intros Hd Ha He. unfold write. run. rewrite Ha. run. rewrite He. run.
  rewrite Hd. run. fold ERR_STREAM_DESTROYED.
  destruct (emit_error_destroyed ERR_STREAM_DESTROYED s Hd)
    as (r & s' & E & C & L & T).
  rewrite (bind_Ret _ _ _ _ _ E). run.
  eexists s', _. split; [reflexivity|]. split; [exact T|].
  split; [left; reflexivity|]. split; [exact L|].
  split; [apply error_effects_not_data | exact C].
Qed.


(** C8, as the code has it. On a destroyed stream [emit(ev, ...)] returns
    [false] and changes nothing (no handler is called) for every event
    other than 'error', 'close' and the destroy marker; and a [write]
    leaves the buffer and its length as they were, leaves the stream
    destroyed, and delivers nothing as 'data'. *)
Theorem destroyed_gate (s : state) :
  DESTROYED s = true ->
  (forall (ev : event) (args : list value),
      ev <> Ev "error" -> ev <> Ev "close" -> ev <> Sym_DESTROYED ->
      emit ev args s = Ret false s)
  /\ (forall (chunk : value) (encoding : enc_arg) (cb : option nat),
        let s' := final (write chunk encoding cb s) in
        BUFFER s' = BUFFER s
        /\ BUFFERLENGTH s' = BUFFERLENGTH s
        /\ DESTROYED s' = true
        /\ exists l, trace s' = trace s ++ l /\ Forall not_data l).
Proof.
  intro Hd. split.
  - intros ev args H1 H2 H3.
    apply emit_dropped; [exact Hd | | |]; apply event_eqb_neq; assumption.
  - intros chunk encoding cb.
    destruct (ABORTED s) eqn:Ha; [|destruct (EOF s) eqn:He].
    + unfold write. run. rewrite Ha. run_fields.
      repeat split; [exact Hd|]. exists []. split; [symmetry; apply app_nil_r | constructor].
    + unfold write. run. rewrite Ha. run. rewrite He. run.
      repeat split; [exact Hd|]. exists []. split; [symmetry; apply app_nil_r | constructor].
    + destruct (late_write_spec chunk encoding cb s Hd Ha He)
        as (s' & l & E & T & _ & _ & F & C).
      rewrite E. run_fields. fields C.
      split; [congruence|]. split; [congruence|]. split; [congruence|].
      eexists. split; [exact T|]. constructor; [reflexivity | exact F].
Qed.

End Destroyed.

(** The claim as the specification words it fails: an event other than
    'error', 'close' and the destroy marker can still reach a handler of
    a destroyed stream.  Subscribing to 'end' once it has been emitted
    replays it, destroyed or not. *)
Lemma end_replayed_after_destroy :
  let s := final ((constructor (codec := latin1)
                     (mkOptions VUndefined None None false) ;;
                   end_ (codec := latin1) ChunkAbsent EncAbsent None ;;
                   destroy (codec := latin1) VUndefined) blank) in
  DESTROYED s = true
  /\ result (on (codec := latin1) (Ev "end") (Handler 1) s) = Some tt
  /\ trace (final (on (codec := latin1) (Ev "end") (Handler 1) s))
     = trace s ++ [Dispatch (Ev "end") []; Called 1 (Ev "end") []].
Proof. vm_compute. repeat split. Qed.

(** On an async stream the deferred tail of an 'end' emission runs after
    a destruction that came in between. *)
Example deferred_end_after_destroy :
  let s := final ((constructor (codec := latin1)
                     (mkOptions (VBool true) None None false) ;;
                   on (codec := latin1) (Ev "end") (Handler 1) ;;
                   end_ (codec := latin1) ChunkAbsent EncAbsent None ;;
                   destroy (codec := latin1) VUndefined) blank) in
  DESTROYED s = true
  /\ microtasks s = [TEmitEnd2]
  /\ trace (run_microtasks (codec := latin1) 1 s)
     = trace s ++ [Dispatch (Ev "end") []; Called 1 (Ev "end") []].
Proof. vm_compute. repeat split. Qed.

(** * The size of the buffer *)

(** The size metric of an item: 1 in object mode, its length otherwise. *)
Definition item_size (om : bool) (v : value) : Z :=
  if om then 1%Z else js_length v.

Fixpoint total_size (om : bool) (l : list value) : Z :=
  match l with
  | [] => 0%Z
  | v :: r => (item_size om v + total_size om r)%Z
  end.

(** [bufferLength] is the sum of the sizes of the buffered items. *)
Definition consistent (s : state) : Prop :=
  BUFFERLENGTH s = total_size (OBJECTMODE s) (BUFFER s).

Section ReadNull.

Context {codec : Codec}.

(** C5. On a stream that is not destroyed, [read(n)] returns [null] and
    leaves the buffer and [bufferLength] as they were whenever the buffer
    is empty ([bufferLength] is 0), or [n === 0], or [n > bufferLength];
    on a destroyed stream [read(n)] returns [null] for every [n]. *)
Theorem read_returns_null (n : option Z) (s : state) :
  (DESTROYED s = true -> read n s = Ret VNull s)
  /\ (DESTROYED s = false ->
      BUFFERLENGTH s = 0%Z
      \/ (BUFFER s = [] /\ consistent s)
      \/ n = Some 0%Z
      \/ (exists k, n = Some k /\ (BUFFERLENGTH s < k)%Z) ->
      exists s',
        read n s = Ret VNull s'
        /\ BUFFER s' = BUFFER s
        /\ BUFFERLENGTH s' = BUFFERLENGTH s).
Proof.
  split.
  - intro Hd. unfold read. run. rewrite Hd. reflexivity.
  - intros Hd Hc. unfold read. run. rewrite Hd. run.
    assert (G : (BUFFERLENGTH s =? 0)%Z
                || match n with
                   | Some k => (k =? 0)%Z || (BUFFERLENGTH s <? k)%Z
                   | None => false
                   end = true).
    { destruct Hc as [H | [[Hb Hi] | [-> | (k & -> & H)]]].
      - rewrite H. reflexivity.
      - unfold consistent in Hi. rewrite Hb in Hi. simpl in Hi.
        rewrite Hi. reflexivity.
      - simpl. apply orb_true_r.
      - apply orb_true_iff. right. apply orb_true_iff. right.
        apply Z.ltb_lt, H. }
    rewrite G.
    destruct (safe_MAYBE_EMIT_END (set_DISCARDED false s))
      as ([] & s' & E & F & _).
    rewrite (bind_Ret _ _ _ _ _ E). run.
    exists s'. split; [reflexivity|]. fields F. split; congruence.
Qed.

End ReadNull.

(** * Instances of the theorems above *)

(** A byte stream destroyed right after its construction. *)
Definition destroyed_stream : state :=
  final ((constructor (codec := latin1) (mkOptions VUndefined None None false) ;;
          destroy (codec := latin1) VUndefined) blank).


Lemma destroyed_gate_witness :
  emit (codec := latin1) (Ev "data") [VStr "x"] destroyed_stream
  = Ret false destroyed_stream.
Proof.
  apply (destroyed_gate (codec := latin1) destroyed_stream eq_refl);
    discriminate.
Defined.

Lemma read_returns_null_witness :
  read (codec := latin1) (Some 5%Z) destroyed_stream
  = Ret VNull destroyed_stream
  /\ exists s',
       read (codec := latin1) (Some 3%Z)
         (set_BUFFERLENGTH 2 (set_BUFFER [VStr "ab"] (set_ENCODING (Some "utf8") blank)))
       = Ret VNull s'
       /\ BUFFER s' = [VStr "ab"].
Proof.
  split.
  - apply (read_returns_null (codec := latin1)). reflexivity.
  - destruct (read_returns_null (codec := latin1) (Some 3%Z)
                (set_BUFFERLENGTH 2 (set_BUFFER [VStr "ab"]
                   (set_ENCODING (Some "utf8") blank)))) as [_ H].
    destruct H as (s' & E & B & _); [reflexivity | |].
    + right. right. right. exists 3%Z. split; [reflexivity | reflexivity].
    + exists s'. split; [exact E | exact B].
Defined.

(** A stream that has emitted 'end', and a destination. *)
Definition ended_stream : state :=
  final ((constructor (codec := latin1) (mkOptions VUndefined None None false) ;;
          end_ (codec := latin1) ChunkAbsent EncAbsent None) blank).

Definition sink (n : nat) : Writable := mkWritable (Sink n) (fun _ => true).

Lemma pipe_end_option_witness :
  exists s',
    pipe (codec := latin1) (sink 1) None ended_stream = Ret (sink 1) s'
    /\ PIPES s' = []
    /\ trace s' = trace ended_stream ++ [DestEnd (Sink 1)].
Proof.
  destruct (pipe_end_option (codec := latin1) (sink 1) None ended_stream eq_refl)
    as (_ & _ & H & _).
  destruct (H eq_refl) as (s' & E & P & T).
  exists s'. split; [exact E|]. split; [exact P | exact T].
Defined.

(** * The buffer length invariant *)

(** In text mode every buffered item is a string. *)
Definition text_mode (om : bool) (enc : option string) : Prop :=
  om = false /\ enc <> None.

Definition typed (s : state) : Prop :=
  text_mode (OBJECTMODE s) (ENCODING s) ->
  Forall (fun v => isString v = true) (BUFFER s).

(** The invariant, with room for a property [P] of what never changes. *)
Definition sized (P : bool * option string * bool * bool * list Pipe -> Prop)
    (s : state) : Prop :=
  consistent s /\ typed s /\ P (static_part s).

Lemma total_size_app om a b :
  total_size om (a ++ b) = (total_size om a + total_size om b)%Z.
Proof. induction a as [|x a IH]; simpl; [reflexivity | rewrite IH; lia]. Qed.

Lemma append_length (a b : string) :
  String.length (a ++ b)%string = String.length a + String.length b.
Proof. induction a as [|c a IH]; simpl; [reflexivity | rewrite IH; reflexivity]. Qed.

Lemma total_size_strings l :
  Forall (fun v => isString v = true) l ->
  total_size false l = Z.of_nat (String.length (join l)).
Proof.
  induction 1 as [|v l Hv _ IH]; simpl; [reflexivity|].
  destruct v; try discriminate Hv. unfold item_size. simpl.
  rewrite IH, append_length. lia.
Qed.

Lemma Buffer_concat_length l n : List.length (Buffer_concat l n) = n.
Proof.
  unfold Buffer_concat. rewrite length_app, length_firstn, repeat_length. lia.
Qed.

Lemma substring_length (n m : nat) (s : string) :
  n + m <= String.length s -> String.length (substring n m s) = m.
Proof.
  revert n m. induction s as [|c s IH]; intros n m H; simpl in *.
  - assert (n = 0) by lia. assert (m = 0) by lia. subst. reflexivity.
  - destruct n as [|n].
    + destruct m as [|m]; simpl; [reflexivity|].
      rewrite IH by lia. reflexivity.
    + apply IH. lia.
Qed.

(** Cutting [k] units off the head of a string or Buffer, for a [k]
    within its length. *)
Lemma slice_from_length (c : value) (k : Z) :
  (0 <= k <= js_length c)%Z ->
  js_length (slice_from c k) = (js_length c - k)%Z.
Proof.
  intro H. destruct c; simpl in *; try lia.
  - unfold str_slice, rel_index.
    destruct (k <? 0)%Z eqn:E1; [apply Z.ltb_lt in E1; lia|].
    destruct (Z.of_nat (String.length s) <? 0)%Z eqn:E2;
      [apply Z.ltb_lt in E2; lia|].
    rewrite Z.min_id, (Z.min_l k) by lia.
    destruct (k <? Z.of_nat (String.length s))%Z eqn:E3; simpl.
    + apply Z.ltb_lt in E3. rewrite substring_length by lia. lia.
    + apply Z.ltb_ge in E3. lia.
  - unfold buf_subarray, rel_index.
    destruct (k <? 0)%Z eqn:E1; [apply Z.ltb_lt in E1; lia|].
    destruct (Z.of_nat (List.length b) <? 0)%Z eqn:E2;
      [apply Z.ltb_lt in E2; lia|].
    rewrite Z.min_id, (Z.min_l k) by lia.
    destruct (k <? Z.of_nat (List.length b))%Z eqn:E3; simpl.
    + apply Z.ltb_lt in E3. rewrite length_firstn, length_skipn. lia.
    + apply Z.ltb_ge in E3. lia.
Qed.

Lemma slice_from_string (c : value) (k : Z) :
  isString c = true -> isString (slice_from c k) = true.
Proof. destruct c; simpl; congruence. Qed.

Section Sized.

Context {codec : Codec}.

Variable P : bool * option string * bool * bool * list Pipe -> Prop.

Lemma sized_emit_frame ok (s s' : state) :
  emit_frame ok s s' -> sized P s -> sized P s'.
Proof.
  intros [F _] (Hc & Ht & HP). fields F.
  unfold sized, consistent, typed, static_part in *.
  repeat match goal with H : _ s' = _ s |- _ => rewrite H; clear H end.
  auto.
Qed.

Lemma preserves_sized_safe {A : Type} (m : M A) :
  safe (emit_frame any_effect) m -> preserves (sized P) m.
Proof.
  intro H. eapply preserves_keeps; [|apply keeps_safe; exact H].
  intros s s'. apply sized_emit_frame.
Qed.

Lemma preserves_sized_dispatch {A : Type} ok (m : M A) :
  safe (dispatch_frame ok) m -> preserves (sized P) m.
Proof. intro H. eapply preserves_sized_safe, safe_dispatch_emit, H. Qed.

Lemma preserves_sized_emit ev args : preserves (sized P) (emit ev args).
Proof. apply preserves_sized_safe, safe_emit. Qed.

Lemma preserves_sized_MAYBE_EMIT_END : preserves (sized P) MAYBE_EMIT_END.
Proof. apply preserves_sized_safe, safe_MAYBE_EMIT_END. Qed.

Lemma preserves_sized_pause : preserves (sized P) pause.
Proof. apply preserves_sized_safe, safe_pause. Qed.

Lemma preserves_at {A B : Type} (I : state -> Prop) (m : M A) (k : A -> M B)
    (s : state) :
  I (final (m s)) -> (forall a, preserves I (k a)) -> I (final (bind m k s)).
Proof.
  intros Hm Hk. rewrite final_bind. destruct (m s) as [a s1|e s1]; simpl in *.
  - apply Hk, Hm.
  - exact Hm.
Qed.

(** Shifting needs an item to shift: on an empty buffer it throws, or, in
    object mode, counts [bufferLength] down below zero. *)
Lemma BUFFERSHIFT_spec (s : state) (c : value) (r : list value) :
  BUFFER s = c :: r ->
  BUFFERSHIFT s
  = Ret c (set_BUFFER r
             (set_BUFFERLENGTH
                (BUFFERLENGTH s - item_size (OBJECTMODE s) c) s)).
Proof.
  intro Hb. unfold BUFFERSHIFT. run. rewrite Hb.
  destruct (OBJECTMODE s); reflexivity.
Qed.

Lemma sized_BUFFERSHIFT (s : state) :
  sized P s -> BUFFER s <> [] ->
  exists c s', BUFFERSHIFT s = Ret c s' /\ sized P s'.
Proof.
  intros (Hc & Ht & HP) Hne.
  destruct (BUFFER s) as [|c r] eqn:Hb; [contradiction|].
  eexists _, _. split; [apply BUFFERSHIFT_spec, Hb|].
  unfold sized, consistent, typed, static_part in *. run_fields.
  rewrite Hb in *. cbn [total_size] in Hc.
  split; [lia|]. split; [|exact HP].
  intro H. specialize (Ht H). inversion Ht. assumption.
Qed.

Lemma preserves_sized_BUFFERPUSH chunk :
  (forall om enc a c p,
      P (om, enc, a, c, p) -> text_mode om enc -> isString chunk = true) ->
  preserves (sized P) (BUFFERPUSH chunk).
Proof.
  intros Hchunk s (Hc & Ht & HP). unfold BUFFERPUSH. run.
  unfold sized, consistent, typed, static_part in *.
  destruct (OBJECTMODE s) eqn:Hom; run; rewrite ?Hom;
    rewrite total_size_app; cbn [total_size item_size];
    (split; [lia|]); (split; [|exact HP]); intro H.
  - destruct H as [H _]. discriminate H.
  - apply Forall_app. split; [auto|]. constructor; [|constructor].
    eapply Hchunk; eassumption.
Qed.

Lemma FLUSH_loop_unfold (fuel : nat) :
  FLUSH_loop fuel
  = (chunk <- BUFFERSHIFT ;;
     flowing <- FLUSHCHUNK chunk ;;
     len <- gets (fun s => List.length (BUFFER s)) ;;
     if flowing && negb (Nat.eqb len 0) then
       match fuel with
       | O => ret tt
       | S fuel' => FLUSH_loop fuel'
       end
     else ret tt).
Proof. destruct fuel; reflexivity. Qed.

Lemma sized_FLUSH_loop (fuel : nat) (s : state) :
  sized P s -> BUFFER s <> [] -> sized P (final (FLUSH_loop fuel s)).
Proof.
  revert s. induction fuel as [|fuel IH]; intros s Hs Hne;
    rewrite FLUSH_loop_unfold;
    destruct (sized_BUFFERSHIFT s Hs Hne) as (c & s1 & E1 & Hs1);
    rewrite (bind_Ret _ _ _ _ _ E1); unfold FLUSHCHUNK;
    destruct (safe_emit (Ev "data") [c] s1) as (r & s2 & E2 & F2);
    rewrite bind_assoc, (bind_Ret _ _ _ _ _ E2); run;
    pose proof (sized_emit_frame _ _ _ F2 Hs1) as Hs2;
    destruct (FLOWING s2 && negb (Nat.eqb (List.length (BUFFER s2)) 0)) eqn:G;
    try exact Hs2.
  apply IH; [exact Hs2|].
  apply andb_true_iff in G. destruct G as [_ G].
  apply negb_true_iff, Nat.eqb_neq in G. intro Hb. rewrite Hb in G.
  contradiction G. reflexivity.
Qed.

Lemma sized_FLUSH (noDrain : bool) (s : state) :
  sized P s -> BUFFER s <> [] -> sized P (final (FLUSH noDrain s)).
Proof.
  intros Hs Hne. unfold FLUSH. rewrite bind_gets.
  apply preserves_at; [apply sized_FLUSH_loop; assumption|].
  intros _. preserves_auto. apply preserves_sized_emit.
Qed.

Lemma preserves_sized_RESUME : preserves (sized P) RESUME.
Proof.
  intros s Hs. unfold RESUME. rewrite bind_gets.
  destruct (DESTROYED s); [exact Hs|].
  rewrite !bind_gets.
  match goal with |- context [when ?c _] => destruct c end; run;
    match goal with |- context [bind (emit ?ev ?args) _ ?s0] =>
      destruct (safe_emit ev args s0) as (r & s1 & E & F);
      assert (Hs1 : sized P s1) by (apply (sized_emit_frame _ _ _ F); exact Hs)
    end;
    rewrite (bind_Ret _ _ _ _ _ E); run;
    (destruct (BUFFER s1) as [|c rest] eqn:Hb; cbn [List.length Nat.eqb negb];
     [ run; destruct (EOF s1);
       [ apply preserves_sized_MAYBE_EMIT_END, Hs1
       | apply (preserves_at (sized P));
         [apply preserves_sized_emit, Hs1 | intros _; apply preserves_ret] ]
     | apply sized_FLUSH; [exact Hs1 | rewrite Hb; discriminate] ]).
Qed.

Lemma preserves_sized_run_cb async cb : preserves (sized P) (run_cb async cb).
Proof. unfold run_cb. preserves_auto. Qed.

Lemma preserves_sized_on_listener ev l : preserves (sized P) (on_listener ev l).
Proof.
  unfold on_listener, super_on. preserves_auto;
    first [ apply preserves_sized_RESUME
          | eapply preserves_sized_dispatch, safe_super_emit
          | eapply preserves_sized_dispatch, (safe_removeAllListeners any_effect)
          | eapply preserves_sized_dispatch, safe_invoke ].
Qed.

Lemma preserves_sized_destroy er : preserves (sized P) (destroy er).
Proof.
  intros s Hs. unfold destroy. rewrite bind_gets.
  destruct (DESTROYED s).
  - revert s Hs. change (preserves (sized P)
      ((if truthy er then emit (Ev "error") [er] else emit Sym_DESTROYED []) ;;
       ret tt)).
    preserves_auto; apply preserves_sized_emit.
  - run.
    match goal with |- sized P (final (?m ?s0)) =>
      assert (H0 : sized P s0);
        [| revert H0; generalize s0; change (preserves (sized P) m);
           preserves_auto; apply preserves_sized_emit ] end.
    destruct Hs as (Hc & Ht & HP). split; [reflexivity|].
    split; [intros _; constructor | exact HP].
Qed.

End Sized.

Lemma sized_weaken (P Q : bool * option string * bool * bool * list Pipe -> Prop)
    (s : state) :
  (forall st, P st -> Q st) -> sized P s -> sized Q s.
Proof. intros H (Hc & Ht & HP). repeat split; auto. Qed.

Lemma consistent_nonempty (s : state) :
  consistent s -> BUFFERLENGTH s <> 0%Z -> BUFFER s <> [].
Proof.
  unfold consistent. intros Hc Hn Hb. rewrite Hb in Hc. simpl in Hc.
  contradiction.
Qed.

Section SizedWrite.

Context {codec : Codec}.

(** The common end of the two branches of [write]: flush what is
    buffered, emit or buffer the chunk, signal 'readable', run the
    callback. *)
Definition write_tail (async : bool) (cb : option nat) (chunk : value)
  : M bool :=
  flowing <- gets FLOWING ;;
  len <- gets BUFFERLENGTH ;;
  when (flowing && negb (len =? 0)%Z) (FLUSH true) ;;
  flowing <- gets FLOWING ;;
  (if flowing then emit (Ev "data") [chunk] ;; ret tt
   else BUFFERPUSH chunk) ;;
  len <- gets BUFFERLENGTH ;;
  when (negb (len =? 0)%Z) (emit (Ev "readable") [] ;; ret tt) ;;
  run_cb async cb ;;
  gets FLOWING.

Lemma sized_write_tail P async cb chunk (s : state) :
  (forall om enc a c p,
      P (om, enc, a, c, p) -> text_mode om enc -> isString chunk = true) ->
  sized P s -> sized P (final (write_tail async cb chunk s)).
Proof.
  intros Hchunk Hs. unfold write_tail. rewrite !bind_gets.
  apply preserves_at.
  - destruct (FLOWING s && negb (BUFFERLENGTH s =? 0)%Z) eqn:G; [|exact Hs].
    apply sized_FLUSH; [exact Hs|].
    apply consistent_nonempty; [apply Hs|].
    apply andb_true_iff in G. destruct G as [_ G].
    apply negb_true_iff, Z.eqb_neq in G. exact G.
  - intros _. preserves_auto;
      first [ apply preserves_sized_emit
            | apply preserves_sized_BUFFERPUSH, Hchunk
            | apply preserves_sized_run_cb ].
Qed.

Lemma sized_write P chunk encoding cb (s : state) :
  sized P s -> sized P (final (write chunk encoding cb s)).
Proof.
  intro Hs0.
  pose (Q := fun st : bool * option string * bool * bool * list Pipe =>
               P st /\ exists a c p, st = (OBJECTMODE s, ENCODING s, a, c, p)).
  assert (Hs : sized Q s).
  { destruct Hs0 as (Hc & Ht & HP). repeat split; auto.
    unfold static_part. eauto. }
  apply (sized_weaken Q P); [intros st [H _]; exact H|]. clear Hs0.
  assert (Tail : forall async cb' c (t : state),
             t = s \/ (exists d, t = set_DECODER d s) ->
             (text_mode (OBJECTMODE s) (ENCODING s) -> isString c = true) ->
             sized Q (final (write_tail async cb' c t))).
  { intros async cb' c t Ht Hc. apply sized_write_tail.
    - intros om enc a c0 p [_ (a' & c' & p' & E)] Htm.
      injection E as -> -> _ _ _. auto.
    - destruct Ht as [-> | [d ->]]; exact Hs. }
  unfold write. rewrite bind_gets.
  destruct (ABORTED s); [exact Hs|]. rewrite bind_gets.
  destruct (EOF s); [exact Hs|]. rewrite bind_gets.
  destruct (DESTROYED s).
  { apply preserves_at; [apply preserves_sized_emit, Hs|].
    intros _. apply preserves_ret. }
  set (cbx := match encoding with EncFn f => Some f | _ => cb end).
  set (encx := match encoding with
               | EncName e => if truthy (VStr e) then e else "utf8"
               | _ => "utf8"
               end).
  cbv zeta. rewrite !bind_gets.
  destruct (OBJECTMODE s) eqn:Hom.
  - cbn [negb andb]. rewrite bind_ret.
    apply Tail; [left; reflexivity|]. intros [H _]. discriminate H.
  - destruct chunk;
      cbn [negb andb isBuffer isArrayBufferView isArrayBufferLike isString
           Buffer_of];
      rewrite ?bind_ret, ?bind_throw; try exact Hs.
    all: match goal with
         | |- context [(js_length ?c =? 0)%Z] =>
             destruct (js_length c =? 0)%Z
         end.
    all: try (refine ((_ : preserves (sized Q) _) s Hs); preserves_auto;
              first [apply preserves_sized_emit | apply preserves_sized_run_cb]).
    all: rewrite !bind_gets.
    all: destruct (ENCODING s) as [e|] eqn:He;
         destruct (DECODER s) as [d|] eqn:Hd.
    all: try match goal with
             | |- context [if negb ?c then _ else _] => destruct c
             end; cbn [negb].
    all: try match goal with
             | |- context [decoder_write ?e ?r ?b] =>
                 destruct (decoder_write e r b) as [text r']
             end.
    all: rewrite ?bind_assoc, ?bind_modify, ?bind_ret, ?bind_throw.
    all: try exact Hs.
    all: apply Tail;
         [ first [left; reflexivity | right; eexists; reflexivity]
         | first [ reflexivity
                 | intros [_ H]; contradiction H; reflexivity ] ].
Qed.

Lemma preserves_sized_write P chunk encoding cb :
  preserves (sized P) (write chunk encoding cb).
Proof. intros s. apply sized_write. Qed.

Lemma preserves_sized_end P chunk encoding cb :
  preserves (sized P) (end_ chunk encoding cb).
Proof.
  unfold end_, once. cbv zeta. preserves_auto;
    first [ apply preserves_sized_write | apply preserves_sized_on_listener
          | apply preserves_sized_MAYBE_EMIT_END ].
Qed.

Lemma sized_shift_ret P (c : value) (s : state) :
  sized P s -> BUFFER s <> [] ->
  sized P (final ((BUFFERSHIFT ;; ret c) s)).
Proof.
  intros Hs Hne. destruct (sized_BUFFERSHIFT P s Hs Hne) as (x & s' & E & Hs').
  rewrite (bind_Ret _ _ _ _ _ E). exact Hs'.
Qed.

(** [[READ]] keeps the invariant when it takes the whole head item, or
    cuts [k] units off a buffer that holds a single item, for a [k]
    within its length. *)
Lemma sized_READ P (n : option Z) (c : value) (rest : list value)
    (s : state) :
  sized P s ->
  BUFFER s = c :: rest ->
  n = None
  \/ (OBJECTMODE s = false /\ rest = []
      /\ exists k, n = Some k /\ (0 <= k <= BUFFERLENGTH s)%Z) ->
  sized P (final (READ n c s)).
Proof.
  intros Hs Hb Hn. unfold READ. rewrite bind_gets.
  assert (Hne : BUFFER s <> []) by (rewrite Hb; discriminate).
  apply preserves_at.
  - destruct (OBJECTMODE s) eqn:Hom; [apply sized_shift_ret; assumption|].
    destruct c; try exact Hs;
      (destruct Hn as [-> | (_ & -> & k & -> & Hk)];
       [apply sized_shift_ret; assumption|]);
      match goal with |- context [(k =? ?l)%Z] => destruct (k =? l)%Z eqn:Hkl end;
      try (apply sized_shift_ret; assumption);
      run; destruct Hs as (Hc & Ht & HP);
      unfold sized, consistent, typed, static_part in *; run_fields;
      rewrite Hom, Hb in *; cbn [tl total_size item_size] in *;
      apply Z.eqb_neq in Hkl;
      (split; [|split; [|exact HP]]).
    + rewrite (slice_from_length (VStr s0) k); cbn [js_length] in *; lia.
    + intros _. constructor; [reflexivity | constructor].
    + rewrite (slice_from_length (VBuffer b) k); cbn [js_length] in *; lia.
    + intro H. specialize (Ht H). inversion Ht. discriminate.
  - intros chunk. preserves_auto; apply preserves_sized_emit.
Qed.

(** [read(n)] keeps the invariant for an absent [n] and for every [n]
    that is not negative. *)
Lemma sized_read P (n : option Z) (s : state) :
  n = None \/ (exists k, n = Some k /\ (0 <= k)%Z) ->
  sized P s -> sized P (final (read n s)).
Proof.
  intros Hn Hs. unfold read. rewrite bind_gets.
  destruct (DESTROYED s); [exact Hs|].
  rewrite bind_modify, bind_gets. run_fields.
  set (s1 := set_DISCARDED false s).
  assert (Hs1 : sized P s1) by exact Hs.
  change (BUFFERLENGTH s) with (BUFFERLENGTH s1). clearbody s1. clear s Hs.
  destruct (_ || _) eqn:G.
  { apply preserves_at; [apply preserves_sized_MAYBE_EMIT_END, Hs1|].
    intros _. apply preserves_ret. }
  apply orb_false_iff in G. destruct G as [G0 Gn].
  apply Z.eqb_neq in G0.
  pose proof (consistent_nonempty s1 (proj1 Hs1) G0) as Hne.
  rewrite !bind_gets.
  destruct (BUFFER s1) as [|c rest] eqn:Hb; [contradiction|].
  assert (Hn' : forall k, n = Some k -> (0 < k <= BUFFERLENGTH s1)%Z).
  { intros k ->. destruct Hn as [Hn | (k' & Hk & Hpos)]; [discriminate|].
    injection Hk as <-. apply orb_false_iff in Gn. destruct Gn as [A B].
    apply Z.eqb_neq in A. apply Z.ltb_ge in B. lia. }
  destruct (OBJECTMODE s1) eqn:Hom.
  - (* object mode: one item, whatever [n] *)
    cbn [negb andb]. rewrite andb_false_r. rewrite bind_ret, bind_gets.
    rewrite Hb. cbn [hd]. apply preserves_at.
    + apply (sized_READ P None c rest); auto.
    + intros r. preserves_auto. apply preserves_sized_MAYBE_EMIT_END.
  - cbn [negb]. rewrite andb_true_r.
    destruct (Nat.ltb 1 (List.length (c :: rest))) eqn:Hlen.
    + (* several items: coalesce first *)
      destruct (ENCODING s1) as [e|] eqn:He.
      * rewrite bind_modify, bind_gets. run_fields. cbn [hd].
        apply preserves_at; [|intros r; preserves_auto;
                               apply preserves_sized_MAYBE_EMIT_END].
        assert (Hstr : Forall (fun v => isString v = true) (c :: rest)).
        { destruct Hs1 as (_ & Ht & _). unfold typed in Ht.
          rewrite Hom, He, Hb in Ht. apply Ht. split; [reflexivity | discriminate]. }
        assert (Hsz : BUFFERLENGTH s1
                      = Z.of_nat (String.length (join (c :: rest)))).
        { destruct Hs1 as (Hc & _). unfold consistent in Hc.
          rewrite Hom, Hb in Hc. rewrite Hc. apply total_size_strings, Hstr. }
        apply (sized_READ P n _ []); [ | reflexivity | ].
        -- destruct Hs1 as (Hc & Ht & HP).
           unfold sized, consistent, typed, static_part in *. run_fields.
           rewrite Hom in *. cbn [total_size item_size js_length].
           split; [lia|]. split; [|exact HP].
           intros _. constructor; [reflexivity | constructor].
        -- destruct n as [k|]; [|left; reflexivity]. right.
           split; [exact Hom|]. split; [reflexivity|]. exists k.
           split; [reflexivity|]. run_fields. specialize (Hn' k eq_refl). lia.
      * destruct (BUFFERLENGTH s1 <? 0)%Z eqn:Hneg;
          [rewrite bind_throw; exact Hs1|].
        apply Z.ltb_ge in Hneg.
        rewrite bind_modify, bind_gets. run_fields. cbn [hd].
        apply preserves_at; [|intros r; preserves_auto;
                               apply preserves_sized_MAYBE_EMIT_END].
        apply (sized_READ P n _ []); [ | reflexivity | ].
        -- destruct Hs1 as (Hc & Ht & HP).
           unfold sized, consistent, typed, static_part in *. run_fields.
           rewrite Hom, He in *. cbn [total_size item_size js_length].
           rewrite Buffer_concat_length.
           split; [lia|]. split; [|exact HP].
           intros [_ H]. contradiction H. reflexivity.
        -- destruct n as [k|]; [|left; reflexivity]. right.
           split; [exact Hom|]. split; [reflexivity|]. exists k.
           split; [reflexivity|]. run_fields. specialize (Hn' k eq_refl). lia.
    + (* a single item *)
      assert (Hrest : rest = []).
      { destruct rest; [reflexivity|]. discriminate Hlen. }
      rewrite bind_ret, bind_gets. rewrite Hb. cbn [hd].
      apply preserves_at; [|intros r; preserves_auto;
                             apply preserves_sized_MAYBE_EMIT_END].
      apply (sized_READ P n c rest); [exact Hs1 | exact Hb |].
      destruct n as [k|]; [|left; reflexivity]. right.
      split; [exact Hom|]. split; [exact Hrest|]. exists k.
      split; [reflexivity|]. specialize (Hn' k eq_refl). lia.
Qed.

(** The public operations of a producer and a consumer. *)
Inductive op : Type :=
| OpWrite (chunk : value) (encoding : enc_arg) (cb : option nat)
| OpRead (n : option Z)
| OpEnd (chunk : chunk_arg) (encoding : enc_arg) (cb : option nat)
| OpResume
| OpPause
| OpDestroy (er : value).

(** The state an operation leaves, whether it returns or throws. *)
Definition perform (o : op) (s : state) : state :=
  match o with
  | OpWrite chunk encoding cb => final (write chunk encoding cb s)
  | OpRead n => final (read n s)
  | OpEnd chunk encoding cb => final (end_ chunk encoding cb s)
  | OpResume => final (resume s)
  | OpPause => final (pause s)
  | OpDestroy er => final (destroy er s)
  end.

Definition perform_all (ops : list op) (s : state) : state :=
  fold_left (fun s o => perform o s) ops s.

(** A read that asks for a number of units that is not negative. *)
Definition natural_read (o : op) : Prop :=
  match o with
  | OpRead (Some k) => (0 <= k)%Z
  | _ => True
  end.

Definition anything (st : bool * option string * bool * bool * list Pipe)
  : Prop := True.

Lemma sized_perform (o : op) (s : state) :
  natural_read o -> sized anything s -> sized anything (perform o s).
Proof.
  intros Ho Hs. destruct o; simpl.
  - apply sized_write, Hs.
  - apply sized_read; [|exact Hs].
    destruct n as [k|]; [right; exists k; auto | left; reflexivity].
  - apply preserves_sized_end, Hs.
  - apply preserves_sized_RESUME, Hs.
  - apply preserves_sized_pause, Hs.
  - apply preserves_sized_destroy, Hs.
Qed.

Definition empty_buffer (s : state) : Prop :=
  BUFFER s = [] /\ BUFFERLENGTH s = 0%Z.

Lemma empty_buffer_sized (s : state) : empty_buffer s -> sized anything s.
Proof.
  intros [Hb Hl]. unfold sized, consistent, typed. rewrite Hb, Hl.
  repeat split. intros _. constructor.
Qed.

Lemma constructor_empty_buffer (o : Options) :
  preserves empty_buffer (constructor o).
Proof.
  assert (E : forall ev args, preserves empty_buffer (emit ev args)).
  { intros ev args. eapply preserves_keeps; [|apply keeps_safe, safe_emit].
    intros s s' [F _] [Hb Hl]. fields F. split; congruence. }
  unfold constructor, ABORT, destroy. preserves_auto;
    first [ apply E
          | apply preserves_modify; intros s0 [Hb Hl]; split; cbn; auto ].
Qed.

(** The invariant behind C2: from construction on, through writes, ends,
    resumes, pauses, destructions and reads of an absent or non-negative
    [n], [bufferLength] is the sum of the sizes of the buffered items. *)
Lemma bufferLength_invariant (o : Options) (ops : list op) (s0 : state) :
  new o = Ret tt s0 ->
  Forall natural_read ops ->
  consistent (perform_all ops s0).
Proof.
  intros Hnew Hops.
  assert (H0 : sized anything s0).
  { apply empty_buffer_sized.
    pose proof (constructor_empty_buffer o blank) as H.
    unfold new in Hnew. rewrite Hnew in H. apply H. split; reflexivity. }
  clear Hnew. revert s0 H0.
  induction Hops as [|x ops Hx _ IH]; intros s0 H0; simpl.
  - apply H0.
  - apply IH, sized_perform; assumption.
Qed.

End SizedWrite.

(** C2 fails on the code for a negative [n]: [read(-1)] on a text stream
    holding "abc" returns "ab", leaves "c" in the buffer, and counts
    [bufferLength] up to 4. *)
Theorem negative_read_breaks_bufferLength :
  let s := final ((constructor (codec := latin1)
                     (mkOptions VUndefined None (Some "utf8") false) ;;
                   write (codec := latin1) (VStr "abc") EncAbsent None) blank) in
  let s' := final (read (codec := latin1) (Some (-1)%Z) s) in
  consistent s
  /\ result (read (codec := latin1) (Some (-1)%Z) s) = Some (VStr "ab")
  /\ BUFFER s' = [VStr "c"]
  /\ BUFFERLENGTH s' = 4%Z
  /\ ~ consistent s'.
Proof.
  cbv zeta. unfold consistent. vm_compute.
  repeat split. discriminate.
Qed.

(** * Data emissions *)

(** A consumer: a 'data' listener, or a pipe to a destination. *)
Inductive consumer : Type :=
| Listener (h : nat)
| PipeTo (d : Writable) (opts : option PipeOptions).

(** A consumer that never pushes back: the [write] of a pipe destination
    never returns [false]. *)
Definition accepts_all (c : consumer) : Prop :=
  match c with
  | Listener _ => True
  | PipeTo d _ => forall v, wwrite d v = true
  end.

(** The 'data' payloads a consumer has received, oldest first. *)
Definition received_one (c : consumer) (x : effect) : list value :=
  match c, x with
  | Listener h, Called h' ev [v] =>
      if Nat.eqb h' h && is_ev ev "data" then [v] else []
  | PipeTo d _, DestWrite d' v =>
      if dest_id_eqb d' (wid d) then [v] else []
  | _, _ => []
  end.

Definition received (c : consumer) (tr : list effect) : list value :=
  flat_map (received_one c) tr.

(** The payloads of the deferred 'data' emissions, oldest first. *)
Definition pending_one (t : task) : list value :=
  match t with TEmitData v => [v] | _ => [] end.

Definition pending (q : list task) : list value := flat_map pending_one q.

(** The arguments of a call of [write]. *)
Record write_call : Type := mkWrite {
  w_chunk : value;
  w_encoding : enc_arg;
  w_cb : option nat
}.

Definition encoding_of (w : write_call) : string :=
  match w_encoding w with
  | EncName e => if truthy (VStr e) then e else "utf8"
  | _ => "utf8"
  end.

Definition callback_of (w : write_call) : option nat :=
  match w_encoding w with EncFn f => Some f | _ => w_cb w end.

Section Written.

Context {codec : Codec}.

Definition do_write (w : write_call) : M unit :=
  write (w_chunk w) (w_encoding w) (w_cb w) ;; ret tt.

(** What a write hands to the stream: the item itself in object mode,
    the bytes of the chunk in bytes mode, the string in text mode;
    nothing for a chunk of length zero.  In text mode the chunks
    considered are the strings written in the encoding of the stream. *)
Definition prepare (om : bool) (enc : option string) (w : write_call)
  : option value :=
  if om then Some (w_chunk w)
  else
    match enc, Buffer_of (w_chunk w) with
    | None, VBuffer b =>
        if (js_length (VBuffer b) =? 0)%Z then None else Some (VBuffer b)
    | None, VStr str =>
        if (js_length (VStr str) =? 0)%Z then None
        else Some (VBuffer (Buffer_from str (encoding_of w)))
    | Some _, VStr str =>
        if (js_length (VStr str) =? 0)%Z then None else Some (VStr str)
    | _, _ => None
    end.

(** The writes this development follows through the stream. *)
Definition supported (om : bool) (enc : option string) (w : write_call)
  : Prop :=
  if om then True
  else
    match enc, w_chunk w with
    | None, (VBuffer _ | VArrayBuffer _ | VView _ _ _ | VStr _) => True
    | Some e, VStr str => str = "" \/ encoding_of w = e
    | _, _ => False
    end.

(** The end of [write] for a chunk of length zero. *)
Definition write_skip (async : bool) (cb : option nat) : M bool :=
  len <- gets BUFFERLENGTH ;;
  when (negb (len =? 0)%Z) (emit (Ev "readable") [] ;; ret tt) ;;
  run_cb async cb ;;
  gets FLOWING.

(** A supported write on a live stream is the end of [write] applied to
    what [prepare] gives. *)
Lemma write_supported (om : bool) (enc : option string) (w : write_call)
    (s : state) :
  supported om enc w ->
  ABORTED s = false -> EOF s = false -> DESTROYED s = false ->
  OBJECTMODE s = om -> ENCODING s = enc ->
  (forall e, enc = Some e ->
             DECODER s = Some [] /\ decoder_lastNeed e [] = false) ->
  write (w_chunk w) (w_encoding w) (w_cb w) s
  = match prepare om enc w with
    | Some v => write_tail (ASYNC s) (callback_of w) v s
    | None => write_skip (ASYNC s) (callback_of w) s
    end.
Proof.
  intros Hsup Ha He Hd Hom Henc Hdec.
  unfold write, prepare, supported, write_tail, write_skip, callback_of,
    encoding_of in *.
  rewrite bind_gets, Ha, bind_gets, He, bind_gets, Hd. cbv zeta.
  rewrite !bind_gets, Hom.
  destruct om; [reflexivity|].
  cbn [negb andb]. destruct enc as [e|].
  - destruct (Hdec e eq_refl) as [Hd0 Hl].
    destruct (w_chunk w) as [| | | |str| | | | |]; try contradiction.
    cbn [isBuffer isArrayBufferView isArrayBufferLike isString Buffer_of negb
         andb]. rewrite bind_ret.
    destruct (js_length (VStr str) =? 0)%Z eqn:Hz; [reflexivity|].
    rewrite !bind_gets, Henc, Hd0, Hl.
    destruct Hsup as [-> | Hsame]; [discriminate Hz|].
    rewrite Hsame, string_eqb_refl. cbn [negb andb]. rewrite bind_ret.
    reflexivity.
  - destruct (w_chunk w); try contradiction;
      cbn [isBuffer isArrayBufferView isArrayBufferLike isString Buffer_of
           negb andb]; rewrite ?bind_ret;
      match goal with
      | |- context [(js_length ?c =? 0)%Z] =>
          destruct (js_length c =? 0)%Z; [reflexivity|]
      end;
      rewrite !bind_gets, Henc; cbn [negb andb]; rewrite ?bind_ret;
      destruct (DECODER s); reflexivity.
Qed.

End Written.

(** ** The states of a stream that is written, consumed and ended *)

(** The payload mode chosen at construction. *)
Inductive mode : Type :=
| ObjectMode
| BytesMode
| TextMode (e : string).

Definition om_of (m : mode) : bool :=
  match m with ObjectMode => true | _ => false end.

Definition enc_of (m : mode) : option string :=
  match m with TextMode e => Some e | _ => None end.

Definition dec_of (m : mode) : option (list byte) :=
  match m with TextMode _ => Some [] | _ => None end.

Definition options_of (o : option PipeOptions) : PipeOptions :=
  match o with Some o => o | None => no_options end.

Definition proxies (o : option PipeOptions) : bool :=
  truthy (opt_proxyErrors (options_of o)).

(** The pipe list, the listener table and the data-listener count once
    the consumer is attached. *)
Definition pipes_of (c : consumer) : list Pipe :=
  match c with
  | Listener _ => []
  | PipeTo d o => [mkPipe d (effective_end d (options_of o)) (proxies o)]
  end.

Definition reg_of (c : consumer) : list (event * listener) :=
  match c with
  | Listener h => [(Ev "data", mkListener (Handler h) false)]
  | PipeTo d o =>
      if proxies o
      then [(Ev "error", mkListener (ProxyErrors (wid d)) false)]
      else []
  end.

Definition ndl_of (c : consumer) : nat :=
  match c with Listener _ => 1 | PipeTo _ _ => 0 end.

(** A stream that was never paused, destroyed or aborted, with its
    consumer attached or not. *)
Definition live (m : mode) (async : bool) (sig : option AbortSignal)
    (c : consumer) (flowing eof ended attached : bool)
    (buf : list value) (bl : Z) (tasks : list task) (tr : list effect)
  : state :=
  mkState flowing false (if attached then pipes_of c else []) buf
    (om_of m) (enc_of m) async (dec_of m) eof ended false false VNull bl
    false sig false (if attached then ndl_of c else 0) false
    (negb eof) (negb ended) (if attached then reg_of c else []) false
    tasks tr.

(** An item that [emit('data', _)] does not drop. *)
Definition deliverable (m : mode) (v : value) : bool :=
  om_of m || truthy v.

(** The task a [write] callback leaves behind. *)
Definition cb_tasks (async : bool) (cb : option nat) : list task :=
  match cb with
  | Some f => if async then [TCall f] else []
  | None => []
  end.

Lemma received_app c a b : received c (a ++ b) = received c a ++ received c b.
Proof. unfold received. apply flat_map_app. Qed.

Lemma pending_app a b : pending (a ++ b) = pending a ++ pending b.
Proof. unfold pending. apply flat_map_app. Qed.

Ltac compute_state :=
  cbv -[app Z.add Z.sub Z.eqb decoder_end decoder_lastNeed decoder_write
        Buffer_from wwrite wid received pending truthy js_length
        total_size item_size].

Section Deliveries.

Context {codec : Codec}.

Lemma for_each_invoke_plain (ev : event) (args : list value)
    (ls : list listener) (s : state) :
  Forall (fun l => l_once l = false) ls ->
  for_each ls (fun l => invoke ev l args) s
  = Ret tt (set_trace (trace s ++ map (delivery ev args) ls) s).
Proof.
  intro H. revert s. induction H as [|l ls Hl _ IH]; intro s; simpl.
  - rewrite app_nil_r. destruct s; reflexivity.
  - rewrite (bind_Ret _ _ _ _ _ (invoke_plain ev l args s Hl)), IH.
    run_fields. rewrite <- app_assoc. reflexivity.
Qed.

(** A dispatch to plain listeners only changes the trace. *)
Lemma super_emit_plain (ev : event) (args : list value) (s : state) :
  Forall (fun l => l_once l = false) (listeners ev s) ->
  super_emit ev args s
  = Ret (negb (Nat.eqb (List.length (listeners ev s)) 0))
        (set_trace (trace s ++ Dispatch ev args
                               :: map (delivery ev args) (listeners ev s)) s).
Proof.
  intro H. unfold super_emit. run.
  change (listeners ev (set_trace (trace s ++ [Dispatch ev args]) s))
    with (listeners ev s).
  rewrite (bind_Ret _ _ _ _ _ (for_each_invoke_plain ev args _ _ H)).
  run. rewrite <- app_assoc. reflexivity.
Qed.

(** An event nobody listens to, emitted while the endish check is idle:
    'readable', 'drain', 'resume' in what follows. *)
Lemma emit_unheard (ev : event) (s : state) :
  ev = Ev "readable" \/ ev = Ev "drain" \/ ev = Ev "resume" ->
  listeners ev s = [] ->
  DESTROYED s = false ->
  end_guard s = false ->
  emit ev [] s
  = Ret false (set_trace (trace s ++ [Emit ev []; Dispatch ev []]) s).
Proof.
  intros Hev Hl Hd Hg.
  assert (Hplain : forall t, trace t = trace s ++ [Emit ev []] ->
                             registry t = registry s ->
            super_emit ev [] t
            = Ret false (set_trace (trace s ++ [Emit ev []; Dispatch ev []]) t)).
  { intros t Ht Hr.
    assert (Hlt : listeners ev t = []) by (unfold listeners; rewrite Hr; exact Hl).
    rewrite super_emit_plain by (rewrite Hlt; constructor).
    rewrite Hlt, Ht, <- app_assoc. reflexivity. }
  unfold emit, emit_with. run. rewrite Hd.
  destruct Hev as [-> | [-> | ->]]; cbn [negb andb is_ev event_eqb String.eqb
    Ascii.eqb Bool.eqb orb]; run;
    match goal with
    | |- context [bind (super_emit _ _) ?k ?t] =>
        rewrite (bind_Ret _ k _ _ _ (Hplain t eq_refl eq_refl))
    end; run;
    match goal with
    | |- context [bind MAYBE_EMIT_END ?k ?t] =>
        rewrite (bind_Ret _ k t t tt (MAYBE_EMIT_END_idle t Hg))
    end; reflexivity.
Qed.

(** On an async stream [emit('data', v)] defers the emission. *)
Lemma emit_data_async (v : value) (s : state) :
  DESTROYED s = false -> ASYNC s = true ->
  OBJECTMODE s || truthy v = true ->
  emit (Ev "data") [v] s
  = Ret true (set_microtasks (microtasks s ++ [TEmitData v])
                (set_trace (trace s ++ [Emit (Ev "data") [v]]) s)).
Proof.
  intros Hd Ha Hv. unfold emit, emit_with. run. rewrite Hd.
  cbn [negb andb is_ev event_eqb String.eqb Ascii.eqb Bool.eqb hd]. run.
  apply orb_true_iff in Hv.
  assert (G : negb (OBJECTMODE s) && negb (truthy v) = false).
  { destruct Hv as [-> | ->]; [reflexivity | apply andb_false_r]. }
  rewrite G. run. rewrite Ha. run. reflexivity.
Qed.

(** On a sync stream [emit('data', v)] is [[EMITDATA]]. *)
Lemma emit_data_sync (v : value) (s : state) :
  DESTROYED s = false -> ASYNC s = false ->
  OBJECTMODE s || truthy v = true ->
  emit (Ev "data") [v] s
  = EMITDATA v (set_trace (trace s ++ [Emit (Ev "data") [v]]) s).
Proof.
  intros Hd Ha Hv. unfold emit, emit_with. run. rewrite Hd.
  cbn [negb andb is_ev event_eqb String.eqb Ascii.eqb Bool.eqb hd]. run.
  apply orb_true_iff in Hv.
  assert (G : negb (OBJECTMODE s) && negb (truthy v) = false).
  { destruct Hv as [-> | ->]; [reflexivity | apply andb_false_r]. }
  rewrite G. run. rewrite Ha. reflexivity.
Qed.

End Deliveries.

(** Two readings of the data that came out of a stream: the payloads of
    its 'data' dispatches, and the payloads a given consumer was handed. *)
Inductive view : Type :=
| Dispatched
| Handed.

Definition dispatched_one (x : effect) : list value :=
  match x with
  | Dispatch ev [v] => if is_ev ev "data" then [v] else []
  | _ => []
  end.

Definition observed (w : view) (c : consumer) (tr : list effect)
  : list value :=
  match w with
  | Dispatched => flat_map dispatched_one tr
  | Handed => received c tr
  end.

Lemma observed_app w c a b :
  observed w c (a ++ b) = observed w c a ++ observed w c b.
Proof. destruct w; apply flat_map_app. Qed.

(** [grows c tr tr' vs]: the trace went from [tr] to [tr'], and in both
    readings the data [vs] came out meanwhile. *)
Definition grows (c : consumer) (tr tr' : list effect) (vs : list value)
  : Prop :=
  forall w, observed w c tr' = observed w c tr ++ vs.

Lemma grows_refl c tr : grows c tr tr [].
Proof. intro w. symmetry. apply app_nil_r. Qed.

Lemma grows_trans c a b d vs ws :
  grows c a b vs -> grows c b d ws -> grows c a d (vs ++ ws).
Proof. intros H1 H2 w. rewrite H2, H1, app_assoc. reflexivity. Qed.

Lemma grows_app c tr e vs :
  (forall w, observed w c e = vs) -> grows c tr (tr ++ e) vs.
Proof. intros H w. rewrite observed_app, H. reflexivity. Qed.

(** What one 'data' emission adds to the trace once the consumer is
    attached. *)
Definition deliveries (c : consumer) (v : value) : list effect :=
  match c with
  | Listener h => [Dispatch (Ev "data") [v]; Called h (Ev "data") [v]]
  | PipeTo d _ => [DestWrite (wid d) v; Dispatch (Ev "data") [v]]
  end.

Lemma observed_deliveries w c v : observed w c (deliveries c v) = [v].
Proof.
  destruct w, c as [h|d o]; cbn; rewrite ?Nat.eqb_refl, ?dest_id_eqb_refl;
    reflexivity.
Qed.

(** Whether [super.emit('data', _)] found a listener. *)
Definition heard (c : consumer) : bool :=
  match c with Listener _ => true | PipeTo _ _ => false end.

(** What the callback of a [write] adds to the trace. *)
Definition cb_effects (async : bool) (cb : option nat) : list effect :=
  match cb with
  | Some f => if async then [] else [CbCalled f]
  | None => []
  end.

(** The endish check does nothing: the input is open, or 'end' was
    emitted, or items are buffered. *)
Definition idle (eof ended : bool) (buf : list value) : Prop :=
  negb ended && Nat.eqb (List.length buf) 0 && eof = false.

(** The 'readable' emission at the end of a [write]. *)
Definition readable_effects (len : Z) : list effect :=
  if (len =? 0)%Z then []
  else [Emit (Ev "readable") []; Dispatch (Ev "readable") []].

Lemma observed_readable w c len : observed w c (readable_effects len) = [].
Proof.
  unfold readable_effects. destruct (len =? 0)%Z, w, c; reflexivity.
Qed.

Lemma observed_cb w c a cb : observed w c (cb_effects a cb) = [].
Proof. destruct cb, a, w, c; reflexivity. Qed.

Section DataFlow.

Context {codec : Codec}.

Variables (m : mode) (sig : option AbortSignal) (c : consumer).

Hypothesis accepting : accepts_all c.

(** A decoder that retains nothing needs nothing and flushes to the empty
    string. *)
Hypothesis fresh_decoder :
  forall e, m = TextMode e ->
            decoder_lastNeed e [] = false /\ decoder_end e [] = "".

(* In this section a setter applied to a state is always unfolded. *)
#[local] Arguments set_FLOWING _ _ /.
#[local] Arguments set_PAUSED _ _ /.
#[local] Arguments set_PIPES _ _ /.
#[local] Arguments set_BUFFER _ _ /.
#[local] Arguments set_OBJECTMODE _ _ /.
#[local] Arguments set_ENCODING _ _ /.
#[local] Arguments set_ASYNC _ _ /.
#[local] Arguments set_DECODER _ _ /.
#[local] Arguments set_EOF _ _ /.
#[local] Arguments set_EMITTED_END _ _ /.
#[local] Arguments set_EMITTING_END _ _ /.
#[local] Arguments set_CLOSED _ _ /.
#[local] Arguments set_EMITTED_ERROR _ _ /.
#[local] Arguments set_BUFFERLENGTH _ _ /.
#[local] Arguments set_DESTROYED _ _ /.
#[local] Arguments set_SIGNAL _ _ /.
#[local] Arguments set_ABORTED _ _ /.
#[local] Arguments set_DATALISTENERS _ _ /.
#[local] Arguments set_DISCARDED _ _ /.
#[local] Arguments set_writable _ _ /.
#[local] Arguments set_readable _ _ /.
#[local] Arguments set_registry _ _ /.
#[local] Arguments set_has_close _ _ /.
#[local] Arguments set_microtasks _ _ /.
#[local] Arguments set_trace _ _ /.

Lemma idle_guard (s : state) :
  idle (EOF s) (EMITTED_END s) (BUFFER s) ->
  EMITTING_END s = false -> DESTROYED s = false ->
  end_guard s = false.
Proof.
  unfold idle, end_guard. intros H -> ->.
  destruct (EMITTED_END s); [reflexivity | exact H].
Qed.

Ltac idle_end H :=
  match goal with
  | |- context [bind MAYBE_EMIT_END ?k ?t] =>
      rewrite (bind_Ret _ k t t tt
                 (MAYBE_EMIT_END_idle t (idle_guard t H eq_refl eq_refl)))
  | |- context [MAYBE_EMIT_END ?t] =>
      rewrite (MAYBE_EMIT_END_idle t (idle_guard t H eq_refl eq_refl))
  end.

(** Running a method on a state that is spelled out. *)
Ltac exec_fields :=
  cbn [ret gets modify throw when final result
       set_FLOWING set_PAUSED set_PIPES set_BUFFER set_OBJECTMODE
       set_ENCODING set_ASYNC set_DECODER set_EOF set_EMITTED_END
       set_EMITTING_END set_CLOSED set_EMITTED_ERROR set_BUFFERLENGTH
       set_DESTROYED set_SIGNAL set_ABORTED set_DATALISTENERS set_DISCARDED
       set_writable set_readable set_registry set_has_close set_microtasks
       set_trace
       FLOWING PAUSED PIPES BUFFER OBJECTMODE ENCODING ASYNC DECODER EOF
       EMITTED_END EMITTING_END CLOSED EMITTED_ERROR BUFFERLENGTH DESTROYED
       SIGNAL ABORTED DATALISTENERS DISCARDED writable readable registry
       has_close microtasks trace
       negb andb orb for_each dest opts_end opts_proxyErrors
       List.length Nat.eqb hd tl is_ev event_eqb String.eqb Ascii.eqb
       Bool.eqb Z.eqb live].

Ltac exec :=
  unfold log, defer;
  repeat (progress (run_binds; exec_fields)).

(** Dispatching to the listeners of a table that is known. *)
Ltac dispatch_plain :=
  match goal with
  | |- context [bind (super_emit ?ev ?args) ?k ?t] =>
      let ls := eval cbn in (listeners ev t) in
      let E := fresh in
      let H := fresh in
      assert (E : listeners ev t = ls) by reflexivity;
      assert (H : Forall (fun l => l_once l = false) (listeners ev t))
        by (rewrite E; repeat constructor);
      rewrite (bind_Ret _ k _ _ _ (super_emit_plain ev args t H)), E;
      clear E H; cbn [map delivery l_fn List.length Nat.eqb negb hd]
  end.

(** Case analysis on the consumer, with the live state spelled out. *)
Ltac split_consumer :=
  match goal with
  | c : consumer |- _ =>
      let d := fresh "d" in
      let o := fresh "o" in
      let Hp := fresh "Hp" in
      destruct c as [?h | d o];
      [ | unfold reg_of; destruct (proxies o) eqn:Hp ];
      cbn [pipes_of reg_of ndl_of]; rewrite ?Hp
  end.

Ltac open_live := unfold live; split_consumer.

Lemma emit_unheard_live ev a fl eof ended att buf bl q tr :
  ev = Ev "readable" \/ ev = Ev "drain" \/ ev = Ev "resume" ->
  idle eof ended buf ->
  emit ev [] (live m a sig c fl eof ended att buf bl q tr)
  = Ret false (live m a sig c fl eof ended att buf bl q
                 (tr ++ [Emit ev []; Dispatch ev []])).
Proof.
  intros Hev Hidle.
  apply emit_unheard; [exact Hev | | reflexivity | apply idle_guard; auto].
  destruct Hev as [-> | [-> | ->]], att, c as [h|d o]; try reflexivity;
    cbn; unfold reg_of; destruct (proxies o); reflexivity.
Qed.

(** [[EMITDATA]] hands the item to the consumer, then runs the endish
    check. *)
Lemma EMITDATA_attached v a fl eof ended buf bl q tr :
  EMITDATA v (live m a sig c fl eof ended true buf bl q tr)
  = (MAYBE_EMIT_END ;; ret (heard c))
      (live m a sig c fl eof ended true buf bl q (tr ++ deliveries c v)).
Proof.
  unfold EMITDATA, EMITDATA_with.
  open_live; exec; rewrite ?accepting; exec.
  all: dispatch_plain; exec; rewrite <- ?app_assoc; reflexivity.
Qed.

Lemma EMITDATA_live v a fl eof ended buf bl q tr :
  idle eof ended buf ->
  EMITDATA v (live m a sig c fl eof ended true buf bl q tr)
  = Ret (heard c) (live m a sig c fl eof ended true buf bl q
                     (tr ++ deliveries c v)).
Proof.
  intro Hidle. rewrite EMITDATA_attached.
  idle_end Hidle. reflexivity.
Qed.

Ltac refold att :=
  try match goal with
  | |- context [mkState ?fl ?p ?pi ?buf ?om ?enc ?a ?dec ?eof ?ended ?eg ?cl
                  ?er ?bl ?de ?sg ?ab ?ndl ?di ?wr ?rd ?reg ?hc ?q ?tr] =>
      change (mkState fl p pi buf om enc a dec eof ended eg cl er bl de sg ab
                ndl di wr rd reg hc q tr)
        with (live m a sig c fl eof ended att buf bl q tr)
  end.

Ltac solve_idle :=
  unfold idle;
  first [ reflexivity
        | apply andb_false_r
        | match goal with |- context [negb ?e] => destruct e; reflexivity end ].

Ltac side := first [ assumption | reflexivity | solve_idle | solve [auto] ].

(** Replace the call at the head by what lemma [L] says it returns. *)
Ltac call att L :=
  refold att;
  first [ erewrite bind_Ret by (apply L; side)
        | rewrite L by side ];
  exec.

Lemma emit_data_live_sync v fl eof ended buf bl q tr :
  deliverable m v = true -> idle eof ended buf ->
  emit (Ev "data") [v] (live m false sig c fl eof ended true buf bl q tr)
  = Ret (heard c) (live m false sig c fl eof ended true buf bl q
                     (tr ++ Emit (Ev "data") [v] :: deliveries c v)).
Proof.
  intros Hv Hidle. rewrite emit_data_sync by (first [reflexivity | exact Hv]).
  exec. call true EMITDATA_live. rewrite <- app_assoc. reflexivity.
Qed.

Lemma emit_data_live_async v fl eof ended att buf bl q tr :
  deliverable m v = true ->
  emit (Ev "data") [v] (live m true sig c fl eof ended att buf bl q tr)
  = Ret true (live m true sig c fl eof ended att buf bl
                (q ++ [TEmitData v]) (tr ++ [Emit (Ev "data") [v]])).
Proof.
  intro Hv. rewrite emit_data_async by (first [reflexivity | exact Hv]).
  reflexivity.
Qed.

Lemma run_cb_live a cb fl eof ended att buf bl q tr :
  run_cb a cb (live m a sig c fl eof ended att buf bl q tr)
  = Ret tt (live m a sig c fl eof ended att buf bl
              (q ++ cb_tasks a cb) (tr ++ cb_effects a cb)).
Proof.
  destruct cb as [f|], a; unfold run_cb; exec; cbn [cb_tasks cb_effects];
    rewrite ?app_nil_r; reflexivity.
Qed.

Lemma BUFFERPUSH_live v a fl eof ended att buf bl q tr :
  BUFFERPUSH v (live m a sig c fl eof ended att buf bl q tr)
  = Ret tt (live m a sig c fl eof ended att (buf ++ [v])
              (bl + item_size (om_of m) v) q tr).
Proof. destruct m; unfold BUFFERPUSH; exec; reflexivity. Qed.

Lemma signal_readable a fl ended att buf bl q tr :
  when (negb (bl =? 0)%Z) (emit (Ev "readable") [] ;; ret tt)
    (live m a sig c fl false ended att buf bl q tr)
  = Ret tt (live m a sig c fl false ended att buf bl q
              (tr ++ readable_effects bl)).
Proof.
  unfold readable_effects. exec. destruct (bl =? 0)%Z; exec.
  - rewrite app_nil_r. reflexivity.
  - call att emit_unheard_live. reflexivity.
Qed.

(** While the stream does not flow, a write appends to the buffer. *)
Lemma write_tail_buffering a att cb v buf bl q tr :
  write_tail a cb v (live m a sig c false false false att buf bl q tr)
  = Ret false
      (live m a sig c false false false att (buf ++ [v])
         (bl + item_size (om_of m) v) (q ++ cb_tasks a cb)
         (tr ++ readable_effects (bl + item_size (om_of m) v)
             ++ cb_effects a cb)).
Proof.
  unfold write_tail. exec.
  call att BUFFERPUSH_live.
  call att signal_readable.
  call att run_cb_live.
  rewrite <- app_assoc. reflexivity.
Qed.

(** A write of a chunk of length zero. *)
Lemma write_skip_live a att cb fl buf bl q tr :
  write_skip a cb (live m a sig c fl false false att buf bl q tr)
  = Ret fl
      (live m a sig c fl false false att buf bl (q ++ cb_tasks a cb)
         (tr ++ readable_effects bl ++ cb_effects a cb)).
Proof.
  unfold write_skip. exec.
  call att signal_readable.
  call att run_cb_live.
  rewrite <- app_assoc. reflexivity.
Qed.

(** What one item adds to the queue and to the trace while the stream
    flows. *)
Definition flow_tasks (a : bool) (v : value) : list task :=
  if a then [TEmitData v] else [].

Definition flow_effects (a : bool) (v : value) : list effect :=
  Emit (Ev "data") [v] :: (if a then [] else deliveries c v).

Lemma observed_flow w a v :
  observed w c (flow_effects a v) = if a then [] else [v].
Proof.
  unfold flow_effects. destruct a.
  - destruct w, c; reflexivity.
  - change (Emit (Ev "data") [v] :: deliveries c v)
      with ([Emit (Ev "data") [v]] ++ deliveries c v).
    rewrite observed_app, observed_deliveries. destruct w, c; reflexivity.
Qed.

(** While the stream flows, a write emits. *)
Lemma write_tail_flowing a cb v q tr :
  deliverable m v = true ->
  write_tail a cb v (live m a sig c true false false true [] 0 q tr)
  = Ret true
      (live m a sig c true false false true [] 0
         (q ++ flow_tasks a v ++ cb_tasks a cb)
         (tr ++ flow_effects a v ++ cb_effects a cb)).
Proof.
  intro Hv. unfold write_tail, flow_tasks, flow_effects.
  destruct a; exec.
  - call true emit_data_live_async.
    call true run_cb_live.
    rewrite <- !app_assoc. reflexivity.
  - call true emit_data_live_sync.
    call true run_cb_live.
    rewrite <- !app_assoc. reflexivity.
Qed.

(** The items a write hands to the stream: one, or none. *)
Definition chunks (w : write_call) : list value :=
  match prepare (om_of m) (enc_of m) w with
  | Some v => [v]
  | None => []
  end.

Definition payloads (ws : list write_call) : list value :=
  flat_map chunks ws.

Lemma truthy_nonempty (v : value) :
  isString v = true \/ isBuffer v = true ->
  (js_length v =? 0)%Z = false -> truthy v = true.
Proof.
  destruct v; cbn; intros [H|H] Hl; try discriminate; try reflexivity.
  destruct s; [discriminate Hl | reflexivity].
Qed.

Lemma chunks_deliverable (w : write_call) :
  Forall (fun v => deliverable m v = true) (chunks w).
Proof.
  unfold chunks, prepare, deliverable.
  destruct m; cbn [om_of enc_of]; [repeat constructor | |].
  - destruct (Buffer_of (w_chunk w)) eqn:E; try constructor;
      destruct (js_length _ =? 0)%Z eqn:Hz; repeat constructor.
  - destruct (Buffer_of (w_chunk w)) eqn:E; try constructor.
    destruct (js_length _ =? 0)%Z eqn:Hz; repeat constructor.
    apply truthy_nonempty; [left; reflexivity | exact Hz].
Qed.

Lemma write_live (w : write_call) a fl att buf bl q tr :
  supported (om_of m) (enc_of m) w ->
  write (w_chunk w) (w_encoding w) (w_cb w)
    (live m a sig c fl false false att buf bl q tr)
  = match prepare (om_of m) (enc_of m) w with
    | Some v =>
        write_tail a (callback_of w) v
          (live m a sig c fl false false att buf bl q tr)
    | None =>
        write_skip a (callback_of w)
          (live m a sig c fl false false att buf bl q tr)
    end.
Proof.
  intro Hs.
  apply (write_supported (om_of m) (enc_of m) w
           (live m a sig c fl false false att buf bl q tr) Hs);
    try reflexivity.
  intros e He. destruct m; try discriminate He.
  injection He as ->. split; [reflexivity|].
  apply (fresh_decoder e eq_refl).
Qed.

(** A write while the stream does not flow. *)
Lemma do_write_buffering (w : write_call) a att buf bl q tr :
  supported (om_of m) (enc_of m) w ->
  exists tr',
    do_write w (live m a sig c false false false att buf bl q tr)
    = Ret tt
        (live m a sig c false false false att (buf ++ chunks w)
           (bl + total_size (om_of m) (chunks w))
           (q ++ cb_tasks a (callback_of w)) tr')
    /\ grows c tr tr' [].
Proof.
  intro Hs. unfold do_write, chunks, bind.
  rewrite (write_live w _ _ _ _ _ _ _ Hs).
  destruct (prepare (om_of m) (enc_of m) w) as [v|].
  - rewrite write_tail_buffering. eexists. split.
    + cbn [total_size ret]. rewrite Z.add_0_r. reflexivity.
    + apply grows_app. intro w0.
      rewrite observed_app, observed_readable, observed_cb. reflexivity.
  - rewrite write_skip_live. eexists. split.
    + cbn [total_size ret]. rewrite app_nil_r, Z.add_0_r. reflexivity.
    + apply grows_app. intro w0.
      rewrite observed_app, observed_readable, observed_cb. reflexivity.
Qed.

(** A write while the stream flows. *)
Definition flowing_tasks (a : bool) (w : write_call) : list task :=
  flat_map (flow_tasks a) (chunks w) ++ cb_tasks a (callback_of w).

Lemma do_write_flowing (w : write_call) a q tr :
  supported (om_of m) (enc_of m) w ->
  exists tr',
    do_write w (live m a sig c true false false true [] 0 q tr)
    = Ret tt
        (live m a sig c true false false true [] 0
           (q ++ flowing_tasks a w) tr')
    /\ grows c tr tr' (if a then [] else chunks w).
Proof.
  intro Hs. unfold do_write, flowing_tasks, bind.
  rewrite (write_live w _ _ _ _ _ _ _ Hs).
  pose proof (chunks_deliverable w) as Hd. unfold chunks in *.
  destruct (prepare (om_of m) (enc_of m) w) as [v|].
  - rewrite write_tail_flowing by (inversion Hd; assumption).
    eexists. split.
    + cbn [flat_map ret]. rewrite app_nil_r. reflexivity.
    + apply grows_app. intro w0.
      rewrite observed_app, observed_flow, observed_cb, app_nil_r.
      reflexivity.
  - rewrite write_skip_live. eexists. split.
    + reflexivity.
    + apply grows_app. intro w0.
      rewrite observed_app, observed_readable, observed_cb.
      destruct a; reflexivity.
Qed.

(** ** Flushing the buffer to the consumer *)

Lemma BUFFERSHIFT_live v a fl eof ended att buf bl q tr :
  BUFFERSHIFT (live m a sig c fl eof ended att (v :: buf) bl q tr)
  = Ret v (live m a sig c fl eof ended att buf
             (bl - item_size (om_of m) v) q tr).
Proof. destruct m; unfold BUFFERSHIFT; exec; reflexivity. Qed.

(** What a flush of the items [vs] adds to the queue. *)
Definition flush_tasks (a : bool) (vs : list value) : list task :=
  if a then map TEmitData vs else [].

(** The loop of [[FLUSH]] hands every buffered item to the consumer, or
    defers that on an async stream. *)
Lemma FLUSH_loop_live a eof (buf : list value) :
  a = true \/ eof = false ->
  forall v n bl q tr,
    Forall (fun x => deliverable m x = true) (v :: buf) ->
    List.length buf <= n ->
    exists tr',
      FLUSH_loop n (live m a sig c true eof false true (v :: buf) bl q tr)
      = Ret tt
          (live m a sig c true eof false true []
             (bl - total_size (om_of m) (v :: buf))
             (q ++ flush_tasks a (v :: buf)) tr')
      /\ grows c tr tr' (if a then [] else v :: buf).
Proof.
  intro Hmode.
  assert (Hstep : forall v rest bl q tr,
    deliverable m v = true ->
    exists tr',
      FLUSHCHUNK v (live m a sig c true eof false true rest bl q tr)
      = Ret true (live m a sig c true eof false true rest bl
                    (q ++ flow_tasks a v) tr')
      /\ grows c tr tr' (if a then [] else [v])).
  { intros v rest bl q tr Hv. unfold FLUSHCHUNK, flow_tasks.
    destruct a.
    - exec. call true emit_data_live_async.
      eexists. split; [reflexivity|].
      apply grows_app. intro w. destruct w, c; reflexivity.
    - destruct Hmode as [Hm | ->]; [discriminate Hm|].
      exec. call true emit_data_live_sync.
      eexists. split; [rewrite app_nil_r; reflexivity|].
      apply grows_app. intro w. apply (observed_flow w false v). }
  induction buf as [|v' buf IH]; intros v n bl q tr Hd Hn.
  - destruct (Hstep v [] (bl - item_size (om_of m) v)%Z q tr) as (tr1 & E1 & G1).
    { inversion Hd; assumption. }
    exists tr1. split.
    + rewrite FLUSH_loop_unfold.
      rewrite (bind_Ret _ _ _ _ _ (BUFFERSHIFT_live _ _ _ _ _ _ _ _ _ _)).
      rewrite (bind_Ret _ _ _ _ _ E1). exec.
      cbn [total_size]. rewrite Z.add_0_r.
      unfold flush_tasks, flow_tasks. destruct a; reflexivity.
    + exact G1.
  - destruct n as [|n]; [cbn in Hn; lia|].
    destruct (Hstep v (v' :: buf) (bl - item_size (om_of m) v)%Z q tr)
      as (tr1 & E1 & G1).
    { inversion Hd; assumption. }
    destruct (IH v' n (bl - item_size (om_of m) v)%Z (q ++ flow_tasks a v) tr1)
      as (tr2 & E2 & G2).
    { inversion Hd; assumption. }
    { cbn in Hn. lia. }
    exists tr2. split.
    + rewrite FLUSH_loop_unfold.
      rewrite (bind_Ret _ _ _ _ _ (BUFFERSHIFT_live _ _ _ _ _ _ _ _ _ _)).
      rewrite (bind_Ret _ _ _ _ _ E1). exec.
      refold true. rewrite E2.
      replace (bl - total_size (om_of m) (v :: v' :: buf))%Z
        with (bl - item_size (om_of m) v
              - total_size (om_of m) (v' :: buf))%Z
        by (cbn [total_size]; lia).
      rewrite <- app_assoc.
      unfold flush_tasks, flow_tasks. destruct a; reflexivity.
    + pose proof (grows_trans _ _ _ _ _ _ G1 G2) as G.
      destruct a; exact G.
Qed.

Lemma RESUME_live a fl eof ended buf bl q tr :
  RESUME (live m a sig c fl eof ended true buf bl q tr)
  = (emit (Ev "resume") [] ;;
     len <- gets (fun s => List.length (BUFFER s)) ;;
     if negb (Nat.eqb len 0) then FLUSH false
     else
       eof <- gets EOF ;;
       if eof then MAYBE_EMIT_END
       else emit (Ev "drain") [] ;; ret tt)
      (live m a sig c true eof ended true buf bl q tr).
Proof. unfold RESUME. open_live; exec; reflexivity. Qed.

Definition resume_effects : list effect :=
  [Emit (Ev "resume") []; Dispatch (Ev "resume") []].

Definition drain_effects (eof : bool) : list effect :=
  if eof then [] else [Emit (Ev "drain") []; Dispatch (Ev "drain") []].

(** Resuming with items in the buffer flushes them. *)
Lemma resume_flush a fl eof v buf bl q tr :
  a = true \/ eof = false ->
  Forall (fun x => deliverable m x = true) (v :: buf) ->
  exists tr',
    RESUME (live m a sig c fl eof false true (v :: buf) bl q tr)
    = Ret tt
        (live m a sig c true eof false true []
           (bl - total_size (om_of m) (v :: buf))
           (q ++ flush_tasks a (v :: buf)) tr')
    /\ grows c tr tr' (if a then [] else v :: buf).
Proof.
  intros Hmode Hd.
  destruct (FLUSH_loop_live a eof buf Hmode v (S (List.length buf)) bl q
              (tr ++ resume_effects) Hd (Nat.le_succ_diag_r _))
    as (tr1 & E1 & G1).
  exists (tr1 ++ drain_effects eof). split.
  - rewrite RESUME_live.
    call true emit_unheard_live.
    unfold FLUSH. exec. refold true.
    rewrite (bind_Ret _ _ _ _ _ E1). exec.
    unfold drain_effects. destruct eof; exec.
    + rewrite app_nil_r. reflexivity.
    + call true emit_unheard_live. reflexivity.
  - intro w. rewrite observed_app, G1, observed_app.
    replace (observed w c resume_effects) with (@nil value)
      by (destruct w, c; reflexivity).
    replace (observed w c (drain_effects eof)) with (@nil value)
      by (destruct eof, w, c; reflexivity).
    rewrite !app_nil_r. reflexivity.
Qed.

(** Resuming with an empty buffer while the input is open. *)
Lemma resume_empty a fl ended bl q tr :
  RESUME (live m a sig c fl false ended true [] bl q tr)
  = Ret tt (live m a sig c true false ended true [] bl q
              (tr ++ resume_effects ++ drain_effects false)).
Proof.
  rewrite RESUME_live.
  call true emit_unheard_live.
  call true emit_unheard_live.
  rewrite <- app_assoc. reflexivity.
Qed.

(** Resuming once 'end' was emitted. *)
Lemma resume_ended a fl bl q tr :
  RESUME (live m a sig c fl true true true [] bl q tr)
  = Ret tt (live m a sig c true true true true [] bl q
              (tr ++ resume_effects)).
Proof.
  rewrite RESUME_live.
  call true emit_unheard_live.
  refold true.
  rewrite MAYBE_EMIT_END_idle by reflexivity.
  reflexivity.
Qed.

(** Resuming while the input is open: what was buffered goes out. *)
Lemma resume_open a fl buf q tr :
  Forall (fun x => deliverable m x = true) buf ->
  exists tr',
    RESUME (live m a sig c fl false false true buf
              (total_size (om_of m) buf) q tr)
    = Ret tt
        (live m a sig c true false false true [] 0
           (q ++ flush_tasks a buf) tr')
    /\ grows c tr tr' (if a then [] else buf).
Proof.
  intro Hd. destruct buf as [|v buf].
  - eexists. split.
    + rewrite resume_empty. unfold flush_tasks.
      destruct a; cbn [map total_size]; rewrite app_nil_r; reflexivity.
    + apply grows_app. intro w. destruct a, w, c; reflexivity.
  - destruct (resume_flush a fl false v buf
                (total_size (om_of m) (v :: buf)) q tr
                (or_intror eq_refl) Hd) as (tr1 & E1 & G1).
    rewrite Z.sub_diag in E1. eauto.
Qed.

(** ** Attaching the consumer *)

Definition attach (c : consumer) : M unit :=
  match c with
  | Listener h => on (Ev "data") (Handler h)
  | PipeTo d opts => pipe d opts ;; ret tt
  end.

(** A 'data' listener and a pipe on a sync stream start the flow at
    once; a pipe on an async stream defers that. *)
Definition immediate (a : bool) (c : consumer) : bool := negb a || heard c.

Definition attach_effects (c : consumer) : list effect :=
  match c with
  | Listener _ => []
  | PipeTo d _ => [DestOnDrain (wid d)]
  end.

Lemma bind_ret_const {A : Type} (mu : M unit) (x : A) (s : state) :
  (mu ;; ret x ;; ret tt) s = mu s.
Proof. unfold bind. destruct (mu s) as [[] s'|e s']; reflexivity. Qed.

Lemma attach_live a buf bl q tr :
  attach c (live m a sig c false false false false buf bl q tr)
  = if immediate a c
    then RESUME (live m a sig c false false false true buf bl q
                   (tr ++ attach_effects c))
    else Ret tt (live m a sig c false false false true buf bl
                   (q ++ [TResume]) (tr ++ attach_effects c)).
Proof.
  unfold attach, immediate. open_live.
  - unfold on, on_listener, super_on.
    destruct a; exec; cbn [heard attach_effects app]; rewrite ?app_nil_r;
      reflexivity.
  - unfold pipe. fold (options_of o). fold (proxies o). rewrite Hp.
    unfold on, on_listener, super_on.
    destruct a;
      repeat (progress (exec; unfold isEndish;
                        cbn [heard attach_effects app truthy])).
    + reflexivity.
    + apply bind_ret_const.
  - unfold pipe. fold (options_of o). fold (proxies o). rewrite Hp.
    destruct a;
      repeat (progress (exec; cbn [heard attach_effects app truthy])).
    + reflexivity.
    + apply bind_ret_const.
Qed.

(** ** Ending *)

Lemma remove_last_single {A : Type} (p : A -> bool) (x : A) :
  p x = true -> remove_last p [x] = [].
Proof. intro H. unfold remove_last. cbn. rewrite H. reflexivity. Qed.

(** The listener table once the pipes were ended: a pipe that proxied
    errors took its 'error' listener away. *)
Definition closed_registry (c : consumer) : list (event * listener) :=
  match c with
  | Listener _ => reg_of c
  | PipeTo _ _ => []
  end.

Definition closing_effects (c : consumer) : list effect :=
  match c with
  | Listener _ => [Dispatch (Ev "end") []]
  | PipeTo d o =>
      DestOffDrain (wid d)
      :: (if effective_end d (options_of o) then [DestEnd (wid d)] else [])
      ++ [Dispatch (Ev "end") []]
  end.

Lemma observed_closing w : observed w c (closing_effects c) = [].
Proof.
  destruct w, c as [h|d o]; try reflexivity;
    cbn; destruct (effective_end d (options_of o)); reflexivity.
Qed.

(** [[EMITEND2]] with the consumer attached and nothing in the decoder:
    the pipes are ended and 'end' is dispatched. *)
Lemma EMITEND2_attached (s : state) :
  PIPES s = pipes_of c -> registry s = reg_of c ->
  DECODER s = dec_of m -> ENCODING s = enc_of m ->
  EMITEND2 s
  = Ret false
      (set_registry (closed_registry c)
         (set_trace (trace s ++ closing_effects c) s)).
Proof.
  destruct s. cbn [PIPES registry DECODER ENCODING]. intros -> -> -> ->.
  assert (Hdec : forall e, m = TextMode e -> decoder_end e [] = "")
    by (intros e He; apply (fresh_decoder e He)).
  clear fresh_decoder accepting.
  unfold EMITEND2, encoding_name.
  destruct c as [h|d o]; [|unfold reg_of; destruct (proxies o) eqn:Hp];
    cbn [pipes_of reg_of closed_registry closing_effects]; rewrite ?Hp;
    (destruct m as [| |e]; cbn [dec_of enc_of];
     [| |exec; rewrite (Hdec e eq_refl);
         change (truthy (VStr "")) with false]);
    unfold Pipe_end, Pipe_unpipe, removeListener, off, off_with, super_off;
    exec;
    rewrite ?remove_last_single by (cbn; apply dest_id_eqb_refl);
    try destruct (effective_end d (options_of o));
    exec; dispatch_plain; unfold removeAllListeners; exec;
    cbn [filter fst]; exec; rewrite <- ?app_assoc; reflexivity.
Qed.

Definition finishing_effects : list effect :=
  [Emit (Ev "prefinish") []; Dispatch (Ev "prefinish") [];
   Emit (Ev "finish") []; Dispatch (Ev "finish") []].

(** The stream once [[EMITEND2]] ran. *)
Definition finished (a fl : bool) (bl : Z) (q : list task)
    (tr : list effect) : state :=
  set_registry (closed_registry c)
    (live m a sig c fl true true true [] bl q tr).

(** On an async stream the endish check defers [[EMITEND2]]. *)
Lemma MAYBE_EMIT_END_async fl bl q tr :
  MAYBE_EMIT_END (live m true sig c fl true false true [] bl q tr)
  = Ret tt (live m true sig c fl true true true [] bl (q ++ [TEmitEnd2])
              (tr ++ Emit (Ev "end") [] :: finishing_effects)).
Proof.
  unfold MAYBE_EMIT_END, end_guard, live. exec.
  unfold emit_with, EMITEND. exec.
  split_consumer;
    dispatch_plain; unfold removeAllListeners;
    repeat (progress (exec; cbn [filter fst]));
    dispatch_plain;
    repeat (progress (exec; cbn [filter fst]));
    unfold modify; rewrite <- ?app_assoc; reflexivity.
Qed.

(** On a sync stream the endish check runs [[EMITEND2]] at once. *)
Lemma MAYBE_EMIT_END_sync fl bl q tr :
  MAYBE_EMIT_END (live m false sig c fl true false true [] bl q tr)
  = Ret tt (finished false fl bl q
              (tr ++ Emit (Ev "end") [] :: closing_effects c
                  ++ finishing_effects)).
Proof.
  unfold MAYBE_EMIT_END, end_guard, finished, live. exec.
  unfold emit_with, EMITEND. exec.
  erewrite bind_Ret by (apply EMITEND2_attached; reflexivity).
  exec.
  split_consumer; cbn [closed_registry closing_effects reg_of];
    dispatch_plain; unfold removeAllListeners;
    repeat (progress (exec; cbn [filter fst]));
    dispatch_plain;
    repeat (progress (exec; cbn [filter fst]));
    unfold modify; rewrite <- ?app_assoc; reflexivity.
Qed.

(** The last deferred 'data' emission of an ended async stream starts
    the closing sequence. *)
Lemma EMITDATA_last v fl bl q tr :
  EMITDATA v (live m true sig c fl true false true [] bl q tr)
  = Ret (heard c)
      (live m true sig c fl true true true [] bl (q ++ [TEmitEnd2])
         (tr ++ deliveries c v ++ Emit (Ev "end") [] :: finishing_effects)).
Proof.
  rewrite EMITDATA_attached.
  rewrite (bind_Ret _ _ _ _ _ (MAYBE_EMIT_END_async _ _ _ _)).
  rewrite <- app_assoc. reflexivity.
Qed.

Definition end_stream : M unit := end_ ChunkAbsent EncAbsent None.

(** [end()] with items in the buffer only marks the end of the input. *)
Lemma end_buffered a att v buf bl q tr :
  end_stream (live m a sig c false false false att (v :: buf) bl q tr)
  = Ret tt (live m a sig c false true false att (v :: buf) bl q tr).
Proof.
  unfold end_stream, end_. exec. refold att.
  apply MAYBE_EMIT_END_idle. reflexivity.
Qed.

(** [end()] on an async stream with an empty buffer. *)
Lemma end_async_empty fl bl q tr :
  end_stream (live m true sig c fl false false true [] bl q tr)
  = Ret tt (live m true sig c fl true true true [] bl (q ++ [TEmitEnd2])
              (tr ++ Emit (Ev "end") [] :: finishing_effects)).
Proof.
  unfold end_stream, end_. destruct fl; exec; refold true;
    apply MAYBE_EMIT_END_async.
Qed.

(** [end()] on a flowing sync stream. *)
Lemma end_sync bl q tr :
  end_stream (live m false sig c true false false true [] bl q tr)
  = Ret tt (finished false true bl q
              (tr ++ Emit (Ev "end") [] :: closing_effects c
                  ++ finishing_effects)).
Proof.
  unfold end_stream, end_. exec. refold true. apply MAYBE_EMIT_END_sync.
Qed.

(** ** Running the deferred tasks *)

Lemma run_microtasks_done n (s : state) :
  microtasks s = [] -> run_microtasks n s = s.
Proof. intro H. destruct n; cbn [run_microtasks]; rewrite ?H; reflexivity. Qed.

Lemma run_microtasks_add n n' (s : state) :
  run_microtasks (n + n') s = run_microtasks n' (run_microtasks n s).
Proof.
  revert s. induction n as [|n IH]; intro s; [reflexivity|].
  cbn [Nat.add run_microtasks].
  destruct (microtasks s) eqn:E; [|apply IH].
  symmetry. apply run_microtasks_done. exact E.
Qed.

Lemma run_microtasks_more n n' (s : state) :
  microtasks (run_microtasks n s) = [] -> n <= n' ->
  run_microtasks n' s = run_microtasks n s.
Proof.
  intros H Hle. replace n' with (n + (n' - n)) by lia.
  rewrite run_microtasks_add. apply run_microtasks_done. exact H.
Qed.

Definition is_call (t : task) : Prop :=
  match t with TCall _ => True | _ => False end.

(** The tasks queued before [[EMITEND2]] in what follows. *)
Definition simple (t : task) : Prop :=
  match t with
  | TCall _ | TResume | TEmitData _ => True
  | _ => False
  end.

Lemma is_call_simple q : Forall is_call q -> Forall simple q.
Proof.
  apply Forall_impl. intros [ | | | |] H; try contradiction; exact I.
Qed.

Definition call_effects (q : list task) : list effect :=
  flat_map (fun t => match t with TCall f => [CbCalled f] | _ => [] end) q.

Lemma observed_calls w q : observed w c (call_effects q) = [].
Proof.
  induction q as [|t q IH]; [destruct w; reflexivity|].
  unfold call_effects. cbn [flat_map]. rewrite observed_app.
  fold (call_effects q). rewrite IH, app_nil_r.
  destruct t, w, c; reflexivity.
Qed.

Lemma pending_calls q : Forall is_call q -> pending q = [].
Proof.
  induction 1 as [|t q Ht _ IH]; [reflexivity|].
  destruct t; try contradiction. exact IH.
Qed.

Lemma pending_deferred vs : pending (map TEmitData vs) = vs.
Proof.
  induction vs as [|v vs IH]; [reflexivity|].
  cbn [map]. change (pending (TEmitData v :: map TEmitData vs))
    with (v :: pending (map TEmitData vs)).
  rewrite IH. reflexivity.
Qed.

Lemma set_microtasks_live q' a fl eof ended att buf bl q tr :
  set_microtasks q' (live m a sig c fl eof ended att buf bl q tr)
  = live m a sig c fl eof ended att buf bl q' tr.
Proof. reflexivity. Qed.

(** Deferred [write] callbacks run without touching the stream. *)
Lemma drain_calls calls :
  Forall is_call calls ->
  forall a fl eof ended att buf bl q tr,
    run_microtasks (List.length calls)
      (live m a sig c fl eof ended att buf bl (calls ++ q) tr)
    = live m a sig c fl eof ended att buf bl q (tr ++ call_effects calls).
Proof.
  induction 1 as [|t calls Ht _ IH]; intros a fl eof ended att buf bl q tr.
  - cbn. rewrite app_nil_r. reflexivity.
  - destruct t as [ | | |f| ]; try contradiction.
    change (run_microtasks (List.length (TCall f :: calls))
              (live m a sig c fl eof ended att buf bl
                 ((TCall f :: calls) ++ q) tr))
      with (run_microtasks (List.length calls)
              (live m a sig c fl eof ended att buf bl (calls ++ q)
                 (tr ++ [CbCalled f]))).
    rewrite IH, <- app_assoc. reflexivity.
Qed.

(** Once 'end' was emitted, the queue runs out with [[EMITEND2]]. *)
Lemma drain_ended q1 :
  Forall simple q1 ->
  forall fl bl tr,
  exists fl' tr',
    run_microtasks (List.length q1 + 1)
      (live m true sig c fl true true true [] bl (q1 ++ [TEmitEnd2]) tr)
    = finished true fl' bl [] tr'
    /\ grows c tr tr' (pending q1).
Proof.
  induction 1 as [|t q1 Ht _ IH]; intros fl bl tr.
  - exists fl, (tr ++ closing_effects c). split.
    + cbn [List.length Nat.add app run_microtasks live microtasks].
      unfold run_task. rewrite final_bind.
      rewrite EMITEND2_attached by reflexivity.
      reflexivity.
    + apply grows_app. intro w. apply observed_closing.
  - cbn [List.length Nat.add app run_microtasks live microtasks].
    rewrite set_microtasks_live.
    destruct t as [v| | |f| ]; try contradiction; unfold run_task.
    + rewrite final_bind.
      rewrite EMITDATA_live by reflexivity. cbn [final ret].
      destruct (IH fl bl (tr ++ deliveries c v)) as (fl' & tr' & E & G).
      exists fl', tr'. split; [exact E|].
      apply (grows_trans c tr (tr ++ deliveries c v) tr' [v] (pending q1));
        [|exact G].
      apply grows_app. intro w. apply observed_deliveries.
    + refold true. rewrite resume_ended. cbn [final].
      destruct (IH true bl (tr ++ resume_effects)) as (fl' & tr' & E & G).
      exists fl', tr'. split; [exact E|].
      apply (grows_trans c tr (tr ++ resume_effects) tr' [] (pending q1));
        [|exact G].
      apply grows_app. intro w. destruct w, c; reflexivity.
    + destruct (IH fl bl (tr ++ [CbCalled f])) as (fl' & tr' & E & G).
      exists fl', tr'. split; [exact E|].
      apply (grows_trans c tr (tr ++ [CbCalled f]) tr' [] (pending q1));
        [|exact G].
      apply grows_app. intro w. destruct w, c; reflexivity.
Qed.

(** After [end()], the first deferred 'data' emission left starts the
    closing sequence; the others follow it, then [[EMITEND2]]. *)
Lemma drain_flowing calls v q1 :
  Forall is_call calls -> Forall simple q1 ->
  forall bl tr,
  exists fl' tr',
    run_microtasks (List.length calls + (1 + (List.length q1 + 1)))
      (live m true sig c true true false true [] bl
         (calls ++ TEmitData v :: q1) tr)
    = finished true fl' bl [] tr'
    /\ grows c tr tr' (v :: pending q1).
Proof.
  intros Hc Hq bl tr.
  rewrite run_microtasks_add, (drain_calls calls Hc).
  cbn [Nat.add run_microtasks live microtasks].
  rewrite set_microtasks_live. unfold run_task.
  rewrite final_bind, EMITDATA_last. cbn [final ret].
  destruct (drain_ended q1 Hq true bl
              (tr ++ call_effects calls
                  ++ deliveries c v ++ Emit (Ev "end") [] :: finishing_effects))
    as (fl' & tr' & E & G).
  exists fl', tr'. split; [rewrite <- app_assoc; exact E|].
  refine (grows_trans c tr _ tr' [v] (pending q1) _ G).
  apply grows_app. intro w.
  rewrite !observed_app, observed_calls, observed_deliveries.
  destruct w, c; reflexivity.
Qed.

(** After [end()] on an async stream whose pipe has not resumed it yet:
    the deferred resume flushes the buffer, and the queue runs out as
    above. *)
Lemma drain_pending calls1 calls2 v buf :
  Forall is_call calls1 -> Forall is_call calls2 ->
  Forall (fun x => deliverable m x = true) (v :: buf) ->
  forall bl tr,
  exists fl' bl' tr',
    run_microtasks
      (List.length calls1
       + (1 + (List.length calls2 + (1 + (List.length buf + 1)))))
      (live m true sig c false true false true (v :: buf) bl
         (calls1 ++ TResume :: calls2) tr)
    = finished true fl' bl' [] tr'
    /\ grows c tr tr' (v :: buf).
Proof.
  intros Hc1 Hc2 Hd bl tr.
  rewrite run_microtasks_add, (drain_calls calls1 Hc1).
  cbn [Nat.add run_microtasks live microtasks].
  rewrite set_microtasks_live. unfold run_task.
  destruct (resume_flush true false true v buf bl calls2
              (tr ++ call_effects calls1) (or_introl eq_refl) Hd)
    as (tr1 & E1 & G1).
  rewrite E1. cbn [final flush_tasks map].
  destruct (drain_flowing calls2 v (map TEmitData buf) Hc2
              ltac:(apply Forall_forall; intros t Ht;
                    apply in_map_iff in Ht; destruct Ht as (x & <- & _);
                    exact I)
              (bl - total_size (om_of m) (v :: buf))%Z tr1)
    as (fl' & tr' & E & G).
  rewrite length_map, pending_deferred in *.
  exists fl', (bl - total_size (om_of m) (v :: buf))%Z, tr'.
  split; [exact E|].
  intro w. rewrite G, G1, observed_app, observed_calls, !app_nil_r.
  reflexivity.
Qed.

(** ** The stream once everything has run *)

Lemma flat_map_none {A B : Type} (l : list A) :
  flat_map (fun _ : A => @nil B) l = [].
Proof. induction l; auto. Qed.

Lemma flat_map_singleton {A B : Type} (f : A -> B) (l : list A) :
  flat_map (fun x => [f x]) l = map f l.
Proof. induction l as [|x l IH]; cbn; congruence. Qed.

Lemma flowing_tasks_async w :
  flowing_tasks true w
  = map TEmitData (chunks w) ++ cb_tasks true (callback_of w).
Proof.
  unfold flowing_tasks, flow_tasks.
  rewrite (flat_map_singleton TEmitData). reflexivity.
Qed.

(** What holds of the stream once the session is over and the deferred
    tasks have run. *)
Definition settled (out : list value) (s : state) : Prop :=
  microtasks s = [] /\ EMITTED_END s = true
  /\ forall w, observed w c (trace s) = out.

Lemma settled_finished a fl bl tr out :
  grows c [] tr out -> settled out (finished a fl bl [] tr).
Proof.
  intro G. repeat split. intro w.
  change (trace (finished a fl bl [] tr)) with tr.
  rewrite (G w). destruct w; reflexivity.
Qed.

Lemma observed_ending w :
  observed w c (Emit (Ev "end") [] :: finishing_effects) = [].
Proof. destruct w, c; reflexivity. Qed.

Lemma observed_nil w : observed w c [] = [].
Proof. destruct w; reflexivity. Qed.

(** ** Writes and turns of the host, in any order *)

(** What happens to an open stream: a write, or the host running at most
    [k] of the deferred tasks. *)
Inductive action : Type :=
| DoWrite (w : write_call)
| DoTurn (k : nat).

Definition act (x : action) : M unit :=
  match x with
  | DoWrite w => do_write w
  | DoTurn k => fun s => Ret tt (run_microtasks k s)
  end.

Definition acts (xs : list action) : M unit := for_each xs act.

(** The writes among some actions, and the items they hand over. *)
Definition writes_of (xs : list action) : list write_call :=
  flat_map (fun x => match x with DoWrite w => [w] | DoTurn _ => [] end) xs.

Definition handed_over (x : action) : list value :=
  match x with DoWrite w => chunks w | DoTurn _ => [] end.

(** The tasks an async stream queues while it flows. *)
Definition streaming_task (t : task) : Prop :=
  match t with TCall _ | TEmitData _ => True | _ => False end.

Lemma streaming_simple q : Forall streaming_task q -> Forall simple q.
Proof.
  apply Forall_impl. intros [ | | | |] H; try contradiction; exact I.
Qed.

Lemma is_call_streaming q : Forall is_call q -> Forall streaming_task q.
Proof.
  apply Forall_impl. intros [ | | | |] H; try contradiction; exact I.
Qed.

(** The open stream before its consumer is attached: everything handed
    over so far, [out], is in the buffer. *)
Inductive detached (a : bool) (out : list value) : state -> Prop :=
| detached_intro q tr :
    Forall is_call q -> (a = false -> q = []) ->
    Forall (fun v => deliverable m v = true) out ->
    grows c [] tr [] ->
    detached a out
      (live m a sig c false false false false out
         (total_size (om_of m) out) q tr).

(** The open stream with its consumer attached: it flows, and what was
    handed over came out or is deferred; or it is async and waits for the
    deferred resume of its pipe, and what did not come out is in the
    buffer. *)
Inductive attached (a : bool) (out : list value) : state -> Prop :=
| attached_waiting buf calls1 calls2 tr seen :
    a = true ->
    Forall is_call calls1 -> Forall is_call calls2 ->
    Forall (fun v => deliverable m v = true) buf ->
    grows c [] tr seen -> seen ++ buf = out ->
    attached a out
      (live m a sig c false false false true buf
         (total_size (om_of m) buf) (calls1 ++ TResume :: calls2) tr)
| attached_flowing q tr seen :
    Forall streaming_task q -> (a = false -> q = []) ->
    grows c [] tr seen -> seen ++ pending q = out ->
    attached a out (live m a sig c true false false true [] 0 q tr).

Lemma grows_more tr e seen vs :
  grows c [] tr seen -> (forall w, observed w c e = vs) ->
  grows c [] (tr ++ e) (seen ++ vs).
Proof.
  intros G H. apply (grows_trans c [] tr (tr ++ e) seen vs G).
  apply grows_app, H.
Qed.

Lemma grows_quiet tr e seen :
  grows c [] tr seen -> (forall w, observed w c e = []) ->
  grows c [] (tr ++ e) seen.
Proof.
  intros G H. rewrite <- (app_nil_r seen). apply grows_more; assumption.
Qed.

Lemma grows_on tr tr' seen vs :
  grows c [] tr seen -> grows c tr tr' vs -> grows c [] tr' (seen ++ vs).
Proof. apply grows_trans. Qed.

(** One deferred task of a detached stream. *)
Lemma turn_detached a out k (s : state) :
  detached a out s -> detached a out (run_microtasks k s).
Proof.
  revert s. induction k as [|k IH]; intros s H; [exact H|].
  destruct H as [q tr Hq Hs Hd G].
  destruct Hq as [|t q Ht Hq]; [constructor; auto|].
  destruct t as [ | | |f| ]; try contradiction.
  change (run_microtasks (S k)
            (live m a sig c false false false false out
               (total_size (om_of m) out) (TCall f :: q) tr))
    with (run_microtasks k
            (live m a sig c false false false false out
               (total_size (om_of m) out) q (tr ++ [CbCalled f]))).
  apply IH. constructor; auto.
  - intro Ha. discriminate (Hs Ha).
  - apply grows_quiet; [exact G|]. intro w. destruct w, c; reflexivity.
Qed.

Lemma cb_tasks_calls a cb : Forall is_call (cb_tasks a cb).
Proof. destruct cb, a; repeat constructor. Qed.

Lemma cb_tasks_sync cb : cb_tasks false cb = [].
Proof. destruct cb; reflexivity. Qed.

Lemma act_detached a out x (s : state) :
  Forall (supported (om_of m) (enc_of m)) (writes_of [x]) ->
  detached a out s ->
  exists s', act x s = Ret tt s' /\ detached a (out ++ handed_over x) s'.
Proof.
  intros Hx H. destruct x as [w|k].
  - destruct H as [q tr Hq Hs Hd G].
    destruct (do_write_buffering w a false out (total_size (om_of m) out) q tr)
      as (tr' & E & G').
    { inversion Hx; assumption. }
    rewrite <- total_size_app in E.
    eexists. split; [exact E|]. constructor.
    + apply Forall_app. split; [exact Hq | apply cb_tasks_calls].
    + intro Ha. subst a. rewrite (Hs eq_refl), cb_tasks_sync. reflexivity.
    + apply Forall_app. split; [exact Hd | apply chunks_deliverable].
    + rewrite <- (app_nil_r []). apply (grows_on _ _ _ _ G G').
  - eexists. split; [reflexivity|].
    cbn [handed_over]. rewrite app_nil_r. apply turn_detached, H.
Qed.

(** Attaching the consumer. *)
Lemma attach_detached a out (s : state) :
  detached a out s ->
  exists s', attach c s = Ret tt s' /\ attached a out s'.
Proof.
  intros [q tr Hq Hs Hd G]. rewrite attach_live.
  destruct (immediate a c) eqn:Him.
  - destruct (resume_open a false out q (tr ++ attach_effects c) Hd)
      as (tr' & E & G').
    eexists. split; [exact E|].
    apply (attached_flowing a out _ tr' (if a then [] else out)).
    + apply Forall_app. split; [apply is_call_streaming, Hq|].
      unfold flush_tasks. destruct a; [|constructor].
      apply Forall_forall. intros t Ht. apply in_map_iff in Ht.
      destruct Ht as (x & <- & _). exact I.
    + intro Ha. subst a. rewrite (Hs eq_refl). reflexivity.
    + change (if a then [] else out) with ([] ++ if a then [] else out).
      refine (grows_on _ _ _ _ _ G').
      apply grows_quiet; [exact G|]. intro w. destruct w, c; reflexivity.
    + rewrite pending_app, (pending_calls _ Hq). unfold flush_tasks.
      destruct a; [apply pending_deferred | apply app_nil_r].
  - assert (Ha : a = true).
    { unfold immediate in Him. destruct a; [reflexivity|discriminate Him]. }
    eexists. split; [reflexivity|].
    apply (attached_waiting a out out q [] _ []);
      auto using Forall_nil.
    apply grows_quiet; [exact G|]. intro w. destruct w, c; reflexivity.
Qed.

(** One deferred task of a stream with its consumer. *)
Lemma turn_attached a out k (s : state) :
  attached a out s -> attached a out (run_microtasks k s).
Proof.
  revert s. induction k as [|k IH]; intros s H; [exact H|].
  destruct H as [buf calls1 calls2 tr seen Ha H1 H2 Hd G Hout
                | q tr seen Hq Hs G Hout].
  - subst a. destruct H1 as [|t calls1 Ht H1].
    + cbn [app run_microtasks live microtasks].
      rewrite set_microtasks_live. unfold run_task.
      destruct (resume_open true false buf calls2 tr Hd) as (tr' & E & G').
      rewrite E. cbn [final]. apply IH.
      apply (attached_flowing true out _ tr' seen).
      * apply Forall_app. split; [apply is_call_streaming, H2|].
        apply Forall_forall. intros t Ht. apply in_map_iff in Ht.
        destruct Ht as (x & <- & _). exact I.
      * intro Hf. discriminate Hf.
      * rewrite <- (app_nil_r seen). apply (grows_on _ _ _ _ G G').
      * rewrite pending_app, (pending_calls _ H2). cbn [app flush_tasks].
        rewrite pending_deferred. exact Hout.
    + destruct t as [ | | |f| ]; try contradiction.
      change (run_microtasks (S k)
                (live m true sig c false false false true buf
                   (total_size (om_of m) buf)
                   ((TCall f :: calls1) ++ TResume :: calls2) tr))
        with (run_microtasks k
                (live m true sig c false false false true buf
                   (total_size (om_of m) buf)
                   (calls1 ++ TResume :: calls2) (tr ++ [CbCalled f]))).
      apply IH. apply (attached_waiting true out buf calls1 calls2 _ seen);
        auto.
      apply grows_quiet; [exact G|]. intro w. destruct w, c; reflexivity.
  - destruct Hq as [|t q Ht Hq]; [econstructor; eauto|].
    cbn [run_microtasks live microtasks]. rewrite set_microtasks_live.
    destruct t as [v| | |f| ]; try contradiction; unfold run_task.
    + rewrite final_bind, EMITDATA_live by reflexivity. cbn [final ret].
      apply IH. apply (attached_flowing a out q _ (seen ++ [v])).
      * exact Hq.
      * intro Hf. discriminate (Hs Hf).
      * apply grows_more; [exact G|]. intro w. apply observed_deliveries.
      * rewrite <- app_assoc. exact Hout.
    + apply IH. apply (attached_flowing a out q _ seen).
      * exact Hq.
      * intro Hf. discriminate (Hs Hf).
      * apply grows_quiet; [exact G|]. intro w. destruct w, c; reflexivity.
      * exact Hout.
Qed.

Lemma act_attached a out x (s : state) :
  Forall (supported (om_of m) (enc_of m)) (writes_of [x]) ->
  attached a out s ->
  exists s', act x s = Ret tt s' /\ attached a (out ++ handed_over x) s'.
Proof.
  intros Hx H. destruct x as [w|k].
  - assert (Hw : supported (om_of m) (enc_of m) w)
      by (inversion Hx; assumption).
    destruct H as [buf calls1 calls2 tr seen Ha H1 H2 Hd G Hout
                  | q tr seen Hq Hs G Hout].
    + destruct (do_write_buffering w a true buf (total_size (om_of m) buf)
                  (calls1 ++ TResume :: calls2) tr Hw) as (tr' & E & G').
      rewrite <- total_size_app, <- app_assoc in E. cbn [app] in E.
      eexists. split; [exact E|].
      apply (attached_waiting a _ _ calls1 _ tr' seen); auto.
      * apply Forall_app. split; [exact H2 | apply cb_tasks_calls].
      * apply Forall_app. split; [exact Hd | apply chunks_deliverable].
      * rewrite <- (app_nil_r seen). apply (grows_on _ _ _ _ G G').
      * cbn [handed_over]. rewrite app_assoc, Hout. reflexivity.
    + destruct (do_write_flowing w a q tr Hw) as (tr' & E & G').
      eexists. split; [exact E|].
      apply (attached_flowing a _ _ tr'
               (seen ++ if a then [] else chunks w)).
      * apply Forall_app. split; [exact Hq|].
        unfold flowing_tasks. apply Forall_app. split.
        -- unfold flow_tasks. destruct a.
           ++ rewrite (flat_map_singleton TEmitData).
              apply Forall_forall. intros t Ht. apply in_map_iff in Ht.
              destruct Ht as (x & <- & _). exact I.
           ++ rewrite flat_map_none. constructor.
        -- apply is_call_streaming, cb_tasks_calls.
      * intro Ha. subst a. rewrite (Hs eq_refl).
        unfold flowing_tasks, flow_tasks.
        rewrite cb_tasks_sync, flat_map_none. reflexivity.
      * apply (grows_on _ _ _ _ G G').
      * cbn [handed_over]. subst out. destruct a.
        -- rewrite app_nil_r, pending_app, flowing_tasks_async, pending_app.
           rewrite pending_deferred,
             (pending_calls _ (cb_tasks_calls true (callback_of w))).
           rewrite app_nil_r, app_assoc. reflexivity.
        -- rewrite (Hs eq_refl). unfold flowing_tasks, flow_tasks.
           rewrite cb_tasks_sync, flat_map_none.
           cbn [app pending flat_map]. rewrite !app_nil_r. reflexivity.
  - eexists. split; [reflexivity|].
    cbn [handed_over]. rewrite app_nil_r. apply turn_attached, H.
Qed.

(** [end()] on a stream with its consumer, and the deferred tasks that are
    left: everything handed over comes out, then 'end'. *)
Lemma end_attached a out (s : state) :
  attached a out s ->
  exists s1,
    end_stream s = Ret tt s1
    /\ forall n,
         List.length (microtasks s1) + List.length (BUFFER s1) + 1 <= n ->
         settled out (run_microtasks n s1).
Proof.
  intros [buf calls1 calls2 tr seen Ha H1 H2 Hd G Hout
         | q tr seen Hq Hs G Hout].
  - subst a. destruct buf as [|v rest].
    + rewrite end_async_empty. eexists. split; [reflexivity|]. intros n Hn.
      assert (Hq : Forall simple (calls1 ++ TResume :: calls2)).
      { apply Forall_app. split; [apply is_call_simple, H1|].
        constructor; [exact I | apply is_call_simple, H2]. }
      destruct (drain_ended _ Hq false (total_size (om_of m) [])
                  (tr ++ Emit (Ev "end") [] :: finishing_effects))
        as (fl' & tr' & E & G').
      rewrite (run_microtasks_more _ n _
                 ltac:(rewrite E; reflexivity)
                 ltac:(cbn [live microtasks BUFFER List.length] in Hn;
                       rewrite length_app in Hn; cbn [List.length] in Hn;
                       lia)).
      rewrite E. apply settled_finished. subst out.
      refine (grows_on _ _ _ _ (grows_quiet _ _ _ G observed_ending) _).
      rewrite pending_app, (pending_calls _ H1) in G'.
      change (pending (TResume :: calls2)) with (pending calls2) in G'.
      rewrite (pending_calls _ H2) in G'. exact G'.
    + rewrite end_buffered. eexists. split; [reflexivity|]. intros n Hn.
      destruct (drain_pending calls1 calls2 v rest H1 H2 Hd
                  (total_size (om_of m) (v :: rest)) tr)
        as (fl' & bl' & tr' & E & G').
      rewrite (run_microtasks_more _ n _
                 ltac:(rewrite E; reflexivity)
                 ltac:(cbn [live microtasks BUFFER] in Hn;
                       rewrite length_app in Hn; cbn [List.length] in Hn;
                       lia)).
      rewrite E. apply settled_finished. subst out.
      apply (grows_on _ _ _ _ G G').
  - destruct a.
    + rewrite end_async_empty. eexists. split; [reflexivity|]. intros n Hn.
      destruct (drain_ended _ (streaming_simple _ Hq) true 0%Z
                  (tr ++ Emit (Ev "end") [] :: finishing_effects))
        as (fl' & tr' & E & G').
      rewrite (run_microtasks_more _ n _
                 ltac:(rewrite E; reflexivity)
                 ltac:(cbn [live microtasks BUFFER List.length] in Hn;
                       rewrite length_app in Hn; cbn [List.length] in Hn;
                       lia)).
      rewrite E. apply settled_finished. subst out.
      apply (grows_on _ _ _ _ (grows_quiet _ _ _ G observed_ending) G').
    + rewrite (Hs eq_refl) in *. rewrite end_sync.
      eexists. split; [reflexivity|]. intros n Hn.
      rewrite run_microtasks_done by reflexivity.
      apply settled_finished. subst out. cbn [pending flat_map].
      rewrite app_nil_r. apply grows_quiet; [exact G|]. intro w.
      change (Emit (Ev "end") [] :: closing_effects c ++ finishing_effects)
        with ([Emit (Ev "end") []] ++ closing_effects c ++ finishing_effects).
      rewrite !observed_app, observed_closing. destruct w, c; reflexivity.
Qed.

Lemma writes_of_cons x xs : writes_of (x :: xs) = writes_of [x] ++ writes_of xs.
Proof. unfold writes_of. cbn [flat_map]. rewrite app_nil_r. reflexivity. Qed.

Lemma payloads_cons x xs :
  payloads (writes_of (x :: xs)) = handed_over x ++ payloads (writes_of xs).
Proof.
  rewrite writes_of_cons. unfold payloads. rewrite flat_map_app.
  destruct x; cbn [writes_of flat_map handed_over app];
    rewrite ?app_nil_r; reflexivity.
Qed.

(** An invariant of single actions is an invariant of their sequences. *)
Lemma acts_preserve (inv : list value -> state -> Prop) :
  (forall out x s,
      Forall (supported (om_of m) (enc_of m)) (writes_of [x]) ->
      inv out s ->
      exists s', act x s = Ret tt s' /\ inv (out ++ handed_over x) s') ->
  forall xs,
    Forall (supported (om_of m) (enc_of m)) (writes_of xs) ->
    forall out s,
      inv out s ->
      exists s',
        acts xs s = Ret tt s' /\ inv (out ++ payloads (writes_of xs)) s'.
Proof.
  intros Hstep. unfold acts.
  induction xs as [|x xs IH]; intros Hxs out s Hs.
  - exists s. split; [reflexivity|]. cbn. rewrite app_nil_r. exact Hs.
  - rewrite writes_of_cons in Hxs. apply Forall_app in Hxs.
    destruct Hxs as [Hx Hxs].
    destruct (Hstep out x s Hx Hs) as (s1 & E1 & H1).
    destruct (IH Hxs _ s1 H1) as (s2 & E2 & H2).
    exists s2. split.
    + cbn [for_each]. rewrite (bind_Ret _ _ _ _ _ E1). exact E2.
    + rewrite payloads_cons, app_assoc. exact H2.
Qed.

(** Writes and turns, then the consumer is attached, then more writes and
    turns, then [end()]. *)
Definition session (xs1 xs2 : list action) : M unit :=
  acts xs1 ;; attach c ;; acts xs2 ;; end_stream.

Lemma session_settles a (xs1 xs2 : list action) :
  Forall (supported (om_of m) (enc_of m)) (writes_of xs1) ->
  Forall (supported (om_of m) (enc_of m)) (writes_of xs2) ->
  exists s1,
    session xs1 xs2 (live m a sig c false false false false [] 0 [] [])
    = Ret tt s1
    /\ forall n,
         List.length (microtasks s1) + List.length (BUFFER s1) + 1 <= n ->
         settled (payloads (writes_of xs1) ++ payloads (writes_of xs2))
           (run_microtasks n s1).
Proof.
  intros H1 H2. unfold session.
  assert (H0 : detached a []
                 (live m a sig c false false false false [] 0 [] [])).
  { apply (detached_intro a [] [] []); auto using grows_refl. }
  destruct (acts_preserve (detached a) (fun out x s => act_detached a out x s)
              xs1 H1 _ _ H0) as (s1 & E1 & D1).
  destruct (attach_detached a _ s1 D1) as (s2 & E2 & A2).
  destruct (acts_preserve (attached a) (fun out x s => act_attached a out x s)
              xs2 H2 _ _ A2) as (s3 & E3 & A3).
  destruct (end_attached a _ s3 A3) as (s4 & E4 & Hn).
  exists s4. split; [|exact Hn].
  rewrite (bind_Ret _ _ _ _ _ E1), (bind_Ret _ _ _ _ _ E2),
    (bind_Ret _ _ _ _ _ E3). exact E4.
Qed.

End DataFlow.

(** ** From construction to the last deferred task *)

(** The payload mode chosen by the options of the constructor. *)
Definition mode_of (o : Options) : mode :=
  if o_objectMode o then ObjectMode
  else if isEncodingOptions o then
    match o_encoding o with Some e => TextMode e | None => BytesMode end
  else BytesMode.

(** Options the constructor accepts, with no signal or one that has not
    fired. *)
Definition well_formed (o : Options) : Prop :=
  o_objectMode o
  && match o_encoding o with Some _ => true | None => false end = false
  /\ match o_signal o with Some sg => aborted sg = false | None => True end.

Lemma new_live {codec : Codec} (o : Options) (c : consumer) :
  well_formed o ->
  new o
  = Ret tt (live (mode_of o) (truthy (o_async o)) (o_signal o) c
              false false false false [] 0 [] []).
Proof.
  intros [Hc Hs]. unfold new, constructor, mode_of, isEncodingOptions in *.
  rewrite Hc.
  destruct (o_objectMode o); cbn [negb andb] in *.
  - destruct (o_signal o) as [sg|]; [rewrite Hs|]; reflexivity.
  - destruct (o_encoding o) as [e|].
    + destruct (truthy (VStr e) && negb (e =? "buffer")%string);
        (destruct (o_signal o) as [sg|]; [rewrite Hs|]; reflexivity).
    + destruct (o_signal o) as [sg|]; [rewrite Hs|]; reflexivity.
Qed.

(** What was written, as the claim counts it: the items in object mode,
    the bytes of the chunks in bytes mode (the empty string has none), the
    text of the chunks in text mode. *)
Definition written_bytes {codec : Codec} (w : write_call) : list byte :=
  match Buffer_of (w_chunk w) with
  | VBuffer b => b
  | VStr "" => []
  | VStr str => Buffer_from str (encoding_of w)
  | _ => []
  end.

Definition written_text (w : write_call) : string :=
  match w_chunk w with VStr str => str | _ => "" end.

Fixpoint all_text (ws : list write_call) : string :=
  match ws with
  | [] => ""
  | w :: r => (written_text w ++ all_text r)%string
  end.

Definition matches {codec : Codec} (m : mode) (out : list value)
    (ws : list write_call) : Prop :=
  match m with
  | ObjectMode => out = map w_chunk ws
  | BytesMode => concat_bytes out = flat_map written_bytes ws
  | TextMode _ => join out = all_text ws
  end.

Lemma length_zero_string (str : string) :
  (js_length (VStr str) =? 0)%Z = true -> str = "".
Proof. destruct str; [reflexivity|discriminate]. Qed.

Lemma length_zero_bytes (b : list byte) :
  (js_length (VBuffer b) =? 0)%Z = true -> b = [].
Proof. destruct b; [reflexivity|discriminate]. Qed.

Lemma concat_bytes_app a b :
  concat_bytes (a ++ b) = concat_bytes a ++ concat_bytes b.
Proof.
  induction a as [|v a IH]; [reflexivity|].
  destruct v; cbn [app concat_bytes]; rewrite ?IH, ?app_assoc; reflexivity.
Qed.

Lemma join_app a b : join (a ++ b) = (join a ++ join b)%string.
Proof.
  induction a as [|v a IH]; [reflexivity|].
  destruct v; cbn [app join]; rewrite ?IH; try reflexivity.
  induction s as [|ch s IHs]; cbn; congruence.
Qed.

(** The items handed to the stream are what was written. *)
Lemma payloads_match {codec : Codec} (m : mode) (ws : list write_call) :
  Forall (supported (om_of m) (enc_of m)) ws ->
  matches m (payloads m ws) ws.
Proof.
  unfold payloads, matches.
  induction 1 as [|w ws Hw _ IH]; [destruct m; reflexivity|].
  destruct m as [| |e]; cbn [flat_map map all_text].
  - rewrite IH. reflexivity.
  - rewrite concat_bytes_app, IH. f_equal.
    unfold chunks, prepare, supported, written_bytes in *.
    cbn [om_of enc_of] in *.
    destruct (w_chunk w) as [| | | |str|b|b|b off len| |]; try contradiction;
      cbn [Buffer_of];
      match goal with
      | |- context [(js_length ?x =? 0)%Z] =>
          destruct (js_length x =? 0)%Z eqn:Hz
      end;
      try (apply length_zero_string in Hz; subst; reflexivity);
      try (apply length_zero_bytes in Hz; rewrite Hz; reflexivity);
      try (cbn [concat_bytes]; rewrite app_nil_r; reflexivity).
    destruct str; [discriminate Hz|].
    cbn [concat_bytes]. rewrite app_nil_r. reflexivity.
  - rewrite join_app, IH. f_equal.
    unfold chunks, prepare, supported, written_text in *.
    cbn [om_of enc_of] in *.
    destruct (w_chunk w) as [| | | |str| | | | |]; try contradiction.
    cbn [Buffer_of].
    destruct (js_length (VStr str) =? 0)%Z eqn:Hz.
    + apply length_zero_string in Hz. subst. reflexivity.
    + cbn [join]. clear. induction str; cbn; congruence.
Qed.




(** A decoder that keeps what it is given until it is flushed, as a
    decoder does with an incomplete character. *)
Definition retaining : Codec :=
  mkCodec (fun s _ => list_byte_of_string s)
          (fun _ retained chunk => ("", retained ++ chunk))
          (fun _ retained => string_of_list_byte retained)
          (fun _ retained => negb (Nat.eqb (List.length retained) 0)).

(** Outside the writes followed above: on an async text stream piped to
    a sink, a Buffer whose decoding is still empty is buffered as the
    empty string; the deferred resume drops it without running the endish
    check, so 'end' is never emitted and the decoder is never flushed. *)
Example retained_text_stalls_end :
  let c := PipeTo (sink 1) None in
  let o := mkOptions (VBool true) None (Some "utf8") false in
  let xs := [DoWrite (mkWrite (VBuffer [x61]) EncAbsent None)] in
  let s0 := final (new (codec := retaining) o) in
  let s := run_microtasks (codec := retaining) 6
             (final (session (codec := retaining) c [] xs s0)) in
  result (session (codec := retaining) c [] xs s0) = Some tt
  /\ microtasks s = []
  /\ BUFFER s = []
  /\ DECODER s = Some [x61]
  /\ EOF s = true
  /\ EMITTED_END s = false
  /\ observed Handed c (trace s) = [].
Proof. vm_compute. repeat split. Qed.

(** * The public interface as a whole *)

(** [setEncoding(enc)] and the setters of [encoding] and [objectMode]
    throw; the setter of [aborted] does nothing. *)
Definition setEncoding : M unit :=
  throw (VError "Encoding must be set at instantiation time" None).

Definition encoding_setter : M unit :=
  throw (VError "Encoding must be set at instantiation time" None).

Definition objectMode_setter : M unit :=
  throw (VError "objectMode must be set at instantiation time" None).

Definition aborted_setter : M unit := ret tt.

(** A call of a public method by the user of the stream, the signal
    given at construction firing, or the host running the oldest deferred
    task. *)
Inductive command : Type :=
| Cwrite (chunk : value) (encoding : enc_arg) (cb : option nat)
| Cend (chunk : chunk_arg) (encoding : enc_arg) (cb : option nat)
| Cread (n : option Z)
| Cresume
| Cpause
| Cpipe (d : Writable) (opts : option PipeOptions)
| Cunpipe (d : Writable)
| Con (ev : event) (h : nat)
| Conce (ev : event) (h : nat)
| Coff (ev : event) (h : nat)
| CremoveAllListeners (ev : option event)
| Cemit (ev : event) (args : list value)
| Cdestroy (er : value)
| Casync (a : value)
| CsetEncoding
| Cencoding
| CobjectMode
| Caborted
| Csignal (r : value)
| Ctask.

Section Commands.

Context {codec : Codec}.

Definition run_command (c : command) : M unit :=
  match c with
  | Cwrite chunk encoding cb => write chunk encoding cb ;; ret tt
  | Cend chunk encoding cb => end_ chunk encoding cb
  | Cread n => read n ;; ret tt
  | Cresume => resume
  | Cpause => pause
  | Cpipe d opts => pipe d opts ;; ret tt
  | Cunpipe d => unpipe d
  | Con ev h => on ev (Handler h)
  | Conce ev h => once ev (Handler h)
  | Coff ev h => off ev (Handler h)
  | CremoveAllListeners ev => removeAllListeners ev
  | Cemit ev args => emit ev args ;; ret tt
  | Cdestroy er => destroy er
  | Casync a => set_async a
  | CsetEncoding => setEncoding
  | Cencoding => encoding_setter
  | CobjectMode => objectMode_setter
  | Caborted => aborted_setter
  | Csignal r => signal_abort r
  | Ctask => fun s => Ret tt (run_microtasks 1 s)
  end.

(** The state after some commands; a command that throws leaves the state
    it threw in. *)
Definition drive (cs : list command) (s : state) : state :=
  fold_left (fun s c => final (run_command c s)) cs s.

End Commands.

(** * What a stream never undoes *)

(** The stream counts its 'data' listeners in [DATALISTENERS]. *)
Definition counted (s : state) : Prop :=
  DATALISTENERS s = List.length (listeners (Ev "data") s).

(** How often the [close()] method of the stream was called. *)
Fixpoint closes (tr : list effect) : nat :=
  match tr with
  | [] => 0
  | CloseHook :: r => S (closes r)
  | _ :: r => closes r
  end.

Lemma closes_app a b : closes (a ++ b) = closes a + closes b.
Proof.
  induction a as [|e a IH]; [reflexivity|].
  destruct e; cbn [app closes]; rewrite IH; reflexivity.
Qed.

(** [history s s']: what holds between a state and any later one.
    The flags of the life cycle are latched, the mode is fixed, [async]
    is only ever switched on, the count of 'data' listeners stays right,
    and [close()] is called at most once, by the [destroy] that destroys
    the stream. *)
Record history (s s' : state) : Prop := mkHistory {
  h_EOF : EOF s = true -> EOF s' = true;
  h_EMITTED_END : EMITTED_END s = true -> EMITTED_END s' = true;
  h_DESTROYED : DESTROYED s = true -> DESTROYED s' = true;
  h_ABORTED : ABORTED s = true -> ABORTED s' = true;
  h_CLOSED : CLOSED s = true -> CLOSED s' = true;
  h_writable : writable s = false -> writable s' = false;
  h_readable : readable s = false -> readable s' = false;
  h_OBJECTMODE : OBJECTMODE s' = OBJECTMODE s;
  h_ENCODING : ENCODING s' = ENCODING s;
  h_ASYNC : ASYNC s = true -> ASYNC s' = true;
  h_counted : counted s -> counted s';
  h_closes_destroyed :
    DESTROYED s = true -> closes (trace s') = closes (trace s);
  h_closes_live :
    DESTROYED s' = false -> closes (trace s') = closes (trace s);
  h_closes : closes (trace s') <= S (closes (trace s))
}.

#[export] Instance history_Frame : Frame history.
Proof.
  split.
  - intro s. constructor; auto.
  - intros a b c [] []. constructor; auto; try congruence.
    + intro H. rewrite h_closes_destroyed1, h_closes_destroyed0; auto.
    + intro H. rewrite h_closes_live1, h_closes_live0; auto.
      destruct (DESTROYED b) eqn:D; [|reflexivity].
      rewrite (h_DESTROYED1 eq_refl) in H. discriminate H.
    + destruct (DESTROYED b) eqn:D.
      * rewrite h_closes_destroyed1; auto.
      * rewrite (h_closes_live0 eq_refl) in *. exact h_closes1.
Qed.

(** The number of 'data' listeners in a listener table. *)
Definition tally (reg : list (event * listener)) : nat :=
  List.length (listeners_in (Ev "data") reg).

Lemma tally_app a b : tally (a ++ b) = tally a + tally b.
Proof. unfold tally. rewrite listeners_in_app, length_app. reflexivity. Qed.

Lemma tally_cons p reg :
  tally (p :: reg) = (if is_ev (fst p) "data" then 1 else 0) + tally reg.
Proof.
  unfold tally, is_ev. rewrite listeners_in_cons.
  destruct (event_eqb (fst p) (Ev "data")); reflexivity.
Qed.

Lemma tally_rev reg : tally (rev reg) = tally reg.
Proof.
  induction reg as [|p reg IH]; [reflexivity|].
  cbn [rev]. rewrite tally_app, !tally_cons, IH.
  change (tally []) with 0. lia.
Qed.

(** Removing a listener of another event leaves the tally alone. *)
Lemma tally_remove_first (p : event * listener -> bool) reg :
  (forall x, p x = true -> is_ev (fst x) "data" = false) ->
  tally (remove_first p reg) = tally reg.
Proof.
  intro H. induction reg as [|x reg IH]; [reflexivity|].
  cbn [remove_first]. destruct (p x) eqn:E.
  - rewrite tally_cons, (H x E). reflexivity.
  - rewrite !tally_cons, IH. reflexivity.
Qed.

Lemma tally_remove_last (p : event * listener -> bool) reg :
  (forall x, p x = true -> is_ev (fst x) "data" = false) ->
  tally (remove_last p reg) = tally reg.
Proof.
  intro H. unfold remove_last.
  rewrite tally_rev, tally_remove_first, tally_rev; auto.
Qed.

Lemma tally_filter_other (e : event) reg :
  is_ev e "data" = false ->
  tally (filter (fun p => negb (event_eqb (fst p) e)) reg) = tally reg.
Proof.
  intro H. induction reg as [|x reg IH]; [reflexivity|].
  cbn [filter]. destruct (event_eqb (fst x) e) eqn:E; cbn [negb].
  - rewrite tally_cons, IH. apply event_eqb_eq in E. rewrite E, H.
    reflexivity.
  - rewrite !tally_cons, IH. reflexivity.
Qed.

Lemma tally_filter_data reg :
  tally (filter (fun p => negb (event_eqb (fst p) (Ev "data"))) reg) = 0.
Proof.
  induction reg as [|x reg IH]; [reflexivity|].
  cbn [filter]. destruct (event_eqb (fst x) (Ev "data")) eqn:E; cbn [negb].
  - exact IH.
  - rewrite tally_cons. unfold is_ev. rewrite E. exact IH.
Qed.

Lemma selects_event (ev : event) (b : bool) (x : event * listener) :
  is_ev ev "data" = false ->
  event_eqb (fst x) ev && b = true -> is_ev (fst x) "data" = false.
Proof.
  intros H E. apply andb_true_iff in E. destruct E as [E _].
  apply event_eqb_eq in E. rewrite E. exact H.
Qed.

(** A step that touches neither the listener table, nor the count, nor
    a latched flag, nor the mode, and logs no call of [close()]. *)
Ltac history_open :=
  constructor; unfold counted, listeners;
  cbn [EOF EMITTED_END DESTROYED ABORTED CLOSED writable readable OBJECTMODE
       ENCODING ASYNC DATALISTENERS registry trace
       set_FLOWING set_PAUSED set_PIPES set_BUFFER set_OBJECTMODE
       set_ENCODING set_ASYNC set_DECODER set_EOF set_EMITTED_END
       set_EMITTING_END set_CLOSED set_EMITTED_ERROR set_BUFFERLENGTH
       set_DESTROYED set_SIGNAL set_ABORTED set_DATALISTENERS set_DISCARDED
       set_writable set_readable set_registry set_has_close set_microtasks
       set_trace];
  rewrite ?closes_app; cbn [closes];
  repeat match goal with
         | |- context [List.length (listeners_in (Ev "data") ?r)] =>
             change (List.length (listeners_in (Ev "data") r)) with (tally r)
         end.

Ltac history_leaf :=
  intros; history_open;
  first [ reflexivity | assumption | lia | solve [auto using orb_true_r] ].

Ltac history_step :=
  first
    [ keeps_step
    | match goal with
      | |- keeps history (modify _) => apply keeps_modify; history_leaf
      | |- keeps history (log _) => apply keeps_modify; history_leaf
      | |- keeps history (defer _) => apply keeps_modify; history_leaf
      end ].

Ltac history_auto := repeat history_step.

(** What is left of a method, as a method of its own. *)
Ltac split_rest :=
  match goal with
  | |- history ?s (final (?m ?t)) =>
      let K := fresh in
      apply (frame_trans s t);
      [| assert (K : keeps history m); [| exact (K t)] ]
  end.

Ltac rest_keeps :=
  match goal with
  | |- history ?t (final (?m ?t)) =>
      let K := fresh in
      assert (K : keeps history m); [| exact (K t)]
  end.

Section History.

Context {codec : Codec}.

Lemma keeps_history_call fn ev args : keeps history (call fn ev args).
Proof. unfold call. history_auto. Qed.

(** The tail of [off] puts the count right again. *)
Lemma keeps_history_off_with (f : list (event * listener) -> list (event * listener))
    (ev : event) :
  (forall reg, is_ev ev "data" = false -> tally (f reg) = tally reg) ->
  keeps history
    (off_with (modify (fun s => set_registry (f (registry s)) s)) ev).
Proof.
  intros Hf s. unfold off_with. run.
  destruct (is_ev ev "data") eqn:E; run.
  - match goal with
    | |- context [when ?b _] => destruct b
    end; run; history_open; auto.
  - history_open; auto. rewrite (Hf _ eq_refl). auto.
Qed.

Lemma keeps_history_off ev fn : keeps history (off ev fn).
Proof.
  unfold off, super_off. apply (keeps_history_off_with (remove_last _) ev).
  intros reg H. apply tally_remove_last. intros x. apply selects_event, H.
Qed.

Lemma keeps_history_invoke ev l args : keeps history (invoke ev l args).
Proof.
  unfold invoke. history_auto; try apply keeps_history_call.
  unfold super_off_wrapper.
  apply (keeps_history_off_with (remove_first _) ev).
  intros reg H. apply tally_remove_first. intros x. apply selects_event, H.
Qed.

Lemma keeps_history_super_emit ev args : keeps history (super_emit ev args).
Proof. unfold super_emit. history_auto. apply keeps_history_invoke. Qed.

Lemma keeps_history_removeAllListeners ev :
  keeps history (removeAllListeners ev).
Proof.
  intro s. unfold removeAllListeners. run.
  destruct ev as [e|].
  - destruct (is_ev e "data") eqn:E; run.
    + apply event_eqb_eq in E. subst e.
      destruct (negb (DISCARDED s) && Nat.eqb (List.length (PIPES s)) 0);
        run; history_open; auto;
        intros _; symmetry; apply tally_filter_data.
    + history_open; auto. intro H. rewrite H. symmetry.
      apply tally_filter_other, E.
  - run.
    destruct (negb (DISCARDED s) && Nat.eqb (List.length (PIPES s)) 0);
      run; history_open; auto.
Qed.

Lemma keeps_history_Pipe_unpipe p : keeps history (Pipe_unpipe p).
Proof.
  unfold Pipe_unpipe, removeListener. history_auto. apply keeps_history_off.
Qed.

Lemma keeps_history_Pipe_end p : keeps history (Pipe_end p).
Proof. unfold Pipe_end. history_auto. apply keeps_history_Pipe_unpipe. Qed.

Lemma keeps_history_pause : keeps history pause.
Proof. unfold pause. history_auto. Qed.

Lemma keeps_history_EMITEND2 : keeps history EMITEND2.
Proof.
  unfold EMITEND2. history_auto;
    first [ apply keeps_history_super_emit
          | apply keeps_history_Pipe_end
          | apply keeps_history_removeAllListeners ].
Qed.

Lemma keeps_history_EMITEND : keeps history EMITEND.
Proof. unfold EMITEND. history_auto. apply keeps_history_EMITEND2. Qed.

Lemma keeps_history_EMITDATA_with (m : M unit) data :
  keeps history m -> keeps history (EMITDATA_with m data).
Proof.
  intro H. unfold EMITDATA_with. history_auto;
    first [ exact H | apply keeps_history_pause
          | apply keeps_history_super_emit ].
Qed.

Lemma keeps_history_emit_with (m : M unit) ev args :
  keeps history m -> keeps history (emit_with m ev args).
Proof.
  intro H. unfold emit_with. history_auto;
    first [ exact H
          | apply keeps_history_EMITEND
          | apply keeps_history_EMITDATA_with; exact H
          | apply keeps_history_super_emit
          | apply keeps_history_removeAllListeners ].
Qed.

Lemma keeps_history_MAYBE_EMIT_END : keeps history MAYBE_EMIT_END.
Proof.
  unfold MAYBE_EMIT_END. history_auto;
    apply keeps_history_emit_with, keeps_ret.
Qed.

Lemma keeps_history_emit ev args : keeps history (emit ev args).
Proof. apply keeps_history_emit_with, keeps_history_MAYBE_EMIT_END. Qed.

Lemma keeps_history_EMITDATA data : keeps history (EMITDATA data).
Proof. apply keeps_history_EMITDATA_with, keeps_history_MAYBE_EMIT_END. Qed.

Lemma keeps_history_BUFFERPUSH chunk : keeps history (BUFFERPUSH chunk).
Proof. unfold BUFFERPUSH. history_auto. Qed.

Lemma keeps_history_BUFFERSHIFT : keeps history BUFFERSHIFT.
Proof. unfold BUFFERSHIFT. history_auto. Qed.

Lemma keeps_history_FLUSH_loop fuel : keeps history (FLUSH_loop fuel).
Proof.
  induction fuel as [|fuel IH]; cbn [FLUSH_loop]; unfold FLUSHCHUNK;
    history_auto;
    first [ apply keeps_history_BUFFERSHIFT | apply keeps_history_emit
          | exact IH ].
Qed.

Lemma keeps_history_FLUSH noDrain : keeps history (FLUSH noDrain).
Proof.
  unfold FLUSH. history_auto;
    first [apply keeps_history_FLUSH_loop | apply keeps_history_emit].
Qed.

Lemma keeps_history_RESUME : keeps history RESUME.
Proof.
  unfold RESUME. history_auto;
    first [ apply keeps_history_FLUSH | apply keeps_history_emit
          | apply keeps_history_MAYBE_EMIT_END ].
Qed.

Lemma keeps_history_run_cb async cb : keeps history (run_cb async cb).
Proof. unfold run_cb. history_auto. Qed.

Lemma keeps_history_write chunk encoding cb :
  keeps history (write chunk encoding cb).
Proof.
  unfold write. history_auto;
    first [ apply keeps_history_FLUSH | apply keeps_history_emit
          | apply keeps_history_BUFFERPUSH | apply keeps_history_run_cb ].
Qed.

Lemma keeps_history_READ n chunk : keeps history (READ n chunk).
Proof.
  unfold READ. history_auto;
    first [apply keeps_history_BUFFERSHIFT | apply keeps_history_emit].
Qed.

Lemma keeps_history_read n : keeps history (read n).
Proof.
  unfold read. history_auto;
    first [apply keeps_history_READ | apply keeps_history_MAYBE_EMIT_END].
Qed.

(** [on]: the listener is registered and, for 'data', counted, before
    anything else happens. *)
Lemma keeps_history_on_listener ev l : keeps history (on_listener ev l).
Proof.
  intro s. unfold on_listener, super_on. run.
  destruct (is_ev ev "data") eqn:E; run.
  - split_rest; [|apply keeps_when, keeps_history_RESUME].
    history_open; auto. intro H.
    rewrite tally_app, tally_cons. cbn [fst]. rewrite E, H.
    change (tally []) with 0. lia.
  - assert (H0 : history s (set_registry (registry s ++ [(ev, l)]) s)).
    { history_open; auto. intro H.
      rewrite tally_app, tally_cons. cbn [fst]. rewrite E, H.
      change (tally []) with 0. lia. }
    split_rest; [exact H0|].
    history_auto;
      first [ apply keeps_history_super_emit
            | apply keeps_history_removeAllListeners
            | apply keeps_history_invoke ].
Qed.

Lemma keeps_history_end chunk encoding cb :
  keeps history (end_ chunk encoding cb).
Proof.
  unfold end_, once. history_auto;
    first [ apply keeps_history_write | apply keeps_history_on_listener
          | apply keeps_history_MAYBE_EMIT_END ].
Qed.

Lemma keeps_history_pipe d opts : keeps history (pipe d opts).
Proof.
  unfold pipe, on. history_auto;
    first [ apply keeps_history_on_listener | apply keeps_history_RESUME ].
Qed.

Lemma keeps_history_unpipe d : keeps history (unpipe d).
Proof. unfold unpipe. history_auto. all: apply keeps_history_Pipe_unpipe. Qed.

(** [destroy]: [close()] is called while the stream goes from live to
    destroyed, never later. *)
Lemma keeps_history_destroy er : keeps history (destroy er).
Proof.
  intro s. unfold destroy. run.
  destruct (DESTROYED s) eqn:D.
  - rest_keeps. history_auto; apply keeps_history_emit.
  - run.
    destruct (has_close s && negb (CLOSED s)); run;
      (split_rest; [| history_auto; apply keeps_history_emit ]);
      history_open; auto; try congruence; try lia.
Qed.

Lemma keeps_history_ABORT : keeps history ABORT.
Proof.
  unfold ABORT. history_auto;
    first [apply keeps_history_emit | apply keeps_history_destroy].
Qed.

Lemma keeps_history_signal_abort r : keeps history (signal_abort r).
Proof. unfold signal_abort. history_auto. apply keeps_history_ABORT. Qed.

Lemma keeps_history_set_async a : keeps history (set_async a).
Proof.
  unfold set_async. apply keeps_modify. intro s. history_open; auto.
  intro H. rewrite H. reflexivity.
Qed.

Lemma keeps_history_run_task t : keeps history (run_task t).
Proof.
  unfold run_task. history_auto;
    first [ apply keeps_history_EMITDATA | apply keeps_history_EMITEND2
          | apply keeps_history_RESUME | apply keeps_history_invoke ].
Qed.

Lemma history_run_microtasks n (s : state) : history s (run_microtasks n s).
Proof.
  revert s. induction n as [|n IH]; intro s; [apply frame_refl|].
  cbn [run_microtasks]. destruct (microtasks s) as [|t rest] eqn:E;
    [apply frame_refl|].
  eapply frame_trans; [|apply IH].
  eapply frame_trans; [|apply keeps_history_run_task].
  history_open; auto.
Qed.

Lemma keeps_history_run_command c : keeps history (run_command c).
Proof.
  destruct c; cbn [run_command];
    try (intro s; apply history_run_microtasks);
    unfold resume, on, once, setEncoding, encoding_setter,
      objectMode_setter, aborted_setter;
    history_auto;
    first [ apply keeps_history_write | apply keeps_history_end
          | apply keeps_history_read | apply keeps_history_RESUME
          | apply keeps_history_pause | apply keeps_history_pipe
          | apply keeps_history_unpipe | apply keeps_history_on_listener
          | apply keeps_history_off | apply keeps_history_removeAllListeners
          | apply keeps_history_emit | apply keeps_history_destroy
          | apply keeps_history_set_async | apply keeps_history_signal_abort ].
Qed.

(** Between a state and the state any sequence of commands leads to. *)
Lemma history_drive cs (s : state) : history s (drive cs s).
Proof.
  revert s. induction cs as [|c cs IH]; intro s; [apply frame_refl|].
  cbn [drive fold_left]. eapply frame_trans; [|apply IH].
  apply keeps_history_run_command.
Qed.

End History.

(** * Methods that always return *)

(** [safe anyhow m]: [m] never throws. *)
Definition anyhow (s s' : state) : Prop := True.

#[export] Instance anyhow_Frame : Frame anyhow.
Proof. split; intros; exact I. Qed.

Lemma returns_safe {A : Type} (R : state -> state -> Prop) (m : M A) :
  safe R m -> safe anyhow m.
Proof. apply safe_weaken. intros; exact I. Qed.

Ltac returns_step :=
  first
    [ safe_step
    | match goal with
      | |- safe anyhow (modify _) => apply safe_modify; intros; exact I
      | |- safe anyhow (log _) => apply safe_modify; intros; exact I
      | |- safe anyhow (defer _) => apply safe_modify; intros; exact I
      end ].

Ltac returns_auto := repeat returns_step.

Lemma bind_inv {A B : Type} (m : M A) (k : A -> M B) (s s' : state) (b : B) :
  bind m k s = Ret b s' ->
  exists a s1, m s = Ret a s1 /\ k a s1 = Ret b s'.
Proof.
  unfold bind. destruct (m s) as [a s1|e s1]; [eauto | discriminate].
Qed.

Section Lifecycle.

Context {codec : Codec}.

Lemma returns_emit ev args : safe anyhow (emit ev args).
Proof. eapply returns_safe, safe_emit. Qed.

Lemma returns_destroy er : safe anyhow (destroy er).
Proof. unfold destroy. returns_auto; apply returns_emit. Qed.

Lemma returns_ABORT : safe anyhow ABORT.
Proof.
  unfold ABORT. returns_auto; first [apply returns_emit | apply returns_destroy].
Qed.

Lemma returns_signal_abort r : safe anyhow (signal_abort r).
Proof. unfold signal_abort. returns_auto. apply returns_ABORT. Qed.

(** X1. The flags of the life cycle are latched: through any sequence of
    commands, a stream that has seen the end of its input, emitted 'end',
    been destroyed, been aborted or been closed stays so, and [writable]
    and [readable] never become true again. *)
Theorem life_cycle_is_latched (cs : list command) (s : state) :
  (EOF s = true -> EOF (drive cs s) = true)
  /\ (EMITTED_END s = true -> EMITTED_END (drive cs s) = true)
  /\ (DESTROYED s = true -> DESTROYED (drive cs s) = true)
  /\ (ABORTED s = true -> ABORTED (drive cs s) = true)
  /\ (CLOSED s = true -> CLOSED (drive cs s) = true)
  /\ (writable s = false -> writable (drive cs s) = false)
  /\ (readable s = false -> readable (drive cs s) = false).
Proof.
  destruct (history_drive cs s). repeat split; assumption.
Qed.

(** X2. The mode of a stream is fixed: no sequence of commands changes
    [objectMode] or [encoding], and none makes an async stream sync; the
    setters of [encoding] and [objectMode] and [setEncoding] throw. *)
Theorem mode_is_fixed (cs : list command) (s : state) :
  OBJECTMODE (drive cs s) = OBJECTMODE s
  /\ ENCODING (drive cs s) = ENCODING s
  /\ (ASYNC s = true -> ASYNC (drive cs s) = true)
  /\ (forall c, In c [CsetEncoding; Cencoding; CobjectMode] ->
                exists e, run_command c s = Throw e s).
Proof.
  destruct (history_drive cs s). repeat split; try assumption.
  intros c [<- | [<- | [<- | []]]]; eexists; reflexivity.
Qed.

(** X3. [close()] is called at most once, by the [destroy] that destroys
    the stream: over any sequence of commands the trace gains at most one
    call, none if the stream was already destroyed, none while it is not
    destroyed. *)
Theorem close_is_called_at_most_once (cs : list command) (s : state) :
  closes (trace (drive cs s)) <= S (closes (trace s))
  /\ (DESTROYED s = true ->
      closes (trace (drive cs s)) = closes (trace s))
  /\ (DESTROYED (drive cs s) = false ->
      closes (trace (drive cs s)) = closes (trace s)).
Proof.
  destruct (history_drive cs s). repeat split; assumption.
Qed.

Lemma counted_blank : counted blank.
Proof. reflexivity. Qed.

Lemma preserves_counted_constructor (o : Options) :
  preserves counted (constructor o).
Proof.
  unfold constructor. preserves_auto.
  apply (preserves_keeps counted history); [|apply keeps_history_ABORT].
  intros s s' []. assumption.
Qed.

Lemma counted_new (o : Options) (s0 : state) :
  new o = Ret tt s0 -> counted s0.
Proof.
  intro H. change s0 with (final (Ret tt s0)). rewrite <- H.
  apply preserves_counted_constructor, counted_blank.
Qed.


Lemma end_sets_EOF chunk encoding cb (s s1 : state) :
  end_ chunk encoding cb s = Ret tt s1 -> EOF s1 = true.
Proof.
  unfold end_. intro H.
  apply bind_inv in H. destruct H as (a & sa & _ & H).
  apply bind_inv in H. destruct H as (b & sb & _ & H).
  change s1 with (final (Ret tt s1)). rewrite <- H. run.
  match goal with
  | |- EOF (final (?m ?t)) = true =>
      apply (h_EOF t (final (m t)));
      [| reflexivity];
      assert (K : keeps history m);
      [| exact (K t)]
  end.
  history_auto. apply keeps_history_MAYBE_EMIT_END.
Qed.

(** X5. Once [end()] has returned, no write is accepted again: in every
    later state, whatever commands led to it, [write] throws
    'write after end' and changes nothing (on an aborted stream it
    returns [false] and changes nothing). *)
Theorem write_after_end chunk encoding cb (s s1 : state)
    (cs : list command) chunk' encoding' cb' :
  end_ chunk encoding cb s = Ret tt s1 ->
  write chunk' encoding' cb' (drive cs s1)
  = if ABORTED (drive cs s1) then Ret false (drive cs s1)
    else Throw (VError "write after end" None) (drive cs s1).
Proof.
  intro H. apply end_sets_EOF in H.
  apply (h_EOF _ _ (history_drive cs s1)) in H.
  unfold write. run. destruct (ABORTED (drive cs s1)); [reflexivity|].
  run. rewrite H. reflexivity.
Qed.

(** What [destroy] emits. *)
Definition destroy_event (er : value) : event :=
  if truthy er then Ev "error" else Sym_DESTROYED.

Definition destroy_args (er : value) : list value :=
  if truthy er then [er] else [].

Lemma destroy_emits er :
  (if truthy er then emit (Ev "error") [er] else emit Sym_DESTROYED [])
  = emit (destroy_event er) (destroy_args er).
Proof. unfold destroy_event, destroy_args. destruct (truthy er); reflexivity. Qed.

Lemma emit_logs ev args (s : state) :
  negb (is_ev ev "error") && negb (is_ev ev "close")
  && negb (event_eqb ev Sym_DESTROYED) && DESTROYED s = false ->
  exists r s' l,
    emit ev args s = Ret r s'
    /\ trace s' = trace s ++ Emit ev args :: l
    /\ emit_core s' = emit_core s.
Proof.
  intro G. unfold emit, emit_with. run. rewrite G. run.
  match goal with
  | |- exists r s' l, ?m ?t = _ /\ _ =>
      assert (S : safe (emit_frame any_effect) m)
  end.
  { safe_auto;
      first [ apply safe_MAYBE_EMIT_END
            | apply safe_EMITEND
            | apply safe_EMITDATA
            | eapply safe_dispatch_emit, safe_super_emit
            | eapply safe_dispatch_emit, (safe_removeAllListeners any_effect) ]. }
  match goal with
  | |- exists r s' l, ?m ?t = _ /\ _ =>
      destruct (S t) as (r & s' & E & F & (l & T & _))
  end.
  exists r, s', l. split; [exact E|]. split.
  - rewrite T. cbn [trace set_trace]. rewrite <- app_assoc. reflexivity.
  - rewrite F. reflexivity.
Qed.

(** [destroy] on a stream that is not destroyed. *)
Lemma destroy_live (er : value) (s : state) :
  DESTROYED s = false ->
  exists s1 l,
    destroy er s = Ret tt s1
    /\ DESTROYED s1 = true
    /\ BUFFER s1 = [] /\ BUFFERLENGTH s1 = 0%Z
    /\ trace s1
       = trace s
         ++ (if has_close s && negb (CLOSED s) then [CloseHook] else [])
         ++ Emit (destroy_event er) (destroy_args er) :: l.
Proof.
  intro D. unfold destroy. run. rewrite D. run. rewrite destroy_emits.
  assert (G : forall t, DESTROYED t = true ->
    negb (is_ev (destroy_event er) "error")
    && negb (is_ev (destroy_event er) "close")
    && negb (event_eqb (destroy_event er) Sym_DESTROYED) && DESTROYED t = false).
  { intros t _. unfold destroy_event. destruct (truthy er); reflexivity. }
  destruct (has_close s && negb (CLOSED s)); run;
    match goal with
    | |- context [bind (emit ?ev ?args) ?k ?t] =>
        destruct (emit_logs ev args t (G t eq_refl)) as (r & s1 & l & E & T & F);
        rewrite (bind_Ret _ k _ _ _ E); clear E
    end;
    exists s1, l; fields F; cbn in *;
    repeat split; try congruence.
  rewrite T, <- app_assoc. reflexivity.
Qed.


Lemma destroy_destroys er (s : state) :
  DESTROYED (final (destroy er s)) = true.
Proof.
  destruct (DESTROYED s) eqn:D.
  - apply (h_DESTROYED s _ (keeps_history_destroy er s)), D.
  - destruct (destroy_live er s D) as (s1 & l & E & H & _).
    rewrite E. exact H.
Qed.

(** X7. When the signal given at construction fires, the stream is
    aborted and destroyed; if it was not destroyed before, 'abort' is
    emitted with the reason and the buffer is dropped.  From then on, in
    every later state, [write] returns [false] and changes nothing. *)
Theorem abort_is_final (r : value) (sg : AbortSignal) (s : state) :
  SIGNAL s = Some sg ->
  exists s1,
    signal_abort r s = Ret tt s1
    /\ ABORTED s1 = true /\ DESTROYED s1 = true
    /\ (DESTROYED s = false ->
        BUFFER s1 = [] /\ BUFFERLENGTH s1 = 0%Z
        /\ exists l, trace s1 = trace s ++ Emit (Ev "abort") [r] :: l)
    /\ forall cs chunk encoding cb,
         write chunk encoding cb (drive cs s1) = Ret false (drive cs s1).
Proof.
  intro Hs. destruct (returns_signal_abort r s) as ([] & s1 & E & _).
  exists s1. split; [exact E|].
  unfold signal_abort, ABORT in E. revert E. run. rewrite Hs. run.
  cbn [reason]. intro E.
  assert (Ha : ABORTED s1 = true).
  { change s1 with (final (Ret tt s1)). rewrite <- E.
    match goal with
    | |- ABORTED (final (?m ?t)) = true =>
        apply (h_ABORTED t (final (m t))); [| reflexivity];
        assert (K : keeps history m); [| exact (K t)]
    end.
    history_auto; first [apply keeps_history_emit | apply keeps_history_destroy]. }
  split; [exact Ha|].
  apply bind_inv in E. destruct E as (b & t & Ee & Ed).
  split; [|split].
  - change s1 with (final (Ret tt s1)). rewrite <- Ed. apply destroy_destroys.
  - intro D.
    match type of Ee with
    | emit ?ev ?args ?t0 = _ =>
        destruct (emit_logs ev args t0) as (b' & t' & l & E1 & T1 & F1);
        [cbn; rewrite D; reflexivity|]
    end.
    rewrite E1 in Ee. injection Ee as -> ->. clear E1. fields F1.
    destruct (destroy_live r t) as (s1' & l' & E2 & _ & B & L & T2);
      [congruence|].
    rewrite E2 in Ed. injection Ed as ->.
    split; [exact B|]. split; [exact L|].
    eexists. rewrite T2, T1, <- !app_assoc. reflexivity.
  - intros cs chunk encoding cb.
    apply (h_ABORTED _ _ (history_drive cs s1)) in Ha.
    unfold write. run. rewrite Ha. reflexivity.
Qed.


End Lifecycle.

(** * Reading *)

(** What a stream that is not in object mode holds, as one value: the
    text of a stream with an encoding, the bytes of one without. *)
Definition buffered (s : state) : value :=
  match ENCODING s with
  | Some _ => VStr (join (BUFFER s))
  | None => VBuffer (concat_bytes (BUFFER s))
  end.

(** Every buffered item is of the kind the mode calls for. *)
Definition uniform (s : state) : Prop :=
  Forall (fun v => (match ENCODING s with
                    | Some _ => isString v
                    | None => isBuffer v
                    end) = true) (BUFFER s).

(** Two strings or two Buffers, one after the other. *)
Definition glue (a b : value) : value :=
  match a, b with
  | VStr x, VStr y => VStr (x ++ y)
  | VBuffer x, VBuffer y => VBuffer (x ++ y)
  | _, _ => VUndefined
  end.

Lemma append_empty (x : string) : (x ++ "")%string = x.
Proof. induction x as [|c x IH]; simpl; [reflexivity | rewrite IH; reflexivity]. Qed.

Lemma substring_split (k : nat) (w : string) :
  k <= String.length w ->
  (substring 0 k w ++ substring k (String.length w - k) w)%string = w.
Proof.
  revert k. induction w as [|c w IH]; intros k H; simpl in *.
  - destruct k; reflexivity.
  - destruct k as [|k]; simpl.
    + f_equal. clear. induction w as [|d w IH]; simpl; [reflexivity|].
      f_equal. exact IH.
    + f_equal. apply IH. lia.
Qed.

Lemma total_size_buffers l :
  Forall (fun v => isBuffer v = true) l ->
  total_size false l = Z.of_nat (List.length (concat_bytes l)).
Proof.
  induction 1 as [|v l Hv _ IH]; simpl; [reflexivity|].
  destruct v; try discriminate Hv. unfold item_size. simpl.
  rewrite IH, length_app. lia.
Qed.

Lemma slice_glue (w : value) (k : Z) :
  (isString w || isBuffer w = true) ->
  (0 < k < js_length w)%Z ->
  glue (slice_to w k) (slice_from w k) = w
  /\ js_length (slice_to w k) = k.
Proof.
  intros Hw Hk. destruct w; try discriminate Hw; simpl in *.
  - unfold str_slice, rel_index.
    replace (0 <? 0)%Z with false by reflexivity.
    destruct (k <? 0)%Z eqn:E1; [apply Z.ltb_lt in E1; lia|].
    destruct (Z.of_nat (String.length s) <? 0)%Z eqn:E2;
      [apply Z.ltb_lt in E2; lia|].
    rewrite Z.min_id, (Z.min_l k), (Z.min_l 0) by lia.
    replace (0 <? k)%Z with true by (symmetry; apply Z.ltb_lt; lia).
    replace (k <? Z.of_nat (String.length s))%Z with true
      by (symmetry; apply Z.ltb_lt; lia).
    replace (Z.to_nat 0) with 0 by reflexivity.
    replace (Z.to_nat (Z.of_nat (String.length s) - k))
      with (String.length s - Z.to_nat k) by lia.
    rewrite Z.sub_0_r. split.
    + f_equal. apply substring_split. lia.
    + rewrite substring_length by lia. lia.
  - unfold buf_subarray, rel_index.
    replace (0 <? 0)%Z with false by reflexivity.
    destruct (k <? 0)%Z eqn:E1; [apply Z.ltb_lt in E1; lia|].
    destruct (Z.of_nat (List.length b) <? 0)%Z eqn:E2;
      [apply Z.ltb_lt in E2; lia|].
    rewrite Z.min_id, (Z.min_l k), (Z.min_l 0) by lia.
    replace (0 <? k)%Z with true by (symmetry; apply Z.ltb_lt; lia).
    replace (k <? Z.of_nat (List.length b))%Z with true
      by (symmetry; apply Z.ltb_lt; lia).
    replace (Z.to_nat 0) with 0 by reflexivity.
    rewrite Z.sub_0_r. cbn [skipn]. split.
    + f_equal. rewrite (firstn_all2 (n := Z.to_nat (Z.of_nat (List.length b) - k))).
      * apply firstn_skipn.
      * rewrite length_skipn. lia.
    + rewrite length_firstn. lia.
Qed.

Section Reading.

Context {codec : Codec}.

(** An emission on a stream that is not destroyed returns, logs itself
    first, and leaves the buffer alone. *)
Lemma emit_live ev args (s : state) :
  DESTROYED s = false ->
  exists r s' l,
    emit ev args s = Ret r s'
    /\ trace s' = trace s ++ Emit ev args :: l
    /\ emit_core s' = emit_core s.
Proof.
  intro D. apply emit_logs. rewrite D. apply andb_false_r.
Qed.

Lemma MAYBE_EMIT_END_returns (s : state) :
  exists s' l,
    MAYBE_EMIT_END s = Ret tt s'
    /\ trace s' = trace s ++ l
    /\ emit_core s' = emit_core s.
Proof.
  destruct (safe_MAYBE_EMIT_END s) as ([] & s' & E & F & (l & T & _)).
  exists s', l. auto.
Qed.

(** The end of [[READ]] and of [read], once the chunk is cut off. *)
Lemma read_finish (chunk : value) (s : state) :
  DESTROYED s = false ->
  exists s' l,
    (emit (Ev "data") [chunk] ;;
     r <- (len <- gets (fun s => List.length (BUFFER s)) ;;
           eof <- gets EOF ;;
           when (Nat.eqb len 0 && negb eof) (emit (Ev "drain") [] ;; ret tt) ;;
           ret chunk) ;;
     MAYBE_EMIT_END ;;
     ret r) s = Ret chunk s'
    /\ trace s' = trace s ++ Emit (Ev "data") [chunk] :: l
    /\ emit_core s' = emit_core s.
Proof.
  intro D.
  destruct (emit_live (Ev "data") [chunk] s D) as (r1 & s1 & l1 & E1 & T1 & F1).
  rewrite (bind_Ret _ _ _ _ _ E1). clear E1. run.
  assert (D1 : DESTROYED s1 = false) by (fields F1; congruence).
  destruct (Nat.eqb (List.length (BUFFER s1)) 0 && negb (EOF s1)); run.
  - destruct (emit_live (Ev "drain") [] s1 D1) as (r2 & s2 & l2 & E2 & T2 & F2).
    rewrite (bind_Ret _ _ _ _ _ E2). clear E2. run.
    destruct (MAYBE_EMIT_END_returns s2) as (s3 & l3 & E3 & T3 & F3).
    rewrite (bind_Ret _ _ _ _ _ E3). clear E3. run.
    exists s3, (l1 ++ Emit (Ev "drain") [] :: l2 ++ l3). split; [reflexivity|].
    split; [|congruence].
    rewrite T3, T2, T1, <- !app_assoc. cbn [app]. rewrite <- ?app_assoc.
    reflexivity.
  - destruct (MAYBE_EMIT_END_returns s1) as (s3 & l3 & E3 & T3 & F3).
    rewrite (bind_Ret _ _ _ _ _ E3). clear E3. run.
    exists s3, (l1 ++ l3). split; [reflexivity|].
    split; [|congruence].
    rewrite T3, T1, <- !app_assoc. reflexivity.
Qed.

(** [[READ]] of the whole head, then the end of [read]. *)
Lemma READ_whole (n : option Z) (c : value) (rest : list value) (t : state) :
  DESTROYED t = false ->
  OBJECTMODE t = false ->
  isString c || isBuffer c = true ->
  BUFFER t = c :: rest ->
  n = None \/ n = Some (js_length c) ->
  exists s' l,
    (r <- READ n c ;; MAYBE_EMIT_END ;; ret r) t = Ret c s'
    /\ BUFFER s' = rest
    /\ BUFFERLENGTH s' = (BUFFERLENGTH t - js_length c)%Z
    /\ emit_core s' = emit_core (set_BUFFER rest (set_BUFFERLENGTH (BUFFERLENGTH t - js_length c)%Z t))
    /\ trace s' = trace t ++ Emit (Ev "data") [c] :: l.
Proof.
  intros D Hom Hk B Hn. unfold READ. run. rewrite Hom. run.
  assert (E : (match c with
               | VStr _ | VBuffer _ =>
                   match n with
                   | None => BUFFERSHIFT ;; ret c
                   | Some k =>
                       if (k =? js_length c)%Z then BUFFERSHIFT ;; ret c
                       else
                         modify (fun s =>
                           set_BUFFER (slice_from c k :: tl (BUFFER s)) s) ;;
                         modify (fun s =>
                           set_BUFFERLENGTH (BUFFERLENGTH s - k) s) ;;
                         ret (slice_to c k)
                   end
               | _ => throw (TypeError "Cannot read properties of undefined")
               end) = (BUFFERSHIFT ;; ret c)).
  { destruct c; try discriminate Hk;
      (destruct Hn as [-> | ->]; [reflexivity | rewrite Z.eqb_refl; reflexivity]). }
  rewrite E. clear E. run.
  rewrite (bind_Ret _ _ _ _ _ (BUFFERSHIFT_spec t c rest B)). run.
  rewrite Hom. unfold item_size.
  match goal with
  | |- exists s' l, _ ?u = _ /\ _ =>
      destruct (read_finish c u D) as (s' & l & E & T & F)
  end.
  exists s', l. split; [exact E|].
  pose proof F as F'. fields F. cbn in *.
  repeat split; try assumption. 
Qed.

(** [[READ]] of a part of the head, then the end of [read]. *)
Lemma READ_part (k : Z) (c : value) (rest : list value) (t : state) :
  DESTROYED t = false ->
  OBJECTMODE t = false ->
  isString c || isBuffer c = true ->
  BUFFER t = c :: rest ->
  k <> js_length c ->
  exists s' l,
    (r <- READ (Some k) c ;; MAYBE_EMIT_END ;; ret r) t
    = Ret (slice_to c k) s'
    /\ BUFFER s' = slice_from c k :: rest
    /\ BUFFERLENGTH s' = (BUFFERLENGTH t - k)%Z
    /\ emit_core s'
       = emit_core (set_BUFFERLENGTH (BUFFERLENGTH t - k)%Z
                      (set_BUFFER (slice_from c k :: rest) t))
    /\ trace s' = trace t ++ Emit (Ev "data") [slice_to c k] :: l.
Proof.
  intros D Hom Hk B Hn. unfold READ. run. rewrite Hom. run.
  assert (E : (match c with
               | VStr _ | VBuffer _ =>
                   if (k =? js_length c)%Z then BUFFERSHIFT ;; ret c
                   else
                     modify (fun s =>
                       set_BUFFER (slice_from c k :: tl (BUFFER s)) s) ;;
                     modify (fun s =>
                       set_BUFFERLENGTH (BUFFERLENGTH s - k) s) ;;
                     ret (slice_to c k)
               | _ => throw (TypeError "Cannot read properties of undefined")
               end)
              = (modify (fun s =>
                   set_BUFFER (slice_from c k :: tl (BUFFER s)) s) ;;
                 modify (fun s =>
                   set_BUFFERLENGTH (BUFFERLENGTH s - k) s) ;;
                 ret (slice_to c k))).
  { apply Z.eqb_neq in Hn.
    destruct c; try discriminate Hk; rewrite Hn; reflexivity. }
  rewrite E. clear E. run. rewrite B. cbn [tl].
  match goal with
  | |- exists s' l, _ ?u = _ /\ _ =>
      destruct (read_finish (slice_to c k) u D) as (s' & l & E & T & F)
  end.
  exists s', l. split; [exact E|].
  pose proof F as F'. fields F. cbn in *.
  repeat split; try assumption.
Qed.

Lemma uniform_head (s : state) (c : value) (rest : list value) :
  uniform s -> BUFFER s = c :: rest -> isString c || isBuffer c = true.
Proof.
  unfold uniform. intros Hu B. rewrite B in Hu. inversion Hu as [|? ? H _].
  destruct (ENCODING s); rewrite H; [reflexivity | apply orb_true_r].
Qed.

(** [read] joins the buffer into one item before it cuts. *)
Lemma read_joins (s : state) :
  OBJECTMODE s = false ->
  consistent s ->
  uniform s ->
  BUFFERLENGTH s <> 0%Z ->
  exists t,
    (if Nat.ltb 1 (List.length (BUFFER s)) && true then
       match ENCODING s with
       | Some _ => modify (set_BUFFER [VStr (join (BUFFER s))])
       | None =>
           if (BUFFERLENGTH s <? 0)%Z
           then throw (VError "The value of length is out of range" None)
           else modify (set_BUFFER
                          [VBuffer (Buffer_concat (BUFFER s)
                                      (Z.to_nat (BUFFERLENGTH s)))])
       end
     else ret tt) (set_DISCARDED false s) = Ret tt t
    /\ t = set_BUFFER [buffered s] (set_DISCARDED false s)
    /\ js_length (buffered s) = BUFFERLENGTH s.
Proof.
  intros Hom Hc Hu Hl. unfold consistent in Hc. rewrite Hom in Hc.
  unfold uniform in Hu. unfold buffered.
  destruct (BUFFER s) as [|c [|d rest]] eqn:B.
  - simpl in Hc. contradiction.
  - cbn [List.length Nat.ltb Nat.leb andb]. eexists. split; [reflexivity|].
    inversion Hu as [|? ? H _]. simpl in Hc. unfold item_size in Hc.
    destruct (ENCODING s); destruct c; try discriminate H.
    + cbn [join]. rewrite append_empty. split; [|lia].
      destruct s; cbn in *. subst. reflexivity.
    + cbn [concat_bytes]. rewrite app_nil_r. split; [|lia].
      destruct s; cbn in *. subst. reflexivity.
  - cbn [List.length Nat.ltb Nat.leb andb]. destruct (ENCODING s).
    + eexists. split; [reflexivity|]. split; [reflexivity|].
      rewrite Hc, (total_size_strings _ Hu). reflexivity.
    + rewrite Hc, (total_size_buffers _ Hu).
      replace (_ <? 0)%Z with false by (symmetry; apply Z.ltb_ge; lia).
      eexists. split; [reflexivity|]. rewrite Nat2Z.id.
      unfold Buffer_concat. rewrite firstn_all, Nat.sub_diag, app_nil_r.
      split; reflexivity.
Qed.

(** [read()] on a stream that holds data. *)
Lemma read_whole_buffer (s : state) :
  DESTROYED s = false ->
  OBJECTMODE s = false ->
  consistent s ->
  uniform s ->
  BUFFERLENGTH s <> 0%Z ->
  exists s' l,
    read None s = Ret (buffered s) s'
    /\ BUFFER s' = [] /\ BUFFERLENGTH s' = 0%Z
    /\ trace s' = trace s ++ Emit (Ev "data") [buffered s] :: l.
Proof.
  intros D Hom Hc Hu Hl.
  unfold read. run. rewrite D. run.
  replace (BUFFERLENGTH s =? 0)%Z with false
    by (symmetry; apply Z.eqb_neq; exact Hl).
  cbn [orb]. run. rewrite Hom. cbn [negb]. run.
  destruct (read_joins s Hom Hc Hu Hl) as (t & E & -> & Hj).
  rewrite (bind_Ret _ _ _ _ _ E). clear E. run.
  assert (Hk : isString (buffered s) || isBuffer (buffered s) = true).
  { unfold buffered. destruct (ENCODING s); reflexivity. }
  match goal with
  | |- exists s' l, _ ?u = _ /\ _ =>
      destruct (READ_whole None (buffered s) [] u D Hom Hk eq_refl
                  (or_introl eq_refl))
        as (s' & l & E & B & L & _ & T)
  end.
  exists s', l. split; [exact E|]. split; [exact B|].
  split; [cbn in L; lia | exact T].
Qed.

(** X8. [read()] with no argument, on a stream that is not in object
    mode and holds data, returns all of it as one value, emits it as
    'data', and leaves the buffer empty. *)
Theorem read_takes_everything (s : state) :
  DESTROYED s = false ->
  OBJECTMODE s = false ->
  consistent s ->
  uniform s ->
  BUFFERLENGTH s <> 0%Z ->
  exists s' l,
    read None s = Ret (buffered s) s'
    /\ BUFFER s' = [] /\ BUFFERLENGTH s' = 0%Z
    /\ trace s' = trace s ++ Emit (Ev "data") [buffered s] :: l.
Proof. exact (read_whole_buffer s). Qed.


(** X10. In object mode [read] hands out one item at a time, oldest
    first, whatever [n] is, as long as [n] is not 0 and not more than
    [bufferLength]. *)
Theorem read_takes_one_object (n : option Z) (v : value) (rest : list value)
    (s : state) :
  DESTROYED s = false ->
  OBJECTMODE s = true ->
  BUFFER s = v :: rest ->
  BUFFERLENGTH s <> 0%Z ->
  (forall k, n = Some k -> k <> 0%Z /\ (k <= BUFFERLENGTH s)%Z) ->
  exists s' l,
    read n s = Ret v s'
    /\ BUFFER s' = rest
    /\ BUFFERLENGTH s' = (BUFFERLENGTH s - 1)%Z
    /\ trace s' = trace s ++ Emit (Ev "data") [v] :: l.
Proof.
  intros D Hom B Hl Hn.
  unfold read. run. rewrite D. run.
  replace (BUFFERLENGTH s =? 0)%Z with false
    by (symmetry; apply Z.eqb_neq; exact Hl).
  assert (G : match n with
              | Some k => (k =? 0)%Z || (BUFFERLENGTH s <? k)%Z
              | None => false
              end = false).
  { destruct n as [k|]; [|reflexivity]. destruct (Hn k eq_refl) as [H0 H1].
    apply Z.eqb_neq in H0. rewrite H0. apply Z.ltb_ge. exact H1. }
  rewrite G. cbn [orb]. run. rewrite Hom, andb_false_r. run.
  rewrite B. cbn [hd]. unfold READ. run. rewrite Hom. run.
  rewrite (bind_Ret _ _ _ _ _
             (BUFFERSHIFT_spec (set_DISCARDED false s) v rest B)).
  run. rewrite Hom. unfold item_size.
  match goal with
  | |- exists s' l, _ ?u = _ /\ _ =>
      destruct (read_finish v u D) as (s' & l & E & T & F)
  end.
  exists s', l. split; [exact E|]. fields F. cbn in *.
  repeat split; assumption.
Qed.

End Reading.

(** * Writing to a stream that is not flowing *)

(** Whether the stream flows, and the count of its 'data' listeners. *)
Definition flow (s : state) := (FLOWING s, DATALISTENERS s).

(** What a write to a stream that is not flowing leaves alone, but for
    the buffer. *)
Definition held (s : state) :=
  (ABORTED s, EOF s, DESTROYED s, FLOWING s, OBJECTMODE s, ENCODING s,
   DECODER s, BUFFER s, BUFFERLENGTH s).

Definition calm (s s' : state) : Prop :=
  held s' = held s /\ ext not_data s s'.

#[export] Instance calm_Frame : Frame calm.
Proof.
  split.
  - intro s. split; [reflexivity | apply ext_refl].
  - intros a b c [E1 X1] [E2 X2].
    split; [congruence | eapply ext_trans; eassumption].
Qed.

(** A stream that takes writes and is not flowing. *)
Record parked (s : state) : Prop := mkParked {
  p_ABORTED : ABORTED s = false;
  p_EOF : EOF s = false;
  p_DESTROYED : DESTROYED s = false;
  p_FLOWING : FLOWING s = false;
  p_consistent : consistent s
}.

Section Parked.

Context {codec : Codec}.

(** Dispatching an event other than 'data' changes neither. *)
Lemma keeps_flow_super_emit ev args :
  is_ev ev "data" = false -> keeps (same flow) (super_emit ev args).
Proof.
  intro H. unfold super_emit, invoke, off_with, call. rewrite H. cbn [when].
  keeps_auto. unfold super_off_wrapper. keeps_auto.
Qed.

(** An event with no branch of its own in [emit], on a stream that is
    not destroyed and has not seen the end of its input: the listeners
    are called, and nothing else happens. *)
Lemma emit_readable_live (s : state) :
  DESTROYED s = false ->
  EOF s = false ->
  exists r s',
    emit (Ev "readable") [] s = Ret r s'
    /\ dispatch_core s' = dispatch_core s
    /\ flow s' = flow s
    /\ trace s'
       = trace s ++ Emit (Ev "readable") []
                    :: Dispatch (Ev "readable") []
                    :: map (delivery (Ev "readable") [])
                         (listeners (Ev "readable") s).
Proof.
  intros D E. unfold emit, emit_with. run. rewrite D.
  cbn [is_ev event_eqb String.eqb Ascii.eqb Bool.eqb negb andb orb]. run.
  match goal with
  | |- exists r s', bind (super_emit ?ev ?args) ?k ?t = _ /\ _ =>
      destruct (super_emit_spec ev args t) as (s1 & E1 & R1 & T1 & F1);
      pose proof (keeps_flow_super_emit ev args eq_refl t) as K1;
      rewrite E1 in K1; rewrite (bind_Ret _ k _ _ _ E1); clear E1
  end.
  unfold MAYBE_EMIT_END. run. unfold end_guard.
  fields F1. cbn in *.
  replace (EOF s1) with false by congruence. rewrite !andb_false_r. run.
  eexists. exists s1. split; [reflexivity|].
  split; [unfold dispatch_core; congruence|].
  split; [exact K1|].
  rewrite T1, <- app_assoc. reflexivity.
Qed.

Lemma readable_calm (s : state) :
  DESTROYED s = false ->
  EOF s = false ->
  exists r s', emit (Ev "readable") [] s = Ret r s' /\ calm s s'.
Proof.
  intros D E.
  destruct (emit_readable_live s D E) as (r & s' & Ee & F & K & T).
  exists r, s'. split; [exact Ee|]. split.
  - unfold held. fields F. unfold flow in K. injection K as K1 K2. congruence.
  - eexists. split; [exact T|].
    constructor; [reflexivity|]. constructor; [reflexivity|].
    apply Forall_forall. intros x Hx. apply in_map_iff in Hx.
    destruct Hx as (l & <- & _). unfold delivery.
    destruct (l_fn l); simpl; auto.
Qed.

Lemma run_cb_calm async cb (s : state) :
  exists s', run_cb async cb s = Ret tt s' /\ calm s s'.
Proof.
  unfold run_cb. destruct cb as [f|]; [destruct async|]; run;
    eexists; (split; [reflexivity|]); (split; [reflexivity|]).
  - apply ext_same. reflexivity.
  - eapply ext_one; [reflexivity | exact I].
  - apply ext_refl.
Qed.

(** [write] on a stream that is not flowing. *)
Lemma write_parked (w : write_call) (s : state) :
  parked s ->
  supported (OBJECTMODE s) (ENCODING s) w ->
  (forall e, ENCODING s = Some e ->
             DECODER s = Some [] /\ decoder_lastNeed e [] = false) ->
  exists s',
    write (w_chunk w) (w_encoding w) (w_cb w) s = Ret false s'
    /\ BUFFER s'
       = BUFFER s ++ match prepare (OBJECTMODE s) (ENCODING s) w with
                     | Some v => [v]
                     | None => []
                     end
    /\ parked s'
    /\ OBJECTMODE s' = OBJECTMODE s
    /\ ENCODING s' = ENCODING s
    /\ DECODER s' = DECODER s
    /\ ext not_data s s'.
Proof.
  intros [Ha He Hd Hf Hc] Hsup Hdec.
  rewrite (write_supported (OBJECTMODE s) (ENCODING s) w s Hsup Ha He Hd
             eq_refl eq_refl Hdec).
  assert (Tail : forall t : state,
            DESTROYED t = false -> EOF t = false ->
            exists t',
              (len <- gets BUFFERLENGTH ;;
               when (negb (len =? 0)%Z) (emit (Ev "readable") [] ;; ret tt) ;;
               run_cb (ASYNC s) (callback_of w) ;;
               gets FLOWING) t = Ret (FLOWING t) t'
              /\ calm t t').
  { intros t Dt Et. run.
    destruct (BUFFERLENGTH t =? 0)%Z; cbn [negb]; run.
    - destruct (run_cb_calm (ASYNC s) (callback_of w) t) as (t' & E & C).
      rewrite (bind_Ret _ _ _ _ _ E). run. exists t'.
      destruct C as [H X]. unfold held in H. injection H; intros.
      split; [unfold gets; congruence|].
      split; [unfold held; congruence | exact X].
    - destruct (readable_calm t Dt Et) as (r & t1 & E1 & C1).
      rewrite (bind_Ret _ _ _ _ _ E1). run.
      destruct (run_cb_calm (ASYNC s) (callback_of w) t1) as (t' & E & C).
      rewrite (bind_Ret _ _ _ _ _ E). run. exists t'.
      pose proof (frame_trans _ _ _ C1 C) as [H X].
      destruct C as [H' _].
      unfold held in H, H'. injection H; injection H'; intros.
      split; [unfold gets; congruence|].
      split; [unfold held; congruence | exact X]. }
  destruct (prepare (OBJECTMODE s) (ENCODING s) w) as [v|] eqn:P.
  - unfold write_tail. run. rewrite Hf. cbn [andb]. run. rewrite Hf.
    unfold BUFFERPUSH. run. unfold consistent in Hc.
    assert (Tt : exists s',
              (len <- gets BUFFERLENGTH ;;
               when (negb (len =? 0)%Z) (emit (Ev "readable") [] ;; ret tt) ;;
               run_cb (ASYNC s) (callback_of w) ;;
               gets FLOWING)
                (set_BUFFER (BUFFER s ++ [v])
                   (set_BUFFERLENGTH
                      (BUFFERLENGTH s + item_size (OBJECTMODE s) v)%Z s))
              = Ret false s'
              /\ calm (set_BUFFER (BUFFER s ++ [v])
                         (set_BUFFERLENGTH
                            (BUFFERLENGTH s + item_size (OBJECTMODE s) v)%Z s))
                      s').
    { match goal with
      | |- exists s', _ ?t = _ /\ _ =>
          destruct (Tail t Hd He) as (s' & E & C); exists s'
      end.
      cbn [FLOWING set_BUFFER set_BUFFERLENGTH] in E. rewrite Hf in E.
      split; assumption. }
    destruct Tt as (s' & E & [H X]). exists s'.
    unfold held in H. cbn in H. injection H; intros.
    split.
    { rewrite <- E. unfold item_size.
      destruct (OBJECTMODE s); run; reflexivity. }
    split; [assumption|].
    split; [|repeat split; try congruence; exact X].
    constructor; try congruence. unfold consistent.
    repeat match goal with H : _ s' = _ |- _ => rewrite H; clear H end.
    rewrite total_size_app. cbn [total_size]. lia.
  - unfold write_skip.
    destruct (Tail s Hd He) as (s' & E & [H X]). exists s'.
    rewrite Hf in E. unfold held in H. injection H; intros.
    split; [exact E|]. rewrite app_nil_r.
    repeat split; try congruence; exact X.
Qed.




(** The commands of a list of writes. *)
Definition writes (ws : list write_call) : list command :=
  map (fun w => Cwrite (w_chunk w) (w_encoding w) (w_cb w)) ws.

Lemma writes_wait (m : mode) (ws : list write_call) (s : state) :
  parked s ->
  OBJECTMODE s = om_of m ->
  ENCODING s = enc_of m ->
  (forall e, m = TextMode e ->
             DECODER s = Some [] /\ decoder_lastNeed e [] = false) ->
  Forall (supported (om_of m) (enc_of m)) ws ->
  parked (drive (writes ws) s)
  /\ BUFFER (drive (writes ws) s) = BUFFER s ++ payloads m ws
  /\ OBJECTMODE (drive (writes ws) s) = om_of m
  /\ ENCODING (drive (writes ws) s) = enc_of m
  /\ ext not_data s (drive (writes ws) s).
Proof.
  intros Hp Hom Henc Hdec Hws. revert s Hp Hom Henc Hdec.
  induction Hws as [|w ws Hw _ IH]; intros s Hp Hom Henc Hdec.
  - cbn [writes map drive fold_left payloads flat_map]. rewrite app_nil_r.
    split; [exact Hp|]. split; [reflexivity|]. split; [exact Hom|].
    split; [exact Henc | apply ext_refl].
  - destruct (write_parked w s Hp) as
        (s1 & E & B & Hp1 & Hom1 & Henc1 & Hdec1 & X1).
    + rewrite Hom, Henc. exact Hw.
    + intros e He. apply Hdec. destruct m; cbn in *; congruence.
    + cbn [writes map drive fold_left run_command].
      change (fold_left _ (map _ ws) ?t) with (drive (writes ws) t).
      rewrite (bind_Ret _ _ _ _ _ E). cbn [ret final].
      destruct (IH s1 Hp1) as (Hp2 & B2 & Hom2 & Henc2 & X2);
        try congruence.
      { intros e He. rewrite Hdec1. apply Hdec, He. }
      split; [exact Hp2|]. split.
      { rewrite B2, B, Hom, Henc, <- app_assoc. reflexivity. }
      split; [exact Hom2|]. split; [exact Henc2|].
      eapply ext_trans; eassumption.
Qed.

(** Outside object mode [write] buffers Buffers on a stream without an
    encoding, and strings on one with an encoding. *)
Lemma payloads_uniform (m : mode) (ws : list write_call) :
  om_of m = false ->
  Forall (fun v => match enc_of m with
                   | Some _ => isString v
                   | None => isBuffer v
                   end = true) (payloads m ws).
Proof.
  intro Hm. unfold payloads. induction ws as [|w ws IH]; [constructor|].
  cbn [flat_map]. apply Forall_app. split; [|exact IH].
  unfold chunks, prepare. rewrite Hm.
  destruct (enc_of m), (Buffer_of (w_chunk w)); try constructor;
    match goal with
    | |- context [if ?b then _ else _] => destruct b
    end; repeat constructor.
Qed.


End Parked.

(** * Construction *)

Section Construction.

Context {codec : Codec}.

Lemma named_encoding (e : string) :
  e <> "buffer" -> e <> "" ->
  truthy (VStr e) && negb (e =? "buffer") = true.
Proof.
  intros H1 H2. apply andb_true_iff. split.
  - destruct e; [contradiction | reflexivity].
  - apply negb_true_iff, String.eqb_neq, H1.
Qed.


End Construction.

(** * The list of destinations *)

Section Destinations.

Context {codec : Codec}.

Lemma keeps_pipes_static {A : Type} (m : M A) :
  keeps (same static_part) m -> keeps (same PIPES) m.
Proof.
  apply keeps_weaken. unfold same, static_part. intros s s' H. congruence.
Qed.

Lemma keeps_pipes_emit {A : Type} (m : M A) :
  safe (emit_frame any_effect) m -> keeps (same PIPES) m.
Proof. intro H. apply keeps_pipes_static, keeps_static_safe, H. Qed.

Lemma keeps_pipes_dispatch {A : Type} ok (m : M A) :
  safe (dispatch_frame ok) m -> keeps (same PIPES) m.
Proof. intro H. eapply keeps_pipes_static, keeps_static_dispatch, H. Qed.

Lemma keeps_pipes_run_task t : keeps (same PIPES) (run_task t).
Proof.
  unfold run_task. keeps_auto;
    first [ apply keeps_pipes_emit, safe_EMITDATA
          | apply keeps_pipes_emit; eapply safe_end_emit, safe_EMITEND2
          | apply keeps_pipes_static, keeps_static_RESUME
          | eapply keeps_pipes_dispatch, safe_invoke ].
Qed.

Lemma remove_first_none {A : Type} (p : A -> bool) (l : list A) :
  find p l = None -> remove_first p l = l.
Proof.
  induction l as [|x l IH]; [reflexivity|]. cbn [find remove_first].
  destruct (p x); [discriminate|]. intro H. rewrite IH; auto.
Qed.

Lemma remove_first_one {A : Type} (p : A -> bool) (l : list A) (x : A) :
  find p l = Some x -> List.length l = 1 -> remove_first p l = [].
Proof.
  destruct l as [|y [|z l]]; try discriminate. cbn [find remove_first].
  destruct (p y); [reflexivity | discriminate].
Qed.

Lemma unpipe_removes (d : Writable) (s : state) :
  PIPES (final (unpipe d s))
  = remove_first (fun q => dest_id_eqb (wid (dest q)) (wid d)) (PIPES s).
Proof.
  unfold unpipe. run.
  destruct (find _ (PIPES s)) as [p|] eqn:F.
  - assert (K : forall t, PIPES (final (Pipe_unpipe p t)) = PIPES t).
    { assert (K : keeps (same PIPES) (Pipe_unpipe p)); [|exact K].
      unfold Pipe_unpipe, removeListener. keeps_auto.
      eapply keeps_pipes_dispatch, (safe_off any_effect). }
    destruct (Nat.eqb (List.length (PIPES s)) 1) eqn:L; run.
    + apply Nat.eqb_eq in L. rewrite (remove_first_one _ _ _ F L).
      destruct (FLOWING s && Nat.eqb (DATALISTENERS s) 0); run;
        rewrite K; reflexivity.
    + rewrite K. reflexivity.
  - run. symmetry. apply remove_first_none, F.
Qed.

Lemma pipe_appends (d : Writable) (opts : option PipeOptions) (s : state) :
  PIPES (final (pipe d opts s))
  = if DESTROYED s || EMITTED_END s then PIPES s
    else PIPES s ++ [mkPipe d (effective_end d (options_of opts))
                       (proxies opts)].
Proof.
  unfold pipe, proxies, options_of. run.
  destruct (DESTROYED s); run; [reflexivity|].
  destruct (EMITTED_END s); cbn [orb].
  - destruct (effective_end d _); run; reflexivity.
  - set (o := match opts with Some o => o | None => no_options end).
    set (p := mkPipe d (effective_end d o) (truthy (opt_proxyErrors o))).
    assert (A1 : forall (a : bool) (t : state),
              PIPES t = PIPES s ++ [p] ->
              PIPES (final
                (bind (if a then defer TResume else RESUME)
                   (fun _ => ret d) t))
              = PIPES s ++ [p]).
    { intros a t Pt. destruct a; run; [exact Pt|].
      rewrite final_bind.
      pose proof (keeps_static_RESUME t) as K.
      destruct (RESUME t);
        unfold same, static_part in K; simpl in K; cbn [final ret];
        congruence. }
    run. fold o. fold p.
    destruct (truthy (opt_proxyErrors o)) eqn:Hpe; run.
    + match goal with
      | |- context [bind (on (Ev "error") ?fn) ?k ?t] =>
          destruct (safe_on_error fn t) as ([] & s2 & E & F & _);
          rewrite (bind_Ret _ k _ _ _ E)
      end.
      fields F. run. apply A1. cbn [PIPES set_PIPES]. congruence.
    + apply A1. reflexivity.
Qed.

(** X14. Only [pipe] and [unpipe] change the list of destinations.
    [unpipe(d)] takes out the oldest pipe to [d] and keeps the others in
    order; [pipe(d)] adds one pipe to [d] at the end, or none when the
    stream is destroyed or has emitted 'end'; so [pipe(d)] followed by
    [unpipe(d)] gives back the list, when [d] was not in it. *)
Theorem destinations_change_by_pipe_and_unpipe (c : command) (s : state) :
  PIPES (final (run_command c s))
  = match c with
    | Cpipe d opts =>
        if DESTROYED s || EMITTED_END s then PIPES s
        else PIPES s ++ [mkPipe d (effective_end d (options_of opts))
                           (proxies opts)]
    | Cunpipe d =>
        remove_first (fun q => dest_id_eqb (wid (dest q)) (wid d)) (PIPES s)
    | _ => PIPES s
    end
  /\ forall d opts,
       find (fun q => dest_id_eqb (wid (dest q)) (wid d)) (PIPES s) = None ->
       PIPES (final (unpipe d (final (pipe d opts s)))) = PIPES s.
Proof.
  split.
  - destruct c; cbn [run_command];
      try (match goal with
           | |- PIPES (final (?m ?t)) = PIPES ?t =>
               assert (K : keeps (same PIPES) m); [|exact (K t)]
           end;
           unfold resume, on, once, setEncoding, encoding_setter,
             objectMode_setter, aborted_setter, set_async, signal_abort;
           keeps_auto;
           match goal with
           | |- keeps _ (write _ _ _) =>
               apply keeps_pipes_static, keeps_static_write
           | |- keeps _ (end_ _ _ _) =>
               apply keeps_pipes_static, keeps_static_end
           | |- keeps _ (read _) =>
               apply keeps_pipes_static, keeps_static_read
           | |- keeps _ RESUME =>
               apply keeps_pipes_static, keeps_static_RESUME
           | |- keeps _ pause =>
               apply keeps_pipes_static, keeps_static_pause
           | |- keeps _ (on_listener _ _) =>
               apply keeps_pipes_static, keeps_static_on_listener
           | |- keeps _ (destroy _) =>
               apply keeps_pipes_static, keeps_static_destroy
           | |- keeps _ ABORT =>
               apply keeps_pipes_static, keeps_static_ABORT
           | |- keeps _ (emit _ _) =>
               apply keeps_pipes_static, keeps_static_emit
           | |- keeps _ (off _ _) =>
               eapply keeps_pipes_dispatch, (safe_off any_effect)
           | |- keeps _ (removeAllListeners _) =>
               eapply keeps_pipes_dispatch,
                 (safe_removeAllListeners any_effect)
           end).
    + rewrite final_bind.
      pose proof (pipe_appends d opts s) as H.
      destruct (pipe d opts s); exact H.
    + apply unpipe_removes.
    + cbn [final run_microtasks]. destruct (microtasks s) as [|t rest];
        [reflexivity|].
      apply (keeps_pipes_run_task t (set_microtasks rest s)).
  - intros d opts H. rewrite unpipe_removes, pipe_appends.
    destruct (DESTROYED s || EMITTED_END s).
    + apply remove_first_none, H.
    + rewrite remove_first_skip.
      * cbn [remove_first dest wid]. rewrite dest_id_eqb_refl.
        apply app_nil_r.
      * intros x Hx. destruct (dest_id_eqb (wid (dest x)) (wid d)) eqn:E;
          [|reflexivity].
        pose proof (find_none _ _ H x Hx) as N. cbv beta in N. congruence.
Qed.

End Destinations.

(** * The errors of [write] *)

(** The chunks a stream that is not in object mode takes. *)
Definition contiguous (chunk : value) : bool :=
  isBuffer chunk || isArrayBufferView chunk || isArrayBufferLike chunk
  || isString chunk.

Section WriteErrors.

Context {codec : Codec}.

Lemma FLUSH_loop_returns (fuel : nat) (s : state) :
  BUFFER s <> [] -> exists s', FLUSH_loop fuel s = Ret tt s'.
Proof.
  revert s. induction fuel as [|fuel IH]; intros s Hne;
    rewrite FLUSH_loop_unfold;
    (destruct (BUFFER s) as [|c r] eqn:B; [contradiction|]);
    rewrite (bind_Ret _ _ _ _ _ (BUFFERSHIFT_spec s c r B));
    unfold FLUSHCHUNK;
    match goal with
    | |- context [bind (bind (emit ?ev ?args) _) _ ?t] =>
        destruct (safe_emit ev args t) as (b & s2 & E2 & F2 & _)
    end;
    rewrite bind_assoc, (bind_Ret _ _ _ _ _ E2); run;
    destruct (FLOWING s2 && negb (Nat.eqb (List.length (BUFFER s2)) 0)) eqn:G;
    try (eexists; reflexivity).
  apply IH. apply andb_true_iff in G. destruct G as [_ G].
  apply negb_true_iff, Nat.eqb_neq in G. intro Hb. rewrite Hb in G.
  contradiction G. reflexivity.
Qed.

Lemma FLUSH_returns (noDrain : bool) (s : state) :
  BUFFER s <> [] -> exists s', FLUSH noDrain s = Ret tt s'.
Proof.
  intro Hne. unfold FLUSH. run.
  destruct (FLUSH_loop_returns (List.length (BUFFER s)) s Hne) as (s1 & E).
  rewrite (bind_Ret _ _ _ _ _ E). run.
  match goal with
  | |- exists s', ?m ?t = _ =>
      assert (S : safe anyhow m);
      [| destruct (S t) as ([] & s' & E' & _); exists s'; exact E']
  end.
  returns_auto. apply returns_emit.
Qed.

Lemma write_tail_returns async cb chunk (s : state) :
  consistent s -> exists r s', write_tail async cb chunk s = Ret r s'.
Proof.
  intro Hc. unfold write_tail. run.
  assert (Rest : forall t : state, exists r t',
            (flowing <- gets FLOWING ;;
             (if flowing then emit (Ev "data") [chunk] ;; ret tt
              else BUFFERPUSH chunk) ;;
             len <- gets BUFFERLENGTH ;;
             when (negb (len =? 0)%Z) (emit (Ev "readable") [] ;; ret tt) ;;
             run_cb async cb ;;
             gets FLOWING) t = Ret r t').
  { intro t.
    match goal with
    | |- exists r t', ?m t = _ =>
        assert (S : safe anyhow m);
        [| destruct (S t) as (r & t' & E' & _); exists r, t'; exact E']
    end.
    unfold BUFFERPUSH, run_cb. returns_auto; apply returns_emit. }
  destruct (FLOWING s && negb (BUFFERLENGTH s =? 0)%Z) eqn:G; run.
  - apply andb_true_iff in G. destruct G as [_ G].
    apply negb_true_iff, Z.eqb_neq in G.
    destruct (FLUSH_returns true s (consistent_nonempty s Hc G)) as (s1 & E).
    rewrite (bind_Ret _ _ _ _ _ E). apply Rest.
  - apply Rest.
Qed.


End WriteErrors.

(** * 'data' listeners and the flow *)

(** A stream with no pipe, whose 'data' listeners were all added with
    [on]. *)
Definition plain_data (s : state) : Prop :=
  PIPES s = []
  /\ Forall (fun l => l_once l = false) (listeners (Ev "data") s).

(** Who consumes the stream, and whether it flows. *)
Definition consumers (s : state) :=
  (FLOWING s, DATALISTENERS s, DISCARDED s, PIPES s,
   listeners (Ev "data") s).

(** On such a stream the consumers stay as they are. *)
Definition steady (s s' : state) : Prop :=
  plain_data s -> consumers s' = consumers s.

Lemma steady_plain (s s' : state) :
  plain_data s -> consumers s' = consumers s -> plain_data s'.
Proof.
  intros [P L] E. unfold consumers in E. injection E as _ _ _ EP EL.
  split; congruence.
Qed.

#[export] Instance steady_Frame : Frame steady.
Proof.
  split.
  - intros s _. reflexivity.
  - intros a b c H1 H2 Ha. specialize (H1 Ha).
    rewrite (H2 (steady_plain a b Ha H1)). exact H1.
Qed.

Lemma data_remove_first (p : event * listener -> bool) reg :
  (forall x, p x = true -> is_ev (fst x) "data" = false) ->
  listeners_in (Ev "data") (remove_first p reg) = listeners_in (Ev "data") reg.
Proof.
  intro H. induction reg as [|x reg IH]; [reflexivity|].
  cbn [remove_first]. destruct (p x) eqn:E.
  - rewrite listeners_in_cons. specialize (H x E). unfold is_ev in H.
    rewrite H. reflexivity.
  - rewrite !listeners_in_cons, IH. reflexivity.
Qed.

Lemma listeners_in_rev ev reg :
  listeners_in ev (rev reg) = rev (listeners_in ev reg).
Proof.
  induction reg as [|x reg IH]; [reflexivity|].
  cbn [rev]. rewrite listeners_in_app, IH, !listeners_in_cons.
  change (listeners_in ev []) with (@nil listener).
  destruct (event_eqb (fst x) ev); cbn [rev]; [reflexivity|].
  apply app_nil_r.
Qed.

Lemma data_remove_last (p : event * listener -> bool) reg :
  (forall x, p x = true -> is_ev (fst x) "data" = false) ->
  listeners_in (Ev "data") (remove_last p reg) = listeners_in (Ev "data") reg.
Proof.
  intro H. unfold remove_last.
  rewrite listeners_in_rev, data_remove_first, listeners_in_rev, rev_involutive;
    auto.
Qed.

Lemma data_filter_other (e : event) reg :
  is_ev e "data" = false ->
  listeners_in (Ev "data")
    (filter (fun p => negb (event_eqb (fst p) e)) reg)
  = listeners_in (Ev "data") reg.
Proof.
  intro H. induction reg as [|x reg IH]; [reflexivity|].
  cbn [filter]. destruct (event_eqb (fst x) e) eqn:E; cbn [negb].
  - rewrite listeners_in_cons, IH. apply event_eqb_eq in E.
    unfold is_ev in H. rewrite E, H. reflexivity.
  - rewrite !listeners_in_cons, IH. reflexivity.
Qed.

Lemma listeners_in_remove_first ev (q : listener -> bool) reg :
  listeners_in ev
    (remove_first (fun p => event_eqb (fst p) ev && q (snd p)) reg)
  = remove_first q (listeners_in ev reg).
Proof.
  induction reg as [|x reg IH]; [reflexivity|].
  cbn [remove_first]. rewrite listeners_in_cons.
  destruct (event_eqb (fst x) ev) eqn:E; cbn [andb].
  - cbn [remove_first]. destruct (q (snd x)); [reflexivity|].
    rewrite listeners_in_cons, E, IH. reflexivity.
  - rewrite listeners_in_cons, E, IH. reflexivity.
Qed.

Lemma listeners_in_remove_last ev (q : listener -> bool) reg :
  listeners_in ev
    (remove_last (fun p => event_eqb (fst p) ev && q (snd p)) reg)
  = remove_last q (listeners_in ev reg).
Proof.
  unfold remove_last.
  rewrite listeners_in_rev, listeners_in_remove_first, listeners_in_rev.
  reflexivity.
Qed.

(** A step that leaves the consumers alone. *)
Ltac steady_leaf :=
  apply keeps_modify; intros ? _; reflexivity.

Ltac steady_step :=
  first
    [ match goal with
      | |- keeps steady (if is_ev ?ev "data" then _ else _) =>
          let E := fresh "E" in destruct (is_ev ev "data") eqn:E
      | |- keeps steady (when (is_ev ?ev "data") _) =>
          let E := fresh "E" in destruct (is_ev ev "data") eqn:E;
          cbn [when]
      end
    | keeps_step
    | match goal with
      | |- keeps steady (modify _) => steady_leaf
      | |- keeps steady (log _) => steady_leaf
      | |- keeps steady (defer _) => steady_leaf
      end ].

Ltac steady_auto := repeat steady_step.

Section Steady.

Context {codec : Codec}.

Lemma keeps_steady_call fn ev args : keeps steady (call fn ev args).
Proof. unfold call. steady_auto. Qed.

(** Taking a listener of another event off the table. *)
Lemma keeps_steady_off_other
    (f : list (event * listener) -> list (event * listener)) (ev : event) :
  is_ev ev "data" = false ->
  (forall reg, listeners_in (Ev "data") (f reg) = listeners_in (Ev "data") reg) ->
  keeps steady
    (off_with (modify (fun s => set_registry (f (registry s)) s)) ev).
Proof.
  intros E Hf. unfold off_with. rewrite E. cbn [when].
  steady_auto. apply keeps_modify. intros s _.
  unfold consumers, listeners. run_fields. rewrite Hf. reflexivity.
Qed.

Lemma keeps_steady_off_error fn : keeps steady (off (Ev "error") fn).
Proof.
  unfold off, super_off.
  apply (keeps_steady_off_other (remove_last _) (Ev "error") eq_refl).
  intro reg. apply data_remove_last. intro x. apply selects_event.
  reflexivity.
Qed.

(** A [once] wrapper of 'data' that is in the table is a 'data' listener
    that was not added with [on]. *)
Lemma registered_once (l : listener) (s : state) :
  registered (Ev "data") l s = true ->
  l_once l = true ->
  ~ Forall (fun l => l_once l = false) (listeners (Ev "data") s).
Proof.
  unfold registered, listeners. intros Hr Ho HF.
  apply existsb_exists in Hr. destruct Hr as (p & Hin & Hp).
  apply andb_true_iff in Hp. destruct Hp as [He Hl].
  rewrite Forall_forall in HF.
  assert (Hp : l_once (snd p) = false).
  { apply HF. unfold listeners_in. apply in_map, filter_In. auto. }
  rewrite (listener_eqb_once _ _ Hl) in Hp. congruence.
Qed.

Lemma keeps_steady_invoke ev l args : keeps steady (invoke ev l args).
Proof.
  unfold invoke. destruct (l_once l) eqn:O; [|apply keeps_steady_call].
  intro s. run. destruct (registered ev l s) eqn:Rg; run;
    [|apply frame_refl].
  destruct (is_ev ev "data") eqn:E.
  - intros [_ HF]. apply event_eqb_eq in E. subst ev.
    destruct (registered_once l s Rg O HF).
  - match goal with
    | |- steady s (final (?m s)) =>
        assert (K : keeps steady m); [|exact (K s)]
    end.
    steady_auto; [|apply keeps_steady_call].
    unfold super_off_wrapper.
    apply (keeps_steady_off_other (remove_first _) ev E).
    intro reg. apply data_remove_first. intro x. apply selects_event, E.
Qed.

Lemma keeps_steady_super_emit ev args : keeps steady (super_emit ev args).
Proof. unfold super_emit. steady_auto. apply keeps_steady_invoke. Qed.

Lemma keeps_steady_removeAllListeners (e : event) :
  is_ev e "data" = false -> keeps steady (removeAllListeners (Some e)).
Proof.
  intro E. unfold removeAllListeners. rewrite E. cbn [when]. steady_auto.
  apply keeps_modify. intros s _. unfold consumers, listeners. run_fields.
  rewrite (data_filter_other e _ E). reflexivity.
Qed.

Lemma keeps_steady_Pipe_end p : keeps steady (Pipe_end p).
Proof.
  unfold Pipe_end, Pipe_unpipe, removeListener. steady_auto.
  apply keeps_steady_off_error.
Qed.

Lemma keeps_steady_EMITEND2 : keeps steady EMITEND2.
Proof.
  unfold EMITEND2. steady_auto;
    first [ apply keeps_steady_super_emit
          | apply keeps_steady_Pipe_end
          | apply keeps_steady_removeAllListeners; reflexivity ].
Qed.

Lemma keeps_steady_EMITEND : keeps steady EMITEND.
Proof. unfold EMITEND. steady_auto. apply keeps_steady_EMITEND2. Qed.

(** With no pipe, [[EMITDATA]] has no destination to write to. *)
Lemma keeps_steady_EMITDATA_with (m : M unit) data :
  keeps steady m -> keeps steady (EMITDATA_with m data).
Proof.
  intros H s. unfold EMITDATA_with. run.
  destruct (PIPES s) eqn:P; [|intros [HP _]; congruence].
  cbn [for_each]. run.
  match goal with
  | |- steady s (final (?k s)) =>
      assert (K : keeps steady k); [|exact (K s)]
  end.
  steady_auto; first [exact H | apply keeps_steady_super_emit].
Qed.

Lemma keeps_steady_emit_with (m : M unit) ev args :
  keeps steady m -> keeps steady (emit_with m ev args).
Proof.
  intro H. unfold emit_with. cbv zeta. steady_auto;
    first [ exact H
          | apply keeps_steady_EMITEND
          | apply keeps_steady_EMITDATA_with; exact H
          | apply keeps_steady_super_emit
          | apply keeps_steady_removeAllListeners; first [reflexivity | exact E] ].
Qed.

Lemma keeps_steady_MAYBE_EMIT_END : keeps steady MAYBE_EMIT_END.
Proof.
  unfold MAYBE_EMIT_END. steady_auto;
    apply keeps_steady_emit_with, keeps_ret.
Qed.

Lemma keeps_steady_emit ev args : keeps steady (emit ev args).
Proof. apply keeps_steady_emit_with, keeps_steady_MAYBE_EMIT_END. Qed.

Lemma keeps_steady_BUFFERSHIFT : keeps steady BUFFERSHIFT.
Proof. unfold BUFFERSHIFT. steady_auto. Qed.

Lemma keeps_steady_FLUSH_loop fuel : keeps steady (FLUSH_loop fuel).
Proof.
  induction fuel as [|fuel IH]; cbn [FLUSH_loop]; unfold FLUSHCHUNK;
    steady_auto;
    first [ apply keeps_steady_BUFFERSHIFT | apply keeps_steady_emit
          | exact IH ].
Qed.

Lemma keeps_steady_FLUSH noDrain : keeps steady (FLUSH noDrain).
Proof.
  unfold FLUSH. steady_auto;
    first [apply keeps_steady_FLUSH_loop | apply keeps_steady_emit].
Qed.

(** [on('data', h)] on a stream with no pipe and no 'data' listener. *)
Lemma on_data_first (h : nat) (s : state) :
  PIPES s = [] ->
  listeners (Ev "data") s = [] ->
  let s1 := final (on (Ev "data") (Handler h) s) in
  (DESTROYED s = false -> FLOWING s1 = true)
  /\ DISCARDED s1 = false
  /\ PIPES s1 = []
  /\ listeners (Ev "data") s1 = [mkListener (Handler h) false].
Proof.
  intros P L. unfold on, on_listener, super_on. run.
  cbn [is_ev event_eqb String.eqb Ascii.eqb Bool.eqb]. run. rewrite P.
  cbn [List.length Nat.eqb andb].
  assert (Lr : listeners_in (Ev "data")
                 (registry s ++ [(Ev "data", mkListener (Handler h) false)])
               = [mkListener (Handler h) false]).
  { unfold listeners in L. rewrite listeners_in_app, L. reflexivity. }
  match goal with
  | |- context [final (when _ RESUME ?t)] =>
      assert (C : consumers (final (when (negb (FLOWING s)) RESUME t))
                  = (FLOWING s || negb (DESTROYED s), S (DATALISTENERS s),
                     false, @nil Pipe, [mkListener (Handler h) false]))
  end.
  { destruct (FLOWING s) eqn:F; cbn [negb when orb ret final].
    - unfold consumers, listeners. run_fields. rewrite F, P, Lr. reflexivity.
    - unfold RESUME. run. 
      destruct (DESTROYED s) eqn:D; run.
      + unfold consumers, listeners. run_fields. rewrite F, P, Lr.
        reflexivity.
      + cbn [Nat.eqb andb]. run.
        match goal with
        | |- consumers (final (?k ?u)) = _ =>
            assert (K : keeps steady k);
            [| rewrite (K u);
               [ unfold consumers, listeners; run_fields;
                 rewrite P, Lr; reflexivity
               | split;
                 [ run_fields; exact P
                 | unfold listeners; run_fields; rewrite Lr;
                   repeat constructor ] ] ]
        end.
        steady_auto;
          first [ apply keeps_steady_emit | apply keeps_steady_FLUSH
                | apply keeps_steady_MAYBE_EMIT_END ]. }
  unfold consumers in C. injection C as C1 C2 C3 C4 C5.
  repeat split; try assumption.
  intro D. rewrite C1, D. apply orb_true_r.
Qed.

(** X16. On a stream with no pipe and no 'data' listener, [on('data', h)]
    starts the flow (unless the stream is destroyed), and taking the
    listener off again with [off('data', h)] stops it. *)
Theorem data_listener_starts_and_stops_the_flow (h : nat) (s : state) :
  PIPES s = [] ->
  listeners (Ev "data") s = [] ->
  let s1 := final (on (Ev "data") (Handler h) s) in
  let s2 := final (off (Ev "data") (Handler h) s1) in
  (DESTROYED s = false -> FLOWING s1 = true)
  /\ listeners (Ev "data") s1 = [mkListener (Handler h) false]
  /\ FLOWING s2 = false
  /\ listeners (Ev "data") s2 = []
  /\ DATALISTENERS s2 = 0.
Proof.
  intros P L s1 s2.
  destruct (on_data_first h s P L) as (F1 & D1 & P1 & L1). fold s1 in F1, D1, P1, L1.
  split; [exact F1|]. split; [exact L1|].
  unfold s2, off, off_with, super_off. run.
  cbn [is_ev event_eqb String.eqb Ascii.eqb Bool.eqb when]. run.
  rewrite D1, P1.
  assert (L2 : listeners_in (Ev "data")
                 (remove_last
                    (fun p => event_eqb (fst p) (Ev "data")
                              && callback_eqb (l_fn (snd p)) (Handler h))
                    (registry s1)) = []).
  { rewrite (listeners_in_remove_last (Ev "data")
               (fun l => callback_eqb (l_fn l) (Handler h))).
    unfold listeners in L1. rewrite L1.
    unfold remove_last. cbn [rev app remove_first l_fn callback_eqb].
    rewrite Nat.eqb_refl. reflexivity. }
  unfold listeners. run_fields. rewrite L2.
  cbn [List.length Nat.eqb andb negb when]. run. auto.
Qed.


End Steady.

(** * Errors passed on to a destination *)

(** As long as the input has not ended, the 'error' listeners added with
    [on] stay in the table. *)
Definition listening (s s' : state) : Prop :=
  EOF s = false ->
  EOF s' = false
  /\ forall l, l_once l = false ->
               In (Ev "error", l) (registry s) ->
               In (Ev "error", l) (registry s').

#[export] Instance listening_Frame : Frame listening.
Proof.
  split.
  - intros s H. auto.
  - intros a b c H1 H2 Ha. destruct (H1 Ha) as [Hb K1].
    destruct (H2 Hb) as [Hc K2]. auto.
Qed.

Lemma In_remove_first {A : Type} (p : A -> bool) (x : A) (l : list A) :
  p x = false -> In x l -> In x (remove_first p l).
Proof.
  intros Hp. induction l as [|y l IH]; [auto|].
  cbn [remove_first]. intros [->|H].
  - rewrite Hp. left. reflexivity.
  - destruct (p y); [exact H | right; auto].
Qed.

Lemma In_remove_last {A : Type} (p : A -> bool) (x : A) (l : list A) :
  p x = false -> In x l -> In x (remove_last p l).
Proof.
  intros Hp H. unfold remove_last. rewrite <- in_rev.
  apply In_remove_first; [exact Hp|]. rewrite <- in_rev. exact H.
Qed.

(** A step that leaves the end of input and the listener table alone. *)
Ltac listening_leaf :=
  apply keeps_modify; intros ? ?; split; [assumption | intros ? ? ?; assumption].

Ltac listening_step :=
  first
    [ match goal with
      | |- keeps listening (if is_ev ?ev ?n then _ else _) =>
          let E := fresh "E" in destruct (is_ev ev n) eqn:E
      end
    | keeps_step
    | match goal with
      | |- keeps listening (modify _) => listening_leaf
      | |- keeps listening (log _) => listening_leaf
      | |- keeps listening (defer _) => listening_leaf
      end ].

Ltac listening_auto := repeat listening_step.

Section Proxy.

Context {codec : Codec}.

Lemma keeps_listening_call fn ev args : keeps listening (call fn ev args).
Proof. unfold call. listening_auto. Qed.

Lemma keeps_listening_pause : keeps listening pause.
Proof. unfold pause. listening_auto. Qed.

(** Removing the wrapper of a [once] listener. *)
Lemma keeps_listening_invoke ev l args : keeps listening (invoke ev l args).
Proof.
  unfold invoke. destruct (l_once l) eqn:O; [|apply keeps_listening_call].
  unfold off_with, super_off_wrapper. listening_auto;
    try apply keeps_listening_call.
  apply keeps_modify. intros s He. split; [exact He|].
  intros l' Hl' Hin. cbn [registry set_registry].
  apply In_remove_first; [|exact Hin]. cbn [fst snd].
  destruct (listener_eqb l' l) eqn:E; [|apply andb_false_r].
  rewrite (listener_eqb_once _ _ E) in Hl'. congruence.
Qed.

Lemma keeps_listening_super_emit ev args :
  keeps listening (super_emit ev args).
Proof. unfold super_emit. listening_auto. apply keeps_listening_invoke. Qed.

Lemma keeps_listening_removeAllListeners (e : event) :
  is_ev e "error" = false -> keeps listening (removeAllListeners (Some e)).
Proof.
  intro E. unfold removeAllListeners. listening_auto.
  apply keeps_modify. intros s He. split; [exact He|].
  intros l _ Hin. cbn [registry set_registry]. apply filter_In.
  split; [exact Hin|]. cbn [fst]. unfold is_ev in E.
  destruct (event_eqb (Ev "error") e) eqn:E'; [|reflexivity].
  apply event_eqb_eq in E'. subst e. discriminate E.
Qed.

(** With the input not ended, [[MAYBE_EMIT_END]] does nothing. *)
Lemma keeps_listening_MAYBE_EMIT_END : keeps listening MAYBE_EMIT_END.
Proof.
  intros s He. unfold MAYBE_EMIT_END. run. unfold end_guard.
  rewrite He, andb_false_r. run. split; [exact He | auto].
Qed.

Lemma keeps_listening_EMITDATA data : keeps listening (EMITDATA data).
Proof.
  unfold EMITDATA, EMITDATA_with. listening_auto;
    first [ apply keeps_listening_pause | apply keeps_listening_super_emit
          | apply keeps_listening_MAYBE_EMIT_END ].
Qed.

Lemma keeps_listening_emit ev args :
  is_ev ev "end" = false -> keeps listening (emit ev args).
Proof.
  intro H. unfold emit, emit_with. cbv zeta. listening_auto;
    try congruence;
    first [ apply keeps_listening_MAYBE_EMIT_END
          | apply keeps_listening_EMITDATA
          | apply keeps_listening_super_emit
          | apply keeps_listening_removeAllListeners;
            first [reflexivity | assumption] ].
Qed.

Lemma keeps_listening_FLUSH_loop fuel : keeps listening (FLUSH_loop fuel).
Proof.
  induction fuel as [|fuel IH]; cbn [FLUSH_loop];
    unfold FLUSHCHUNK, BUFFERSHIFT; listening_auto;
    first [ apply keeps_listening_emit; reflexivity | exact IH ].
Qed.

Lemma keeps_listening_FLUSH noDrain : keeps listening (FLUSH noDrain).
Proof.
  unfold FLUSH. listening_auto;
    first [ apply keeps_listening_FLUSH_loop
          | apply keeps_listening_emit; reflexivity ].
Qed.

Lemma keeps_listening_RESUME : keeps listening RESUME.
Proof.
  unfold RESUME. listening_auto;
    first [ apply keeps_listening_FLUSH
          | apply keeps_listening_emit; reflexivity
          | apply keeps_listening_MAYBE_EMIT_END ].
Qed.

(** [emit('error', e)] calls every 'error' listener added with [on]. *)
Lemma emit_error_reaches (l : listener) (e : value) (s : state) :
  l_once l = false ->
  In (Ev "error", l) (registry s) ->
  exists r s' pre post,
    emit (Ev "error") [e] s = Ret r s'
    /\ trace s' = trace s ++ pre ++ delivery (Ev "error") [e] l :: post.
Proof.
  intros Hl Hin. unfold emit, emit_with. run.
  cbn [is_ev event_eqb String.eqb Ascii.eqb Bool.eqb negb andb hd]. run.
  match goal with
  | |- context [bind (super_emit ?ev ?args) ?k ?t] =>
      destruct (super_emit_spec ev args t) as (s1 & E1 & R1 & T1 & F1);
      rewrite (bind_Ret _ k _ _ _ E1); clear E1
  end.
  run.
  assert (Hin1 : In l (listeners (Ev "error") s1)).
  { unfold listeners, listeners_in. rewrite R1.
    change l with (snd (Ev "error", l)). apply in_map.
    apply filter_In. split; [|reflexivity].
    apply filter_In. split; [exact Hin|]. reflexivity. }
  assert (Hne : negb (Nat.eqb (List.length (listeners (Ev "error") s1)) 0)
                = true).
  { destruct (listeners (Ev "error") s1); [destruct Hin1 | reflexivity]. }
  rewrite Hne, orb_true_r.
  match goal with
  | |- context [bind (super_emit ?ev ?args) ?k ?t] =>
      destruct (super_emit_spec ev args t) as (s2 & E2 & R2 & T2 & F2);
      rewrite (bind_Ret _ k _ _ _ E2); clear E2
  end.
  run.
  destruct (MAYBE_EMIT_END_returns s2) as (s3 & l3 & E3 & T3 & _).
  rewrite (bind_Ret _ _ _ _ _ E3). run.
  apply (in_map (delivery (Ev "error") [e])) in Hin1.
  apply in_split in Hin1. destruct Hin1 as (m1 & m2 & Hm).
  cbn [trace set_trace set_EMITTED_ERROR] in T1.
  match type of T1 with
  | _ = _ ++ _ :: ?d => set (d1 := d) in T1
  end.
  exists (negb (Nat.eqb (List.length (listeners (Ev "error") s1)) 0)), s3,
    (Emit (Ev "error") [e] :: Dispatch Sym_ERROR [e] :: d1
     ++ Dispatch (Ev "error") [e] :: m1), (m2 ++ l3).
  split; [reflexivity|].
  rewrite T3, T2, Hm, T1.
  repeat (rewrite <- ?app_assoc; cbn [app]). reflexivity.
Qed.


(** [pipe(d, { proxyErrors: true })] leaves its 'error' listener in the
    table. *)
Lemma pipe_registers_proxy (d : Writable) (o : PipeOptions) (s : state) :
  DESTROYED s = false ->
  EMITTED_END s = false ->
  EOF s = false ->
  truthy (opt_proxyErrors o) = true ->
  In (Ev "error", mkListener (ProxyErrors (wid d)) false)
    (registry (final (pipe d (Some o) s))).
Proof.
  intros D N E P. unfold pipe. run. rewrite D. run. rewrite N, P. run.
  unfold on, on_listener, super_on. run.
  cbn [is_ev event_eqb String.eqb Ascii.eqb Bool.eqb negb andb isEndish orb].
  match goal with
  | |- In _ (registry (final (?m ?t))) =>
      assert (K : keeps listening m);
      [| destruct (K t E) as [_ H]; apply H; [reflexivity|] ]
  end.
  - listening_auto;
      first [apply keeps_listening_invoke | apply keeps_listening_RESUME].
  - cbn [registry set_registry set_trace set_DISCARDED].
    apply in_or_app. right. left. reflexivity.
Qed.

(** X17. After [pipe(d, { proxyErrors: true })] on a stream that is not
    destroyed and whose input has not ended, an 'error' emitted on the
    stream is emitted on [d] too. *)
Theorem errors_are_passed_on (d : Writable) (o : PipeOptions) (e : value)
    (s : state) :
  DESTROYED s = false ->
  EMITTED_END s = false ->
  EOF s = false ->
  truthy (opt_proxyErrors o) = true ->
  exists r s' pre post,
    emit (Ev "error") [e] (final (pipe d (Some o) s)) = Ret r s'
    /\ trace s'
       = trace (final (pipe d (Some o) s))
         ++ pre ++ DestEmitError (wid d) e :: post.
Proof.
  intros D N E P.
  apply (emit_error_reaches (mkListener (ProxyErrors (wid d)) false) e);
    [reflexivity|].
  apply pipe_registers_proxy; assumption.
Qed.

End Proxy.

(** * Async streams *)

(** Trace entries that do not hand data to a consumer: neither a
    dispatch of 'data', nor a call of a 'data' listener, nor a [write] on
    a destination. *)
Definition undelivered (x : effect) : Prop :=
  match x with
  | Dispatch ev _ | Called _ ev _ => is_ev ev "data" = false
  | DestWrite _ _ => False
  | _ => True
  end.

(** On an async stream: it stays async, and no data is handed over. *)
Definition deferring (s s' : state) : Prop :=
  ASYNC s = true -> ASYNC s' = true /\ ext undelivered s s'.

#[export] Instance deferring_Frame : Frame deferring.
Proof.
  split.
  - intros s H. split; [exact H | apply ext_refl].
  - intros a b c H1 H2 Ha. destruct (H1 Ha) as [Hb X1].
    destruct (H2 Hb) as [Hc X2]. split; [exact Hc|].
    eapply ext_trans; eassumption.
Qed.

Lemma keeps_gets_ASYNC {A : Type} (k : bool -> M A) :
  keeps deferring (k true) -> keeps deferring (bind (gets ASYNC) k).
Proof.
  intros H s Ha. rewrite bind_gets, Ha. exact (H s Ha).
Qed.

Ltac deferring_leaf :=
  apply keeps_modify; intros ? ?; split;
  [ assumption
  | first [ apply ext_same; reflexivity
          | eapply ext_one; [reflexivity|];
            first [exact I | reflexivity | assumption] ] ].

Ltac deferring_step :=
  first
    [ match goal with
      | |- keeps deferring (bind (gets ASYNC) _) =>
          apply keeps_gets_ASYNC; cbv beta iota
      | |- keeps deferring (if is_ev ?ev "data" then _ else _) =>
          let E := fresh "E" in destruct (is_ev ev "data") eqn:E
      | |- keeps deferring (when (is_ev ?ev "data") _) =>
          let E := fresh "E" in destruct (is_ev ev "data") eqn:E
      end
    | keeps_step
    | match goal with
      | |- keeps deferring (modify _) => deferring_leaf
      | |- keeps deferring (log _) => deferring_leaf
      | |- keeps deferring (defer _) => deferring_leaf
      end ].

Ltac deferring_auto := repeat deferring_step.

Section Deferring.

Context {codec : Codec}.

Lemma keeps_deferring_call fn ev args :
  is_ev ev "data" = false -> keeps deferring (call fn ev args).
Proof. intro E. unfold call. deferring_auto. Qed.

Lemma keeps_deferring_off_with (remove : M unit) ev :
  keeps deferring remove -> keeps deferring (off_with remove ev).
Proof. intro H. unfold off_with. deferring_auto; exact H. Qed.

Lemma keeps_deferring_off ev fn : keeps deferring (off ev fn).
Proof.
  unfold off, super_off. apply keeps_deferring_off_with. deferring_auto.
Qed.

Lemma keeps_deferring_invoke ev l args :
  is_ev ev "data" = false -> keeps deferring (invoke ev l args).
Proof.
  intro E. unfold invoke. deferring_auto;
    try (apply keeps_deferring_call; exact E).
  apply keeps_deferring_off_with. unfold super_off_wrapper. deferring_auto.
Qed.

Lemma keeps_deferring_super_emit ev args :
  is_ev ev "data" = false -> keeps deferring (super_emit ev args).
Proof.
  intro E. unfold super_emit. deferring_auto.
  apply keeps_deferring_invoke, E.
Qed.

Lemma keeps_deferring_removeAllListeners ev :
  keeps deferring (removeAllListeners ev).
Proof. unfold removeAllListeners. deferring_auto. Qed.

Lemma keeps_deferring_Pipe_unpipe p : keeps deferring (Pipe_unpipe p).
Proof.
  unfold Pipe_unpipe, removeListener. deferring_auto.
  apply keeps_deferring_off.
Qed.

Lemma keeps_deferring_pause : keeps deferring pause.
Proof. unfold pause. deferring_auto. Qed.

Lemma keeps_deferring_EMITEND : keeps deferring EMITEND.
Proof. unfold EMITEND. deferring_auto. Qed.

Lemma keeps_deferring_emit_with (m : M unit) ev args :
  keeps deferring m -> keeps deferring (emit_with m ev args).
Proof.
  intro H. unfold emit_with. cbv zeta. deferring_auto;
    first [ exact H
          | apply keeps_deferring_EMITEND
          | apply keeps_deferring_super_emit; first [reflexivity | assumption]
          | apply keeps_deferring_removeAllListeners ].
Qed.

Lemma keeps_deferring_MAYBE_EMIT_END : keeps deferring MAYBE_EMIT_END.
Proof.
  unfold MAYBE_EMIT_END. deferring_auto;
    apply keeps_deferring_emit_with, keeps_ret.
Qed.

Lemma keeps_deferring_emit ev args : keeps deferring (emit ev args).
Proof. apply keeps_deferring_emit_with, keeps_deferring_MAYBE_EMIT_END. Qed.

Lemma keeps_deferring_FLUSH_loop fuel : keeps deferring (FLUSH_loop fuel).
Proof.
  induction fuel as [|fuel IH]; cbn [FLUSH_loop];
    unfold FLUSHCHUNK, BUFFERSHIFT; deferring_auto;
    first [apply keeps_deferring_emit | exact IH].
Qed.

Lemma keeps_deferring_FLUSH noDrain : keeps deferring (FLUSH noDrain).
Proof.
  unfold FLUSH. deferring_auto;
    first [apply keeps_deferring_FLUSH_loop | apply keeps_deferring_emit].
Qed.

Lemma keeps_deferring_RESUME : keeps deferring RESUME.
Proof.
  unfold RESUME. deferring_auto;
    first [ apply keeps_deferring_FLUSH | apply keeps_deferring_emit
          | apply keeps_deferring_MAYBE_EMIT_END ].
Qed.

Lemma keeps_deferring_write chunk encoding cb :
  keeps deferring (write chunk encoding cb).
Proof.
  unfold write, BUFFERPUSH, run_cb. cbv zeta. deferring_auto;
    first [apply keeps_deferring_FLUSH | apply keeps_deferring_emit].
Qed.

Lemma keeps_deferring_read n : keeps deferring (read n).
Proof.
  unfold read, READ, BUFFERSHIFT. cbv zeta. deferring_auto;
    first [apply keeps_deferring_emit | apply keeps_deferring_MAYBE_EMIT_END].
Qed.

Lemma keeps_deferring_on_listener ev l : keeps deferring (on_listener ev l).
Proof.
  unfold on_listener, super_on. deferring_auto;
    first [ apply keeps_deferring_RESUME
          | apply keeps_deferring_super_emit; first [reflexivity | assumption]
          | apply keeps_deferring_removeAllListeners ].
Qed.

Lemma keeps_deferring_end chunk encoding cb :
  keeps deferring (end_ chunk encoding cb).
Proof.
  unfold end_, once. cbv zeta. deferring_auto;
    first [ apply keeps_deferring_write | apply keeps_deferring_on_listener
          | apply keeps_deferring_MAYBE_EMIT_END ].
Qed.

Lemma keeps_deferring_pipe d opts : keeps deferring (pipe d opts).
Proof.
  unfold pipe, on. cbv zeta. deferring_auto;
    apply keeps_deferring_on_listener.
Qed.

Lemma keeps_deferring_unpipe d : keeps deferring (unpipe d).
Proof. unfold unpipe. deferring_auto; apply keeps_deferring_Pipe_unpipe. Qed.

Lemma keeps_deferring_destroy er : keeps deferring (destroy er).
Proof. unfold destroy. deferring_auto; apply keeps_deferring_emit. Qed.

Lemma keeps_deferring_signal_abort r : keeps deferring (signal_abort r).
Proof.
  unfold signal_abort, ABORT. deferring_auto;
    first [apply keeps_deferring_emit | apply keeps_deferring_destroy].
Qed.

(** X18. On an async stream no call of a public method hands data to a
    listener or to a destination before it returns: all such deliveries
    are left to deferred tasks.  (The stream also stays async.) *)
Theorem async_stream_defers_all_data (c : command) (s : state) :
  ASYNC s = true ->
  c <> Ctask ->
  ASYNC (final (run_command c s)) = true
  /\ exists l,
       trace (final (run_command c s)) = trace s ++ l
       /\ Forall undelivered l.
Proof.
  intros Ha Hc.
  assert (K : keeps deferring (run_command c)); [|exact (K s Ha)].
  destruct c; try congruence; cbn [run_command];
    unfold resume, on, once, setEncoding, encoding_setter,
      objectMode_setter, aborted_setter, set_async;
    deferring_auto;
    match goal with
    | |- keeps _ (write _ _ _) => apply keeps_deferring_write
    | |- keeps _ (end_ _ _ _) => apply keeps_deferring_end
    | |- keeps _ (read _) => apply keeps_deferring_read
    | |- keeps _ RESUME => apply keeps_deferring_RESUME
    | |- keeps _ pause => apply keeps_deferring_pause
    | |- keeps _ (pipe _ _) => apply keeps_deferring_pipe
    | |- keeps _ (unpipe _) => apply keeps_deferring_unpipe
    | |- keeps _ (on_listener _ _) => apply keeps_deferring_on_listener
    | |- keeps _ (off _ _) => apply keeps_deferring_off
    | |- keeps _ (removeAllListeners _) =>
        apply keeps_deferring_removeAllListeners
    | |- keeps _ (emit _ _) => apply keeps_deferring_emit
    | |- keeps _ (destroy _) => apply keeps_deferring_destroy
    | |- keeps _ (signal_abort _) => apply keeps_deferring_signal_abort
    | |- keeps _ (modify _) =>
        apply keeps_modify; intros t Ht; split;
        [ cbn [ASYNC set_ASYNC]; rewrite Ht; reflexivity
        | apply ext_same; reflexivity ]
    end.
Qed.

End Deferring.

(** * Streams that are not async *)

(** On a stream that is not async: it stays so, and nothing is
    deferred. *)
Definition prompt (s s' : state) : Prop :=
  ASYNC s = false ->
  ASYNC s' = false /\ microtasks s' = microtasks s.

#[export] Instance prompt_Frame : Frame prompt.
Proof.
  split.
  - intros s H. split; [exact H | reflexivity].
  - intros a b c H1 H2 Ha. destruct (H1 Ha) as [Hb X1].
    destruct (H2 Hb) as [Hc X2]. split; congruence.
Qed.

Lemma keeps_gets_not_ASYNC {A : Type} (k : bool -> M A) :
  keeps prompt (k false) -> keeps prompt (bind (gets ASYNC) k).
Proof.
  intros H s Ha. rewrite bind_gets, Ha. exact (H s Ha).
Qed.

Ltac prompt_leaf :=
  apply keeps_modify; intros ? ?; split; [assumption | reflexivity].

Ltac prompt_step :=
  first
    [ match goal with
      | |- keeps prompt (bind (gets ASYNC) _) =>
          apply keeps_gets_not_ASYNC; cbv beta iota
      end
    | keeps_step
    | match goal with
      | |- keeps prompt (modify _) => prompt_leaf
      | |- keeps prompt (log _) => prompt_leaf
      end ].

Ltac prompt_auto := repeat prompt_step.

Section Prompt.

Context {codec : Codec}.

Lemma keeps_prompt_dispatch {A : Type} ok (m : M A) :
  safe (dispatch_frame ok) m -> keeps prompt m.
Proof.
  intros H s Ha. destruct (H s) as (a & s' & E & F & _). rewrite E.
  fields F. cbn [final]. split; congruence.
Qed.

Lemma keeps_prompt_end {A : Type} ok (m : M A) :
  safe (end_frame ok) m -> keeps prompt m.
Proof.
  intros H s Ha. destruct (H s) as (a & s' & E & F & _). rewrite E.
  fields F. cbn [final]. split; congruence.
Qed.

Lemma keeps_prompt_pause : keeps prompt pause.
Proof. unfold pause. prompt_auto. Qed.

Lemma keeps_prompt_EMITEND : keeps prompt EMITEND.
Proof.
  unfold EMITEND. prompt_auto. eapply keeps_prompt_end, safe_EMITEND2.
Qed.

Lemma keeps_prompt_EMITDATA_with (m : M unit) data :
  keeps prompt m -> keeps prompt (EMITDATA_with m data).
Proof.
  intro H. unfold EMITDATA_with. prompt_auto;
    first [ exact H | apply keeps_prompt_pause
          | eapply keeps_prompt_dispatch, safe_super_emit ].
Qed.

Lemma keeps_prompt_emit_with (m : M unit) ev args :
  keeps prompt m -> keeps prompt (emit_with m ev args).
Proof.
  intro H. unfold emit_with. cbv zeta. prompt_auto;
    first [ exact H
          | apply keeps_prompt_EMITEND
          | apply keeps_prompt_EMITDATA_with; exact H
          | eapply keeps_prompt_dispatch, safe_super_emit
          | eapply keeps_prompt_dispatch,
              (safe_removeAllListeners any_effect) ].
Qed.

Lemma keeps_prompt_MAYBE_EMIT_END : keeps prompt MAYBE_EMIT_END.
Proof.
  unfold MAYBE_EMIT_END. prompt_auto;
    apply keeps_prompt_emit_with, keeps_ret.
Qed.

Lemma keeps_prompt_emit ev args : keeps prompt (emit ev args).
Proof. apply keeps_prompt_emit_with, keeps_prompt_MAYBE_EMIT_END. Qed.

Lemma keeps_prompt_FLUSH_loop fuel : keeps prompt (FLUSH_loop fuel).
Proof.
  induction fuel as [|fuel IH]; cbn [FLUSH_loop];
    unfold FLUSHCHUNK, BUFFERSHIFT; prompt_auto;
    first [apply keeps_prompt_emit | exact IH].
Qed.

Lemma keeps_prompt_FLUSH noDrain : keeps prompt (FLUSH noDrain).
Proof.
  unfold FLUSH. prompt_auto;
    first [apply keeps_prompt_FLUSH_loop | apply keeps_prompt_emit].
Qed.

Lemma keeps_prompt_RESUME : keeps prompt RESUME.
Proof.
  unfold RESUME. prompt_auto;
    first [ apply keeps_prompt_FLUSH | apply keeps_prompt_emit
          | apply keeps_prompt_MAYBE_EMIT_END ].
Qed.

Lemma keeps_prompt_write chunk encoding cb :
  keeps prompt (write chunk encoding cb).
Proof.
  unfold write, BUFFERPUSH, run_cb. cbv zeta. prompt_auto;
    first [apply keeps_prompt_FLUSH | apply keeps_prompt_emit].
Qed.

Lemma keeps_prompt_read n : keeps prompt (read n).
Proof.
  unfold read, READ, BUFFERSHIFT. cbv zeta. prompt_auto;
    first [apply keeps_prompt_emit | apply keeps_prompt_MAYBE_EMIT_END].
Qed.

Lemma keeps_prompt_on_listener ev l : keeps prompt (on_listener ev l).
Proof.
  unfold on_listener, super_on. prompt_auto;
    first [ apply keeps_prompt_RESUME
          | eapply keeps_prompt_dispatch, safe_super_emit
          | eapply keeps_prompt_dispatch, safe_invoke
          | eapply keeps_prompt_dispatch,
              (safe_removeAllListeners any_effect) ].
Qed.

Lemma keeps_prompt_end_ chunk encoding cb :
  keeps prompt (end_ chunk encoding cb).
Proof.
  unfold end_, once. cbv zeta. prompt_auto;
    first [ apply keeps_prompt_write | apply keeps_prompt_on_listener
          | apply keeps_prompt_MAYBE_EMIT_END ].
Qed.

Lemma keeps_prompt_pipe d opts : keeps prompt (pipe d opts).
Proof.
  unfold pipe, on. cbv zeta. prompt_auto;
    first [apply keeps_prompt_on_listener | apply keeps_prompt_RESUME].
Qed.

Lemma keeps_prompt_unpipe d : keeps prompt (unpipe d).
Proof.
  unfold unpipe, Pipe_unpipe, removeListener. prompt_auto.
  eapply keeps_prompt_dispatch, (safe_off any_effect).
Qed.

Lemma keeps_prompt_destroy er : keeps prompt (destroy er).
Proof. unfold destroy. prompt_auto; apply keeps_prompt_emit. Qed.

Lemma keeps_prompt_signal_abort r : keeps prompt (signal_abort r).
Proof.
  unfold signal_abort, ABORT. prompt_auto;
    first [apply keeps_prompt_emit | apply keeps_prompt_destroy].
Qed.

(** X19. On a stream that is not async no call of a public method
    defers anything: the queue of deferred tasks is as it was when the
    call returns, and the stream is still not async, unless the call
    set [async]. *)
Theorem sync_stream_defers_nothing (c : command) (s : state) :
  ASYNC s = false ->
  (forall a, c = Casync a -> truthy a = false) ->
  c <> Ctask ->
  ASYNC (final (run_command c s)) = false
  /\ microtasks (final (run_command c s)) = microtasks s.
Proof.
  intros Ha Hs Hc.
  assert (K : keeps prompt (run_command c)); [|exact (K s Ha)].
  destruct c; try congruence; cbn [run_command];
    unfold resume, on, once, setEncoding, encoding_setter,
      objectMode_setter, aborted_setter, set_async;
    prompt_auto;
    match goal with
    | |- keeps _ (write _ _ _) => apply keeps_prompt_write
    | |- keeps _ (end_ _ _ _) => apply keeps_prompt_end_
    | |- keeps _ (read _) => apply keeps_prompt_read
    | |- keeps _ RESUME => apply keeps_prompt_RESUME
    | |- keeps _ pause => apply keeps_prompt_pause
    | |- keeps _ (pipe _ _) => apply keeps_prompt_pipe
    | |- keeps _ (unpipe _) => apply keeps_prompt_unpipe
    | |- keeps _ (on_listener _ _) => apply keeps_prompt_on_listener
    | |- keeps _ (off _ _) =>
        eapply keeps_prompt_dispatch, (safe_off any_effect)
    | |- keeps _ (removeAllListeners _) =>
        eapply keeps_prompt_dispatch, (safe_removeAllListeners any_effect)
    | |- keeps _ (emit _ _) => apply keeps_prompt_emit
    | |- keeps _ (destroy _) => apply keeps_prompt_destroy
    | |- keeps _ (signal_abort _) => apply keeps_prompt_signal_abort
    | |- keeps _ (modify _) =>
        apply keeps_modify; intros t Ht; split;
        [ cbn [ASYNC set_ASYNC]; rewrite Ht, (Hs _ eq_refl); reflexivity
        | reflexivity ]
    end.
Qed.

End Prompt.

(** * Resuming a stream that holds nothing *)

Section Idle.

Context {codec : Codec}.

(** 'resume' and 'drain' on a stream that is not destroyed and has not
    seen the end of its input: the listeners are called, and nothing
    else happens. *)
Lemma emit_plain_live (ev : event) (s : state) :
  ev = Ev "resume" \/ ev = Ev "drain" ->
  DESTROYED s = false ->
  EOF s = false ->
  exists r s',
    emit ev [] s = Ret r s'
    /\ dispatch_core s' = dispatch_core s
    /\ flow s' = flow s
    /\ registry s' = filter (survives ev) (registry s)
    /\ ext not_data s s'.
Proof.
  intros Hev D E. unfold emit, emit_with. run. rewrite D.
  destruct Hev as [-> | ->];
    cbn [is_ev event_eqb String.eqb Ascii.eqb Bool.eqb negb andb orb]; run;
    match goal with
    | |- exists r s', bind (super_emit ?ev ?args) ?k ?t = _ /\ _ =>
        destruct (super_emit_spec ev args t) as (s1 & E1 & R1 & T1 & F1);
        pose proof (keeps_flow_super_emit ev args eq_refl t) as K1;
        rewrite E1 in K1; rewrite (bind_Ret _ k _ _ _ E1); clear E1
    end;
    unfold MAYBE_EMIT_END; run; unfold end_guard;
    fields F1; cbn in *;
    replace (EOF s1) with false by congruence; rewrite !andb_false_r; run;
    eexists; exists s1; (split; [reflexivity|]);
    (split; [unfold dispatch_core; congruence|]);
    (split; [exact K1|]); (split; [exact R1|]);
    eexists; (split; [rewrite T1, <- app_assoc; reflexivity|]);
    (constructor; [reflexivity|]); (constructor; [reflexivity|]);
    apply Forall_forall; intros x Hx; apply in_map_iff in Hx;
    destruct Hx as (l & <- & _); unfold delivery;
    destruct (l_fn l); simpl; auto.
Qed.

(** [[RESUME]] on a stream that holds nothing and whose input has not
    ended: the stream flows, and 'resume' and 'drain' are emitted. *)
Lemma RESUME_idle (s : state) :
  DESTROYED s = false ->
  EOF s = false ->
  BUFFER s = [] ->
  exists s',
    RESUME s = Ret tt s'
    /\ dispatch_core s'
       = dispatch_core
           (set_PAUSED false
              (set_DISCARDED
                 (if Nat.eqb (DATALISTENERS s) 0
                     && Nat.eqb (List.length (PIPES s)) 0
                  then true else DISCARDED s) s))
    /\ flow s' = (true, DATALISTENERS s)
    /\ ext not_data s s'.
Proof.
  intros D E B. unfold RESUME. run. rewrite D. run.
  assert (Rest : forall t : state,
            DESTROYED t = false -> EOF t = false -> BUFFER t = [] ->
            exists s',
              (emit (Ev "resume") [] ;;
               len <- gets (fun s => List.length (BUFFER s)) ;;
               if negb (Nat.eqb len 0) then FLUSH false
               else
                 eof <- gets EOF ;;
                 if eof then MAYBE_EMIT_END
                 else emit (Ev "drain") [] ;; ret tt) t = Ret tt s'
              /\ dispatch_core s' = dispatch_core t
              /\ flow s' = flow t
              /\ ext not_data t s').
  { intros t Dt Et Bt.
    destruct (emit_plain_live (Ev "resume") t (or_introl eq_refl) Dt Et)
      as (r1 & s1 & E1 & F1 & K1 & _ & X1).
    rewrite (bind_Ret _ _ _ _ _ E1). run.
    pose proof F1 as F1'. fields F1'.
    replace (BUFFER s1) with (@nil value) by congruence.
    cbn [List.length Nat.eqb negb]. run.
    replace (EOF s1) with false by congruence.
    destruct (emit_plain_live (Ev "drain") s1 (or_intror eq_refl))
      as (r2 & s2 & E2 & F2 & K2 & _ & X2); try congruence.
    rewrite (bind_Ret _ _ _ _ _ E2). run.
    exists s2. split; [reflexivity|]. split; [congruence|].
    split; [congruence | eapply ext_trans; eassumption]. }
  destruct (Nat.eqb (DATALISTENERS s) 0 && Nat.eqb (List.length (PIPES s)) 0);
    run;
    match goal with
    | |- exists s', _ ?t = _ /\ _ =>
        destruct (Rest t D E B) as (s' & E' & F' & K' & X'); exists s'
    end;
    (split; [exact E'|]); (split; [exact F'|]); (split; [exact K'|]);
    destruct X' as (l & T & Hl); exists l; (split; [exact T | exact Hl]).
Qed.

(** X20. [resume()] on a stream with no consumer puts it in the
    discarding state: it flows, and a chunk written then (to a stream
    that is not async) is emitted to nobody, is not buffered, and is
    lost; [write] returns [true]. *)
Theorem resume_without_consumers_discards (w : write_call) (v : value)
    (s : state) :
  DESTROYED s = false ->
  ABORTED s = false ->
  EOF s = false ->
  ASYNC s = false ->
  BUFFER s = [] ->
  BUFFERLENGTH s = 0%Z ->
  PIPES s = [] ->
  DATALISTENERS s = 0 ->
  supported (OBJECTMODE s) (ENCODING s) w ->
  (forall e, ENCODING s = Some e ->
             DECODER s = Some [] /\ decoder_lastNeed e [] = false) ->
  prepare (OBJECTMODE s) (ENCODING s) w = Some v ->
  exists s1 s2,
    resume s = Ret tt s1
    /\ FLOWING s1 = true
    /\ DISCARDED s1 = true
    /\ write (w_chunk w) (w_encoding w) (w_cb w) s1 = Ret true s2
    /\ BUFFER s2 = [] /\ BUFFERLENGTH s2 = 0%Z
    /\ trace s2
       = trace s1 ++ Emit (Ev "data") [v] :: cb_effects false (callback_of w).
Proof.
  intros D A E As B L P N Hsup Hdec Hprep.
  destruct (RESUME_idle s D E B) as (s1 & E1 & F1 & K1 & _).
  rewrite N, P in F1. cbn [List.length Nat.eqb andb] in F1.
  exists s1. unfold resume. fields F1.
  unfold flow in K1. injection K1 as Kf Kn.
  assert (Hw : write (w_chunk w) (w_encoding w) (w_cb w) s1
               = write_tail (ASYNC s1) (callback_of w) v s1).
  { rewrite (write_supported (OBJECTMODE s) (ENCODING s) w s1); try congruence.
    - rewrite Hprep. reflexivity.
    - intros e He. replace (DECODER s1) with (DECODER s) by congruence.
      apply Hdec, He. }
  assert (Hv : negb (OBJECTMODE s1) && negb (truthy v) = false).
  { replace (OBJECTMODE s1) with (OBJECTMODE s) by congruence.
    revert Hprep. unfold prepare.
    destruct (OBJECTMODE s); [reflexivity|]. cbn [negb andb].
    destruct (ENCODING s), (Buffer_of (w_chunk w)); try discriminate;
      match goal with
      | |- context [(js_length ?c =? 0)%Z] =>
          destruct (js_length c =? 0)%Z eqn:Hz
      end; try discriminate; intro Hq; injection Hq as <-;
      apply negb_false_iff.
    - apply truthy_nonempty; [left; reflexivity | exact Hz].
    - reflexivity.
    - reflexivity. }
  assert (Hf : FLOWING s1 = true) by congruence.
  assert (Hbl : BUFFERLENGTH s1 = 0%Z) by congruence.
  assert (Hd : DESTROYED s1 = false) by congruence.
  assert (Has : ASYNC s1 = false) by congruence.
  assert (Hp : PIPES s1 = []) by congruence.
  assert (Hdi : DISCARDED s1 = true) by congruence.
  assert (He : EOF s1 = false) by congruence.
  assert (Hb : BUFFER s1 = []) by congruence.
  rewrite Hw. unfold write_tail.
  repeat (progress
            (run;
             unfold emit, emit_with, EMITDATA_with, MAYBE_EMIT_END, end_guard;
             rewrite ?Hf, ?Hbl, ?Hd, ?Has, ?Hp, ?Hdi, ?He, ?Hv, ?andb_false_r;
             cbn [is_ev event_eqb String.eqb Ascii.eqb Bool.eqb negb andb orb
                  hd for_each Z.eqb])).
  unfold run_cb, cb_effects.
  destruct (callback_of w) as [f|]; run; unfold gets; run_fields;
    rewrite ?Hf; eexists;
    (split; [exact E1|]); (split; [reflexivity|]);
    (split; [reflexivity|]);
    (split; [reflexivity|]); run_fields;
    (split; [exact Hb|]); (split; [exact Hbl|]);
    rewrite <- ?app_assoc; reflexivity.
Qed.

(** [on('error', fn)] for a listener that does not wrap: besides the
    table and the trace, only the queue of deferred tasks can change. *)
Lemma on_error_plain (fn : callback) (s : state) :
  ASYNC s = false ->
  exists s',
    on (Ev "error") fn s = Ret tt s'
    /\ dispatch_core s' = dispatch_core s
    /\ flow s' = flow s.
Proof.
  intro As. unfold on, on_listener, super_on. run.
  cbn [is_ev event_eqb String.eqb Ascii.eqb Bool.eqb negb andb orb isEndish].
  destruct (truthy (EMITTED_ERROR s)); run.
  - rewrite As. unfold invoke. cbn [l_once l_fn]. unfold call.
    destruct fn; run; eexists; repeat split; reflexivity.
  - eexists. repeat split; reflexivity.
Qed.

Lemma keeps_flow_off_error fn : keeps (same flow) (off (Ev "error") fn).
Proof.
  unfold off, off_with, super_off.
  cbn [is_ev event_eqb String.eqb Ascii.eqb Bool.eqb when]. keeps_auto.
Qed.

(** X21. On a stream that is not async, holds nothing and has no
    consumer, [pipe(d)] starts the flow and [unpipe(d)] after it stops
    the flow again and leaves no destination. *)
Theorem pipe_starts_and_unpipe_stops_the_flow (d : Writable)
    (opts : option PipeOptions) (s : state) :
  DESTROYED s = false ->
  EMITTED_END s = false ->
  EOF s = false ->
  ASYNC s = false ->
  BUFFER s = [] ->
  PIPES s = [] ->
  DATALISTENERS s = 0 ->
  exists s1,
    pipe d opts s = Ret d s1
    /\ FLOWING s1 = true
    /\ DISCARDED s1 = false
    /\ PIPES s1
       = [mkPipe d (effective_end d (options_of opts)) (proxies opts)]
    /\ FLOWING (final (unpipe d s1)) = false
    /\ PIPES (final (unpipe d s1)) = [].
Proof.
  intros D N E As B P Nl.
  set (p := mkPipe d (effective_end d (options_of opts)) (proxies opts)).
  assert (Rest : forall u : state,
            dispatch_core u
            = dispatch_core (set_PIPES [p] (set_DISCARDED false s)) ->
            DATALISTENERS u = 0 ->
            exists s1,
              (RESUME ;; ret d) u = Ret d s1
              /\ FLOWING s1 = true
              /\ DISCARDED s1 = false
              /\ DATALISTENERS s1 = 0
              /\ PIPES s1 = [p]).
  { intros u Fu Nu. fields Fu.
    destruct (RESUME_idle u) as (s1 & E1 & F1 & K1 & _); try congruence.
    rewrite (bind_Ret _ _ _ _ _ E1). run. exists s1.
    split; [reflexivity|]. revert F1 K1.
    replace (PIPES u) with [p] by congruence.
    cbn [List.length Nat.eqb andb]. rewrite andb_false_r.
    intros F1 K1. fields F1. unfold flow in K1. injection K1 as Kf Kn.
    repeat split; congruence. }
  assert (S1 : exists s1,
            pipe d opts s = Ret d s1
            /\ FLOWING s1 = true
            /\ DISCARDED s1 = false
            /\ DATALISTENERS s1 = 0
            /\ PIPES s1 = [p]).
  { unfold pipe. run. rewrite D. run. rewrite N.
    change (match opts with Some o => o | None => no_options end)
      with (options_of opts).
    change (truthy (opt_proxyErrors (options_of opts))) with (proxies opts).
    fold p. run. destruct (proxies opts) eqn:Px; run.
    - match goal with
      | |- exists s1, bind (on (Ev "error") ?fn) ?k ?t = _ /\ _ =>
          destruct (on_error_plain fn t As) as (t' & Eo & Fo & Ko);
          rewrite (bind_Ret _ k _ _ _ Eo)
      end.
      run. fields Fo. replace (ASYNC t') with false by congruence.
      unfold flow in Ko. injection Ko as _ Kn.
      apply Rest; [|run_fields; congruence].
      unfold dispatch_core. run_fields.
      replace (PIPES t') with (@nil Pipe) by congruence.
      cbn [app].
      repeat match goal with H : _ t' = _ |- _ => rewrite H; clear H end.
      reflexivity.
    - rewrite As. apply Rest; [|exact Nl].
      unfold dispatch_core. run_fields. rewrite P. reflexivity. }
  destruct S1 as (s1 & E1 & F1 & D1 & N1 & P1).
  exists s1. split; [exact E1|]. split; [exact F1|]. split; [exact D1|].
  split; [exact P1|].
  unfold unpipe. run. rewrite P1. unfold p.
  cbn [find dest wid List.length Nat.eqb]. rewrite dest_id_eqb_refl.
  run. rewrite F1, N1. cbn [Nat.eqb andb when]. run.
  match goal with
  | |- FLOWING (final (?m ?t)) = false /\ PIPES (final (?m ?t)) = [] =>
      assert (Kf : keeps (same flow) m);
      [| assert (Kp : keeps (same PIPES) m);
         [| pose proof (Kf t) as Hf; pose proof (Kp t) as Hp ] ]
  end.
  - unfold Pipe_unpipe, removeListener. keeps_auto.
    apply keeps_flow_off_error.
  - unfold Pipe_unpipe, removeListener. keeps_auto.
    eapply keeps_pipes_dispatch, (safe_off any_effect).
  - unfold same, flow in Hf. injection Hf as Hf _.
    unfold same in Hp. split; [rewrite Hf | rewrite Hp]; reflexivity.
Qed.

End Idle.

(** * Instances of the properties above *)

(** A new byte stream; the same with two chunks written to it; one that
    was ended; one built with a signal; an async one with a 'data'
    listener; a text stream; an object stream holding two items. *)
Definition bytes_options : Options := mkOptions VUndefined None None false.

Definition young : state :=
  Eval vm_compute in final (new (codec := latin1) bytes_options).

Definition loaded : state :=
  Eval vm_compute in
    drive (codec := latin1)
      [Cwrite (VStr "ab") EncAbsent None; Cwrite (VStr "cd") EncAbsent None]
      young.

Definition aged : state :=
  Eval vm_compute in
    final (end_ (codec := latin1) ChunkAbsent EncAbsent None young).

Definition signalled : state :=
  Eval vm_compute in
    final (new (codec := latin1)
             (mkOptions VUndefined (Some (mkSignal false VUndefined)) None
                false)).

Definition eager : state :=
  Eval vm_compute in
    drive (codec := latin1) [Con (Ev "data") 1]
      (final (new (codec := latin1) (mkOptions (VBool true) None None false))).

Definition heard_by_one : state :=
  Eval vm_compute in drive (codec := latin1) [Con (Ev "data") 1] young.

Definition text_options : Options :=
  mkOptions VUndefined None (Some "utf8") false.

Definition objects : state :=
  Eval vm_compute in
    drive (codec := latin1)
      [Cwrite (VNum 1) EncAbsent None; Cwrite (VNum 2) EncAbsent None]
      (final (new (codec := latin1) (mkOptions VUndefined None None true))).


Lemma write_after_end_witness :
  end_ (codec := latin1) ChunkAbsent EncAbsent None young = Ret tt aged
  /\ write (codec := latin1) (VStr "late") EncAbsent None
       (drive (codec := latin1) [Cresume] aged)
     = Throw (VError "write after end" None)
         (drive (codec := latin1) [Cresume] aged).
Proof.
  assert (H : end_ (codec := latin1) ChunkAbsent EncAbsent None young
              = Ret tt aged) by (vm_compute; reflexivity).
  split; [exact H|].
  rewrite (write_after_end (codec := latin1) ChunkAbsent EncAbsent None young
             aged [Cresume] (VStr "late") EncAbsent None H).
  vm_compute. reflexivity.
Defined.


Lemma abort_is_final_witness :
  exists s1,
    signal_abort (codec := latin1) (VStr "stop") signalled = Ret tt s1
    /\ ABORTED s1 = true /\ DESTROYED s1 = true
    /\ write (codec := latin1) (VStr "late") EncAbsent None s1 = Ret false s1.
Proof.
  destruct (abort_is_final (codec := latin1) (VStr "stop")
              (mkSignal false VUndefined) signalled)
    as (s1 & E & A & D & _ & W); [vm_compute; reflexivity|].
  exists s1. split; [exact E|]. split; [exact A|]. split; [exact D|].
  exact (W [] (VStr "late") EncAbsent None).
Defined.

Lemma read_takes_everything_witness :
  buffered loaded = VBuffer [x61; x62; x63; x64]
  /\ exists s',
       read (codec := latin1) None loaded = Ret (buffered loaded) s'
       /\ BUFFER s' = [].
Proof.
  split; [vm_compute; reflexivity|].
  destruct (read_takes_everything (codec := latin1) loaded)
    as (s' & l & E & B & _).
  - vm_compute. reflexivity.
  - vm_compute. reflexivity.
  - vm_compute. reflexivity.
  - unfold uniform. vm_compute. repeat constructor.
  - vm_compute. discriminate.
  - exists s'. split; [exact E | exact B].
Defined.


Lemma read_takes_one_object_witness :
  exists s',
    read (codec := latin1) (Some 2%Z) objects = Ret (VNum 1) s'
    /\ BUFFER s' = [VNum 2].
Proof.
  destruct (read_takes_one_object (codec := latin1) (Some 2%Z) (VNum 1)
              [VNum 2] objects) as (s' & l & E & B & _).
  - vm_compute. reflexivity.
  - vm_compute. reflexivity.
  - vm_compute. reflexivity.
  - vm_compute. discriminate.
  - intros k H. injection H as <-. vm_compute. split; discriminate.
  - exists s'. split; [exact E | exact B].
Defined.




Lemma data_listener_starts_and_stops_the_flow_witness :
  FLOWING (final (on (codec := latin1) (Ev "data") (Handler 1) loaded)) = true
  /\ FLOWING
       (final (off (Ev "data") (Handler 1)
                 (final (on (codec := latin1) (Ev "data") (Handler 1) loaded))))
     = false.
Proof.
  destruct (data_listener_starts_and_stops_the_flow (codec := latin1) 1 loaded)
    as (F1 & _ & F2 & _);
    [vm_compute; reflexivity | vm_compute; reflexivity |].
  split; [apply F1; vm_compute; reflexivity | exact F2].
Defined.

Lemma errors_are_passed_on_witness :
  exists r s' pre post,
    emit (codec := latin1) (Ev "error") [VStr "boom"]
      (final (pipe (codec := latin1)
                (mkWritable (Sink 1) (fun _ => true))
                (Some (mkPipeOptions VUndefined (VBool true))) loaded))
    = Ret r s'
    /\ trace s'
       = trace (final (pipe (codec := latin1)
                         (mkWritable (Sink 1) (fun _ => true))
                         (Some (mkPipeOptions VUndefined (VBool true)))
                         loaded))
         ++ pre ++ DestEmitError (Sink 1) (VStr "boom") :: post.
Proof.
  apply (errors_are_passed_on (codec := latin1)
           (mkWritable (Sink 1) (fun _ => true))
           (mkPipeOptions VUndefined (VBool true)) (VStr "boom") loaded);
    vm_compute; reflexivity.
Defined.

Lemma async_stream_defers_all_data_witness :
  exists l,
    trace (final (run_command (codec := latin1)
                    (Cwrite (VStr "ab") EncAbsent None) eager))
    = trace eager ++ l
    /\ Forall undelivered l.
Proof.
  destruct (async_stream_defers_all_data (codec := latin1)
              (Cwrite (VStr "ab") EncAbsent None) eager)
    as (_ & l & T & F).
  - vm_compute. reflexivity.
  - discriminate.
  - exists l. split; [exact T | exact F].
Defined.

Lemma sync_stream_defers_nothing_witness :
  microtasks (final (run_command (codec := latin1)
                       (Cwrite (VStr "ab") EncAbsent None) heard_by_one))
  = microtasks heard_by_one.
Proof.
  apply (sync_stream_defers_nothing (codec := latin1)).
  - vm_compute. reflexivity.
  - intros a H. discriminate H.
  - discriminate.
Defined.

Lemma resume_without_consumers_discards_witness :
  exists s1 s2,
    resume (codec := latin1) young = Ret tt s1
    /\ FLOWING s1 = true
    /\ write (codec := latin1) (VStr "ab") EncAbsent (Some 3) s1 = Ret true s2
    /\ BUFFER s2 = []
    /\ trace s2
       = trace s1 ++ [Emit (Ev "data") [VBuffer [x61; x62]]; CbCalled 3].
Proof.
  destruct (resume_without_consumers_discards (codec := latin1)
              (mkWrite (VStr "ab") EncAbsent (Some 3)) (VBuffer [x61; x62])
              young)
    as (s1 & s2 & E1 & F1 & _ & E2 & B2 & _ & T2);
    try (vm_compute; reflexivity).
  - intros e H. vm_compute in H. discriminate H.
  - exists s1, s2. split; [exact E1|]. split; [exact F1|].
    split; [exact E2|]. split; [exact B2 | exact T2].
Defined.

Lemma pipe_starts_and_unpipe_stops_the_flow_witness :
  exists s1,
    pipe (codec := latin1) (mkWritable (Sink 1) (fun _ => true)) None young
    = Ret (mkWritable (Sink 1) (fun _ => true)) s1
    /\ FLOWING s1 = true
    /\ FLOWING
         (final (unpipe
                   (mkWritable (Sink 1) (fun _ => true)) s1)) = false
    /\ PIPES
         (final (unpipe
                   (mkWritable (Sink 1) (fun _ => true)) s1)) = [].
Proof.
  destruct (pipe_starts_and_unpipe_stops_the_flow (codec := latin1)
              (mkWritable (Sink 1) (fun _ => true)) None young)
    as (s1 & E1 & F1 & _ & _ & F2 & P2);
    try (vm_compute; reflexivity).
  exists s1. split; [exact E1|]. split; [exact F1|].
  split; [exact F2 | exact P2].
Defined.
